(** * Prysm: playlist ingestion and persistence pipeline

    A shallow embedding of the core of the Prysm client:
    - [client/lib/m3u-parser.ts]         (module [M3U]),
    - [client/lib/hls-quality-parser.ts] (module [HLS]),
    - [client/lib/storage.ts]            (module [Storage]),
    over the record model of [client/types/playlist.ts].

    Conventions.  A JavaScript string is a [string]: a sequence of 8-bit
    characters, read as the code units 0..255.  An optional field [f?: T]
    is an [option T]; [undefined] and [null] are [None].  Array indices and
    lengths are [nat], other numbers are [Z]. *)

From Stdlib Require Import ZArith Ascii.
From stdpp Require Import base tactics option list strings pretty gmap sorting.

Local Open Scope Z_scope.
Local Open Scope nat_scope.

(** ** The pieces of the JavaScript string library the program uses *)

Module JS.

Definition dquote : ascii := "034"%char.
Definition LF : ascii := "010"%char.

(** ECMAScript [WhiteSpace] and [LineTerminator] code points below 256:
    the characters [String.prototype.trim] strips. *)
Definition isWhiteSpace (c : ascii) : bool :=
  match c with
  | "009" | "010" | "011" | "012" | "013" | " " | "160" => true
  | _ => false
  end%char.

(** The characters [.] does not match in a regular expression. *)
Definition isLineTerminator (c : ascii) : bool :=
  match c with
  | "010" | "013" => true
  | _ => false
  end%char.

Definition between (lo hi : N) (c : ascii) : bool :=
  ((lo <=? N_of_ascii c) && (N_of_ascii c <=? hi))%N.

(** [\w] of a regular expression. *)
Definition isWordChar (c : ascii) : bool :=
  between 48 57 c || between 65 90 c || between 97 122 c
  || bool_decide (c = "_"%char).

(** [toLowerCase] on one code unit below 256. *)
Definition lowerChar (c : ascii) : ascii :=
  if between 65 90 c
     || (between 192 222 c && negb (bool_decide (c = "215"%char)))
  then ascii_of_N (N_of_ascii c + 32) else c.

(** [toUpperCase] on one ASCII character; it is only applied to text a
    case-insensitive pattern of ASCII letters and digits has matched. *)
Definition upperChar (c : ascii) : ascii :=
  if between 97 122 c then ascii_of_N (N_of_ascii c - 32) else c.

Fixpoint mapChars (f : ascii → ascii) (s : string) : string :=
  match s with
  | "" => ""
  | String c s' => String (f c) (mapChars f s')
  end.

Definition toLowerCase : string → string := mapChars lowerChar.
Definition toUpperCase : string → string := mapChars upperChar.

(** Truthiness of a string and of an optional string. *)
Definition nonEmpty (s : string) : bool :=
  match s with "" => false | _ => true end.

Definition truthy (o : option string) : bool :=
  match o with Some s => nonEmpty s | None => false end.

(** [o || d] for an optional string [o]. *)
Definition orElse (o : option string) (d : string) : string :=
  match o with
  | Some s => if nonEmpty s then s else d
  | None => d
  end.

(** [s.startsWith(p)] *)
Fixpoint startsWith (s p : string) : bool :=
  match p with
  | "" => true
  | String a p' =>
      match s with
      | "" => false
      | String b s' => bool_decide (a = b) && startsWith s' p'
      end
  end.

(** A literal pattern of ASCII characters matched under the [i] flag:
    only the ASCII case variants of a pattern character match it. *)
Fixpoint startsWithCI (s p : string) : bool :=
  match p with
  | "" => true
  | String a p' =>
      match s with
      | "" => false
      | String b s' =>
          bool_decide (upperChar a = upperChar b) && startsWithCI s' p'
      end
  end.

(** [s.includes(p)] *)
Fixpoint includes (s p : string) : bool :=
  startsWith s p
  || match s with "" => false | String _ s' => includes s' p end.

Fixpoint dropChars (n : nat) (s : string) : string :=
  match n, s with
  | S n', String _ s' => dropChars n' s'
  | _, _ => s
  end.

Fixpoint takeChars (n : nat) (s : string) : string :=
  match n, s with
  | S n', String c s' => String c (takeChars n' s')
  | _, _ => ""
  end.

(** [s.split(sep)] for a one-character separator; never empty. *)
Fixpoint split (sep : ascii) (s : string) : list string :=
  match s with
  | "" => [""]
  | String c s' =>
      if bool_decide (c = sep) then "" :: split sep s'
      else match split sep s' with
           | w :: ws => String c w :: ws
           | [] => [String c ""]
           end
  end.

(** [parts.join(sep)] *)
Fixpoint join (sep : string) (parts : list string) : string :=
  match parts with
  | [] => ""
  | [p] => p
  | p :: ps => p +:+ sep +:+ join sep ps
  end.

Fixpoint trimStart (s : string) : string :=
  match s with
  | "" => ""
  | String c s' => if isWhiteSpace c then trimStart s' else s
  end.

Fixpoint trimEnd (s : string) : string :=
  match s with
  | "" => ""
  | String c s' =>
      match trimEnd s' with
      | "" => if isWhiteSpace c then "" else String c ""
      | t => String c t
      end
  end.

Definition trim (s : string) : string := trimEnd (trimStart s).

(** [s.replace(pat, rep)] for a string pattern: the first occurrence. *)
Fixpoint replace (s pat rep : string) : string :=
  if startsWith s pat then rep +:+ dropChars (String.length pat) s
  else match s with
       | "" => ""
       | String c s' => String c (replace s' pat rep)
       end.

(** [arr[arr.length - 1]] of an array that is never empty. *)
Definition lastOr (d : string) (l : list string) : string := List.last l d.

(** [Array.prototype.sort(cmp)]: the sort is stable, and for a consistent
    comparator its result is the one of this insertion sort, which puts
    each element behind the elements that do not compare greater. *)
Section Sort.
Context {A : Type} (cmp : A → A → Z).

Fixpoint insertSorted (x : A) (l : list A) : list A :=
  match l with
  | [] => [x]
  | y :: l' =>
      if (0 <? cmp y x)%Z then x :: y :: l' else y :: insertSorted x l'
  end.

Definition sort (l : list A) : list A :=
  fold_left (λ acc x, insertSorted x acc) l [].
End Sort.

(** A [Set] of strings in insertion order: [set.add(x)]. *)
Definition setAdd (x : string) (s : list string) : list string :=
  if bool_decide (x ∈ s) then s else s ++ [x].

(** *** [String.prototype.localeCompare]

    The comparison is the host's collation and varies with it, so the parser
    takes it as a parameter.  ECMAScript requires of it what [Consistent]
    says: it is a consistent comparator for [sort]. *)

Record Consistent (cmp : string → string → Z) : Prop := {
  consistent_flip : ∀ a b, (0 < cmp a b)%Z → (cmp b a < 0)%Z;
  consistent_trans : ∀ a b c, (cmp a b ≤ 0)%Z → (cmp b c ≤ 0)%Z → (cmp a c ≤ 0)%Z;
}.

Definition compareSign (c : comparison) : Z :=
  match c with Lt => (-1)%Z | Eq => 0%Z | Gt => 1%Z end.

(** Case-sensitive lexicographic comparison: character by character, by
    code unit. *)
Definition codeUnitCompare (a b : string) : Z :=
  compareSign (String.compare a b).

Definition swapCaseChar (c : ascii) : ascii :=
  if between 97 122 c then ascii_of_N (N_of_ascii c - 32)
  else if between 65 90 c then ascii_of_N (N_of_ascii c + 32) else c.

(** A collation of the kind hosts implement (ICU's root collation orders
    strings of ASCII letters this way): the letters decide first, whatever
    their case, and between strings that differ in case only, lower case
    comes first. *)
Definition hostCollation (a b : string) : Z :=
  match String.compare (toLowerCase a) (toLowerCase b) with
  | Eq => compareSign (String.compare (mapChars swapCaseChar a)
                                       (mapChars swapCaseChar b))
  | c => compareSign c
  end.

(** A thrown [Error]: its [message] and its optional numeric [code]. *)
Record Error := { message : string; code : option Z }.

(** [new Error(msg)] *)
Definition newError (msg : string) : Error := {| message := msg; code := None |}.

(** [text] holds [mark], a text in lower case, in some letter case. *)
Definition HoldsLower (text mark : string) : Prop :=
  ∃ front mid back,
    text = front +:+ mid +:+ back ∧ toLowerCase mid = mark.

End JS.

(** ** Record model ([client/types/playlist.ts]) *)

Inductive DRMType := widevine | fairplay | playready | clearkey.

Record DRMInfo := {
  drm_type : option DRMType;
  licenseServer : option string;
  drm_headers : option (gmap string string);
  certificateUrl : option string;
}.

Record Channel := {
  ch_id : string;
  ch_name : string;
  ch_url : string;
  ch_logo : option string;
  ch_group : string;
  tvgId : option string;
  tvgName : option string;
  ch_drm : option DRMInfo;
  ch_headers : option (gmap string string);
  isLive : option bool;
  ch_quality : option string;
}.

Record Playlist := {
  pl_id : string;
  pl_name : string;
  pl_url : option string;
  channels : list Channel;
  categories : list string;
  lastUpdated : Z;
}.

(** ** The playlist text parser ([client/lib/m3u-parser.ts]) *)

Module M3U.
Import JS.

(** [Partial<Channel>] as [parseExtInf] fills it. *)
Record PartialChannel := {
  p_tvgId : option string;
  p_tvgName : option string;
  p_logo : option string;
  p_group : option string;
  p_quality : option string;
  p_name : option string;
}.

Definition emptyPartial : PartialChannel :=
  {| p_tvgId := None; p_tvgName := None; p_logo := None;
     p_group := None; p_quality := None; p_name := None |}.

(** The rest of an attribute pattern behind its opening quote: the text up
    to the next double quote, which has to be there. *)
Fixpoint untilQuote (s : string) : option string :=
  match s with
  | "" => None
  | String c s' =>
      if bool_decide (c = dquote) then Some ""
      else String c <$> untilQuote s'
  end.

(** [line.match(re)] for the case-insensitive pattern [key=QUOTED] with
    the quoted text captured: the capture of the leftmost match; [lit] is
    the key with its equals sign and opening quote. *)
Fixpoint matchAttrAt (lit : string) (s : string) : option string :=
  match (if startsWithCI s lit
         then untilQuote (dropChars (String.length lit) s) else None) with
  | Some v => Some v
  | None =>
      match s with
      | "" => None
      | String _ s' => matchAttrAt lit s'
      end
  end.

Definition matchAttr (key : string) (line : string) : option string :=
  matchAttrAt (key +:+ "=" +:+ String dquote "") line.

Definition qualityTokens : list string :=
  ["4K"; "UHD"; "FHD"; "HD"; "SD"; "720p"; "1080p"; "480p"; "360p"].

(** One alternative of the quality pattern followed by [\b], at the head
    of [s]: the matched text. *)
Definition tokenAt (s : string) (tok : string) : option string :=
  if startsWithCI s tok
  then match dropChars (String.length tok) s with
       | "" => Some (takeChars (String.length tok) s)
       | String c _ =>
           if isWordChar c then None
           else Some (takeChars (String.length tok) s)
       end
  else None.

Fixpoint firstToken (s : string) (toks : list string) : option string :=
  match toks with
  | [] => None
  | t :: toks' =>
      match tokenAt s t with
      | Some m => Some m
      | None => firstToken s toks'
      end
  end.

(** [line.match(/\b(4K|UHD|FHD|HD|SD|720p|1080p|480p|360p)\b/i)];
    [prevWord] tells whether the character before [s] is a word character. *)
Fixpoint matchQualityFrom (prevWord : bool) (s : string) : option string :=
  match (if prevWord then None else firstToken s qualityTokens) with
  | Some m => Some m
  | None =>
      match s with
      | "" => None
      | String c s' => matchQualityFrom (isWordChar c) s'
      end
  end.

Definition matchQuality (line : string) : option string :=
  matchQualityFrom false line.

Fixpoint noLineTerminator (s : string) : bool :=
  match s with
  | "" => true
  | String c s' => negb (isLineTerminator c) && noLineTerminator s'
  end.

(** [line.match(/,(.+)$/)]: the capture of the leftmost match, that is the
    text behind the first comma that is followed, up to the end of the
    line, by at least one character and by no line terminator. *)
Fixpoint matchName (s : string) : option string :=
  match s with
  | "" => None
  | String c s' =>
      if bool_decide (c = ","%char) && nonEmpty s' && noLineTerminator s'
      then Some s' else matchName s'
  end.

Definition parseExtInf (line : string) : PartialChannel :=
  {| p_tvgId := matchAttr "tvg-id" line;
     p_tvgName := matchAttr "tvg-name" line;
     p_logo := matchAttr "tvg-logo" line;
     p_group := matchAttr "group-title" line;
     p_quality := toUpperCase <$> matchQuality line;
     p_name := trim <$> matchName line |}.

(** The accumulators of [parseDRM]. *)
Record DRMScan := {
  s_type : option DRMType;
  s_licenseServer : option string;
  s_headers : gmap string string;
  foundDRM : bool;
  foundHeaders : bool;
}.

(** The line split at its equals signs, [.slice(1)], joined with equals
    signs again and trimmed. *)
Definition afterEquals (line : string) : string :=
  trim (join "=" (drop 1 (split "="%char line))).

Definition licenseType (old : option DRMType) (line : string)
  : option DRMType :=
  match split "="%char line !! 1 with
  | Some t =>
      let type := trim (toLowerCase t) in
      if includes type "widevine" then Some widevine
      else if includes type "playready" then Some playready
      else if includes type "fairplay" then Some fairplay
      else if includes type "clearkey" then Some clearkey
      else old
  | None => old
  end.

Definition scanLine (st : DRMScan) (line : string) : DRMScan :=
  let st1 :=
    if includes line "#KODIPROP:inputstream.adaptive.license_type="
    then {| s_type := licenseType (s_type st) line;
            s_licenseServer := s_licenseServer st;
            s_headers := s_headers st;
            foundDRM := true; foundHeaders := foundHeaders st |}
    else st in
  let st2 :=
    if includes line "#KODIPROP:inputstream.adaptive.license_key="
    then {| s_type := s_type st1;
            s_licenseServer := Some (afterEquals line);
            s_headers := s_headers st1;
            foundDRM := true; foundHeaders := foundHeaders st1 |}
    else st1 in
  let st3 :=
    if includes line "#EXTVLCOPT:http-user-agent="
    then {| s_type := s_type st2;
            s_licenseServer := s_licenseServer st2;
            s_headers := <["User-Agent" := afterEquals line]> (s_headers st2);
            foundDRM := foundDRM st2; foundHeaders := true |}
    else st2 in
  if includes line "#EXTVLCOPT:http-referrer="
  then {| s_type := s_type st3;
          s_licenseServer := s_licenseServer st3;
          s_headers := <["Referer" := afterEquals line]> (s_headers st3);
          foundDRM := foundDRM st3; foundHeaders := true |}
  else st3.

(** [parseDRM(lines, currentIndex)]: the window of up to 5 lines before
    [currentIndex]. *)
Definition parseDRM (lines : list string) (currentIndex : nat)
  : option DRMInfo * option (gmap string string) :=
  let start := currentIndex - 5 in
  let window := take (currentIndex - start) (drop start lines) in
  let st := fold_left scanLine window
              {| s_type := None; s_licenseServer := None; s_headers := ∅;
                 foundDRM := false; foundHeaders := false |} in
  (if foundDRM st
   then Some {| drm_type := s_type st; licenseServer := s_licenseServer st;
                drm_headers := None; certificateUrl := None |}
   else None,
   if foundHeaders st then Some (s_headers st) else None).

Section Parser.
(** The host: [String.prototype.localeCompare], the successive results
    of [generateId()] and the clock [Date.now()]. *)
Variable localeCompare : string → string → Z.
Variable generateId : nat → string.
Variable now : Z.

(** The state of the scan loop of [parseM3U]; [idsUsed] counts the
    calls of [generateId] so far. *)
Record Scan := {
  sc_channels : list Channel;
  categoriesSet : list string;
  currentChannel : PartialChannel;
  extinfIndex : Z;
  idsUsed : nat;
}.

Definition scanStep (lines : list string) (st : Scan) (i : nat)
           (line : string) : Scan :=
  if startsWith line "#EXTINF:" then
    {| sc_channels := sc_channels st;
       categoriesSet := categoriesSet st;
       currentChannel := parseExtInf line;
       extinfIndex := Z.of_nat i;
       idsUsed := idsUsed st |}
  else if nonEmpty line && negb (startsWith line "#")
          && truthy (p_name (currentChannel st)) then
    let '(drm, headers) := parseDRM lines i in
    let cur := currentChannel st in
    let channel :=
      {| ch_id := generateId (idsUsed st);
         ch_name := orElse (p_name cur) "Unknown Channel";
         ch_url := line;
         ch_logo := p_logo cur;
         ch_group := orElse (p_group cur) "Uncategorized";
         tvgId := p_tvgId cur;
         tvgName := p_tvgName cur;
         ch_quality := p_quality cur;
         ch_drm := drm;
         ch_headers := headers;
         isLive := Some true |} in
    {| sc_channels := sc_channels st ++ [channel];
       categoriesSet := setAdd (ch_group channel) (categoriesSet st);
       currentChannel := emptyPartial;
       extinfIndex := (-1)%Z;
       idsUsed := S (idsUsed st) |}
  else st.

Fixpoint scanFrom (lines : list string) (i : nat) (rest : list string)
         (st : Scan) : Scan :=
  match rest with
  | [] => st
  | line :: rest' => scanFrom lines (S i) rest' (scanStep lines st i line)
  end.

Definition initialScan : Scan :=
  {| sc_channels := []; categoriesSet := [];
     currentChannel := emptyPartial; extinfIndex := (-1)%Z;
     idsUsed := 0 |}.

(** The comparator of the category sort. *)
Definition categoryCompare (a b : string) : Z :=
  if bool_decide (a = "Uncategorized") then 1%Z
  else if bool_decide (b = "Uncategorized") then (-1)%Z
  else localeCompare a b.

(** [content.split(LF).map(line => line.trim())] *)
Definition linesOf (content : string) : list string :=
  trim <$> split LF content.

Definition parseM3U (content : string) (playlistName : option string)
  : Playlist :=
  let lines := linesOf content in
  let st := scanFrom lines 0 lines initialScan in
  {| pl_id := generateId (idsUsed st);
     pl_name := default "My Playlist" playlistName;
     pl_url := None;
     channels := sc_channels st;
     categories := sort categoryCompare (categoriesSet st);
     lastUpdated := now |}.

(** *** The network

    [fetch] is the host's: every call takes the next of the outcomes the
    network holds ready (a call beyond them is rejected) and leaves the
    request in [sent]. *)

Inductive FetchOutcome :=
| FetchRejected
    (* the promise of [fetch] rejects *)
| FetchResponse (ok : bool) (body : option string).
    (* a response; [body = None]: [response.text()] rejects *)

Record Request := { req_url : string; req_headers : list (string * string) }.

Record Net := { upcoming : list FetchOutcome; sent : list Request }.

(** The outcome of the next call of [fetch]. *)
Definition nextOutcome (net : Net) : FetchOutcome :=
  hd FetchRejected (upcoming net).

Definition fetch (url : string) (headers : list (string * string)) (net : Net)
  : FetchOutcome * Net :=
  (nextOutcome net,
   {| upcoming := tail (upcoming net);
      sent := sent net ++ [{| req_url := url; req_headers := headers |}] |}).

Definition PRYSM_USER_AGENT : string := "Prysm/1.0.0".

Definition fetchPlaylistContent (url : string) (net : Net)
  : option string * Net :=
  let '(response, net') :=
    fetch url [("User-Agent", PRYSM_USER_AGENT); ("Accept", "*/*")] net in
  (match response with
   | FetchResponse true (Some content) =>
       if includes content "#EXTM3U" || includes content "#EXTINF"
       then Some content else None
   | _ => None
   end, net').

Definition fetchFailure : Error :=
  newError "Could not fetch playlist. The server may be blocking requests or require specific app authentication.".

(** The default playlist name [fetchAndParseM3U] derives from the URL. *)
Definition fileNameOf (url : string) : string :=
  let urlParts := split "/"%char url in
  replace (replace (default "" (head (split "?"%char (lastOr "" urlParts))))
                   ".m3u" "")
          ".m3u8" "".

Definition fetchAndParseM3U (url : string) (net : Net)
  : (Playlist + Error) * Net :=
  let '(content, net') := fetchPlaylistContent url net in
  if truthy content then
    let fileName := fileNameOf url in
    let playlistName := orElse (Some fileName) "Remote Playlist" in
    let playlist := parseM3U (default "" content) (Some playlistName) in
    (inl {| pl_id := pl_id playlist;
            pl_name := pl_name playlist;
            pl_url := Some url;
            channels := channels playlist;
            categories := categories playlist;
            lastUpdated := lastUpdated playlist |}, net')
  else (inr fetchFailure, net').

End Parser.

(** *** Vocabulary of the properties *)

(** A line the scan loop passes over while an entry with a name is pending:
    neither an entry-info line nor a URL line. *)
Definition skipped (line : string) : Prop :=
  startsWith line "#EXTINF:" = false
  ∧ (line = "" ∨ startsWith line "#" = true).

(** [raw] is what the name pattern captures in [line]: the text behind the
    first comma that no line terminator separates from the end of the line;
    it is not empty. *)
Definition BehindFirstComma (line raw : string) : Prop :=
  ∃ pre,
    line = pre +:+ String ","%char raw
    ∧ raw ≠ ""
    ∧ noLineTerminator raw = true
    ∧ (∀ pre1 rest1,
         pre = pre1 +:+ String ","%char rest1 → noLineTerminator rest1 = false).

(** The channel [c] is the URL line [j], emitted for the entry-info line [i],
    the last one before it, with the name that line carries. *)
Definition EmittedFor (lines : list string) (c : Channel) : Prop :=
  ∃ i j extinf raw,
    i < j
    ∧ lines !! i = Some extinf
    ∧ startsWith extinf "#EXTINF:" = true
    ∧ lines !! j = Some (ch_url c)
    ∧ (∀ k line, i < k < j → lines !! k = Some line → skipped line)
    ∧ BehindFirstComma extinf raw
    ∧ ch_name c = trim raw
    ∧ ch_name c ≠ "".

(** The invariant of the scan loop in front of line [n]. *)
Record ScanInv (lines : list string) (n : nat) (st : Scan) : Prop := {
  inv_emitted : ∀ c, c ∈ sc_channels st → EmittedFor lines c;
  inv_pending :
    truthy (p_name (currentChannel st)) = true →
    ∃ i extinf,
      i < n
      ∧ lines !! i = Some extinf
      ∧ startsWith extinf "#EXTINF:" = true
      ∧ currentChannel st = parseExtInf extinf
      ∧ (∀ k line, i < k < n → lines !! k = Some line → skipped line);
  inv_nodup : NoDup (categoriesSet st);
  inv_groups :
    ∀ g, g ∈ categoriesSet st ↔ g ∈ ch_group <$> sc_channels st;
}.

(** The order of a sorted category list: "Uncategorized" behind everything,
    the other names as [compare] orders them. *)
Definition categoryLe (compare : string → string → Z) (a b : string) : Prop :=
  b = "Uncategorized" ∨ (a ≠ "Uncategorized" ∧ (compare a b ≤ 0)%Z).

(** The categories of a playlist are the distinct groups of its channels,
    sorted by [compare] with "Uncategorized" last. *)
Definition CategoriesSortedBy (compare : string → string → Z) (p : Playlist)
  : Prop :=
  NoDup (categories p)
  ∧ (∀ g, g ∈ categories p ↔ g ∈ ch_group <$> channels p)
  ∧ StronglySorted (categoryLe compare) (categories p).

(** The response the playlist fetch accepts. *)
Definition Accepted (o : FetchOutcome) : Prop :=
  ∃ body, o = FetchResponse true (Some body)
          ∧ (includes body "#EXTM3U" = true ∨ includes body "#EXTINF" = true).

(** The text behind the last comma of a line: where the specification
    looks for the display name. *)
Fixpoint afterLastComma (s : string) : option string :=
  match s with
  | "" => None
  | String c s' =>
      match afterLastComma s' with
      | Some t => Some t
      | None => if bool_decide (c = ","%char) then Some s' else None
      end
  end.

Definition nameAfterLastComma (line : string) : option string :=
  trim <$> afterLastComma line.

(** Every channel of [p] goes back to an entry-info line of [content] that
    has a non-empty display name behind its last comma. *)
Definition NamedAfterLastComma (content : string) (p : Playlist) : Prop :=
  ∀ c, c ∈ channels p →
    ∃ line, line ∈ linesOf content
            ∧ startsWith line "#EXTINF:" = true
            ∧ truthy (nameAfterLastComma line) = true.

(** *** Vocabulary of the further properties *)

(** The quality labels a channel can carry: the alternatives of the quality
    pattern in upper case. *)
Definition qualityLabels : list string :=
  ["4K"; "UHD"; "FHD"; "HD"; "SD"; "720P"; "1080P"; "480P"; "360P"].

(** The channel [c] is built from the entry-info line [i] and the URL line
    [j] of [lines]: its attributes are those of the entry-info line, its DRM
    information and headers those [parseDRM] reads in front of the URL line. *)
Definition BuiltFrom (lines : list string) (c : Channel) : Prop :=
  ∃ i j extinf,
    i < j
    ∧ lines !! i = Some extinf
    ∧ startsWith extinf "#EXTINF:" = true
    ∧ lines !! j = Some (ch_url c)
    ∧ ch_group c = orElse (matchAttr "group-title" extinf) "Uncategorized"
    ∧ ch_logo c = matchAttr "tvg-logo" extinf
    ∧ tvgId c = matchAttr "tvg-id" extinf
    ∧ tvgName c = matchAttr "tvg-name" extinf
    ∧ ch_quality c = toUpperCase <$> matchQuality extinf
    ∧ (ch_drm c, ch_headers c) = parseDRM lines j
    ∧ isLive c = Some true.

(** A channel as the parser leaves it: with a group, and with a URL that is
    not empty and no comment line. *)
Definition Playable (c : Channel) : Prop :=
  ch_group c ≠ ""
  ∧ ch_url c ≠ ""
  ∧ startsWith (ch_url c) "#" = false.

(** The number of pending entries with a name: one or none. *)
Definition pendingEntries (st : Scan) : nat :=
  if truthy (p_name (currentChannel st)) then 1 else 0.

(** The entry-info lines among [lines]. *)
Definition entryLines (lines : list string) : list string :=
  filter (λ line : string, startsWith line "#EXTINF:") lines.

(** The lines [parseDRM(lines, i)] reads: at most five, in front of [i]. *)
Definition readByParseDRM (lines : list string) (i : nat) (line : string)
  : Prop :=
  ∃ j, i - 5 ≤ j < i ∧ lines !! j = Some line.

(** The properties and options [parseDRM] looks for. *)
Definition licenseTypeProp : string :=
  "#KODIPROP:inputstream.adaptive.license_type=".
Definition licenseKeyProp : string :=
  "#KODIPROP:inputstream.adaptive.license_key=".
Definition userAgentOpt : string := "#EXTVLCOPT:http-user-agent=".
Definition referrerOpt : string := "#EXTVLCOPT:http-referrer=".

(** The character [c] does not occur in [s]. *)
Definition lacks (c : ascii) (s : string) : Prop :=
  includes s (String c "") = false.

End M3U.


(** ** The quality variant resolver ([client/lib/hls-quality-parser.ts]) *)

Module HLS.
Import JS.

(** The numbers of a variant are integers: the model covers the manifests
    whose BANDWIDTH and RESOLUTION attributes [parseInt] and [Number] read
    as numbers, not as NaN. *)
Record Resolution := { width : Z; height : Z }.

Record HLSVariant := {
  bandwidth : Z;
  resolution : option Resolution;
  v_url : string;
  v_name : option string;
}.

(** [VideoQuality] of the player component. *)
Record VideoQuality := {
  label : string;
  q_resolution : string;
  bitrate : option Z;
  q_url : option string;
}.

(** [Math.round(x / 1000)] for an integer [x]: halves round up. *)
Definition roundDiv1000 (x : Z) : Z := ((x + 500) / 1000)%Z.

(** The label and the resolution key [parseHLSManifest] gives a variant. *)
Definition tierOf (variant : HLSVariant) : string * string :=
  match resolution variant with
  | Some r =>
      let height := height r in
      if (2160 <=? height)%Z then ("4K", "2160p")
      else if (1440 <=? height)%Z then ("1440p", "1440p")
      else if (1080 <=? height)%Z then ("1080p", "1080p")
      else if (720 <=? height)%Z then ("720p", "720p")
      else if (480 <=? height)%Z then ("480p", "480p")
      else if (360 <=? height)%Z then ("360p", "360p")
      else (pretty height +:+ "p", pretty height +:+ "p")
  | None =>
      let kbps := roundDiv1000 (bandwidth variant) in
      if (8000 <=? kbps)%Z then ("High", "High Quality")
      else if (4000 <=? kbps)%Z then ("Medium-High", "Medium-High")
      else if (2000 <=? kbps)%Z then ("Medium", "Medium Quality")
      else if (1000 <=? kbps)%Z then ("Low", "Low Quality")
      else ("Very Low", "Very Low Quality")
  end.

(** The callback of [variants.map]. *)
Definition toQuality (variant : HLSVariant) : VideoQuality :=
  {| label := orElse (v_name variant) (tierOf variant).1;
     q_resolution := (tierOf variant).2;
     bitrate := Some (bandwidth variant);
     q_url := Some (v_url variant) |}.

(** Truthiness of an optional number. *)
Definition truthyNum (o : option Z) : bool :=
  match o with Some z => negb (z =? 0)%Z | None => false end.

(** [a > b] on optional numbers ([undefined] compares false). *)
Definition gtNum (a b : option Z) : bool :=
  match a, b with Some x, Some y => (y <? x)%Z | _, _ => false end.

(** [acc.find(q => q.resolution === quality.resolution)] with the index of
    the element found, which is what [acc.indexOf(exists)] returns. *)
Fixpoint findResolution (key : string) (acc : list VideoQuality)
  : option (nat * VideoQuality) :=
  match acc with
  | [] => None
  | q :: acc' =>
      if bool_decide (q_resolution q = key) then Some (0, q)
      else prod_map S id <$> findResolution key acc'
  end.

(** The callback of [qualities.reduce]. *)
Definition dedupStep (acc : list VideoQuality) (quality : VideoQuality)
  : list VideoQuality :=
  match findResolution (q_resolution quality) acc with
  | None => acc ++ [quality]
  | Some (index, exists_) =>
      if truthyNum (bitrate quality) && truthyNum (bitrate exists_)
         && gtNum (bitrate quality) (bitrate exists_)
      then <[index := quality]> acc
      else acc
  end.

(** The variants in the order [variants.sort] leaves them in. *)
Definition sortedVariants (variants : list HLSVariant) : list HLSVariant :=
  sort (λ a b, (bandwidth b - bandwidth a)%Z) variants.

(** Lines 62 to 135 of [parseHLSManifest]: from the [variants] read off the
    manifest to the [uniqueQualities] returned. *)
Definition uniqueQualities (variants : list HLSVariant) : list VideoQuality :=
  match variants with
  | [] => []
  | _ =>
      let qualities := toQuality <$> sortedVariants variants in
      fold_left dedupStep qualities []
  end.

(** *** Vocabulary of the properties *)

(** [variant.bandwidth], as the quality carries it. *)
Definition bitrateOf (q : VideoQuality) : Z := default 0%Z (bitrate q).

(** Descending bitrate. *)
Definition descending (a b : VideoQuality) : Prop := (bitrateOf b ≤ bitrateOf a)%Z.

(** The invariant of the reduction over qualities of descending bitrate:
    [acc] after the qualities [done]. *)
Record DedupInv (done acc : list VideoQuality) : Prop := {
  dedup_nodup : NoDup (q_resolution <$> acc);
  dedup_sublist : sublist acc done;
  dedup_covers :
    ∀ q, q ∈ done →
      ∃ q', q' ∈ acc ∧ q_resolution q' = q_resolution q
            ∧ (bitrateOf q ≤ bitrateOf q')%Z;
}.

(** *** Telling a stream by its URL *)

Definition isHLSStream (url : string) : bool :=
  let lowerUrl := toLowerCase url in
  includes lowerUrl ".m3u8" || includes lowerUrl "/hls/"
  || includes lowerUrl "playlist".

(** The marks [isHLSStream] looks for. *)
Definition streamMarks : list string := [".m3u8"; "/hls/"; "playlist"].

End HLS.


(** ** The chunked persistence engine ([client/lib/storage.ts]) *)

Module Storage.
Import JS.

Definition PLAYLISTS : string := "prysm_playlists".
Definition ACTIVE_PLAYLIST_ID : string := "prysm_active_playlist".
Definition PLAYLIST_META : string := "prysm_playlist_meta_".
Definition PLAYLIST_CHUNKS : string := "prysm_playlist_chunks_".

Definition CHUNK_SIZE : nat := 300.

Inductive PlaylistType := m3u | xtream.

Record XtreamCredentials := {
  server : string;
  username : string;
  password : string;
}.

Record PlaylistInfo := {
  info_id : string;
  info_name : string;
  info_type : PlaylistType;
  info_url : option string;
  info_xtreamCredentials : option XtreamCredentials;
  channelCount : nat;
  info_lastUpdated : Z;
}.

Record PlaylistMeta := {
  meta_id : string;
  meta_name : string;
  meta_type : PlaylistType;
  meta_url : option string;
  meta_xtreamCredentials : option XtreamCredentials;
  meta_categories : list string;
  meta_lastUpdated : Z;
  totalChannels : nat;
  chunkCount : nat;
}.

Record MinimalChannel := {
  min_i : string;
  min_n : string;
  min_u : string;
  min_l : option string;
  min_g : string;
}.

Definition minimizeChannel (channel : Channel) : MinimalChannel :=
  {| min_i := ch_id channel;
     min_n := ch_name channel;
     min_u := ch_url channel;
     min_g := ch_group channel;
     min_l := if truthy (ch_logo channel) then ch_logo channel else None |}.

Definition expandChannel (min : MinimalChannel) : Channel :=
  {| ch_id := min_i min;
     ch_name := min_n min;
     ch_url := min_u min;
     ch_group := min_g min;
     ch_logo := min_l min;
     tvgId := None; tvgName := None; ch_drm := None; ch_headers := None;
     isLive := None; ch_quality := None |}.

(** *** The key/value store

    AsyncStorage maps string keys to strings.  Every record is written as
    [JSON.stringify] of a value and read back with [JSON.parse]; the model
    keeps the value itself, tagged with its shape, so that what is read is
    what was written.  The active playlist id is stored as plain text
    ([SText]).  A reader that meets a record of another shape than the one
    the program writes under the key fails as [JSON.parse] does on text it
    cannot read; the program never writes such a record. *)

Inductive Stored :=
| SMeta (meta : PlaylistMeta)
| SChunk (chunk : list MinimalChannel)
| SInfos (playlists : list PlaylistInfo)
| SText (text : string).

(** The store and the outcomes of its upcoming calls: [Some e] makes a call
    reject with [e] and change nothing, [None] lets it through; calls beyond
    the list go through. *)
Record World := {
  kv : gmap string Stored;
  faults : list (option Error);
}.

Inductive Outcome (A : Type) :=
| Ok (a : A)
| Throw (e : Error).
Arguments Ok {A} a.
Arguments Throw {A} e.

(** Asynchronous code over the store: state passing with exceptions. *)
Definition M (A : Type) : Type := World → Outcome A * World.

Definition ret {A} (a : A) : M A := λ w, (Ok a, w).

Definition throw {A} (e : Error) : M A := λ w, (Throw e, w).

Definition bind {A B} (m : M A) (k : A → M B) : M B :=
  λ w, match m w with
       | (Ok a, w') => k a w'
       | (Throw e, w') => (Throw e, w')
       end.

(** [try { body } catch (e) { handler(e) }] *)
Definition tryCatch {A} (body : M A) (handler : Error → M A) : M A :=
  λ w, match body w with
       | (Ok a, w') => (Ok a, w')
       | (Throw e, w') => handler e w'
       end.

Global Instance M_bind : MBind M := λ A B k m, bind m k.

(** The outcome of the next call of the store. *)
Definition nextFault (w : World) : option Error := hd None (faults w).

(** One call of the store. *)
Definition storageCall {A} (op : gmap string Stored → A * gmap string Stored)
  : M A :=
  λ w, match nextFault w with
       | Some e => (Throw e, {| kv := kv w; faults := tail (faults w) |})
       | None =>
           (Ok (op (kv w)).1,
            {| kv := (op (kv w)).2; faults := tail (faults w) |})
       end.

Definition getItem (key : string) : M (option Stored) :=
  storageCall (λ m, (m !! key, m)).

Definition setItem (key : string) (value : Stored) : M unit :=
  storageCall (λ m, (tt, <[key := value]> m)).

Definition removeItem (key : string) : M unit :=
  storageCall (λ m, (tt, delete key m)).

Definition multiRemove (keys : list string) : M unit :=
  storageCall (λ m, (tt, foldr delete m keys)).

(** [JSON.parse] failing. *)
Definition parseFailure : Error := newError "JSON Parse error".

Definition metaKey (id : string) : string := PLAYLIST_META +:+ id.

Definition chunkKey (id : string) (i : nat) : string :=
  PLAYLIST_CHUNKS +:+ id +:+ "_" +:+ pretty i.

Definition getPlaylistList : M (list PlaylistInfo) :=
  tryCatch
    (data ← getItem PLAYLISTS;
     match data with
     | Some (SInfos playlists) => ret playlists
     | Some (SText "") | None => ret []
     | Some _ => throw parseFailure
     end)
    (λ _, ret []).

Definition savePlaylistList (playlists : list PlaylistInfo) : M unit :=
  tryCatch (setItem PLAYLISTS (SInfos playlists)) (λ _, ret tt).

Definition getActivePlaylistId : M (option string) :=
  tryCatch
    (data ← getItem ACTIVE_PLAYLIST_ID;
     match data with
     | Some (SText id) => ret (Some id)
     | None => ret None
     | Some _ => throw parseFailure
     end)
    (λ _, ret None).

Definition setActivePlaylistId (id : string) : M unit :=
  tryCatch (setItem ACTIVE_PLAYLIST_ID (SText id)) (λ _, ret tt).

(** The test of the two [catch] blocks of [savePlaylist]: the message
    includes the text "disk is full", or the code is 13. *)
Definition isDiskFull (e : Error) : bool :=
  includes (message e) "disk is full" || bool_decide (code e = Some 13%Z).

Definition deviceStorageFull : Error :=
  newError "Device storage is full. Please free up some space or use a smaller playlist.".

(** [Math.ceil(n / d)] *)
Definition ceilDiv (n d : nat) : nat := (n + (d - 1)) / d.

(** [arr.slice(start, end)] *)
Definition slice {A} (start end_ : nat) (arr : list A) : list A :=
  take (end_ - start) (drop start arr).

(** [playlists.findIndex(p => p.id === id)] *)
Fixpoint findIndex (id : string) (playlists : list PlaylistInfo) : option nat :=
  match playlists with
  | [] => None
  | p :: rest =>
      if bool_decide (info_id p = id) then Some 0
      else S <$> findIndex id rest
  end.

(** [meta] after [meta.chunkCount = i; meta.totalChannels = i * CHUNK_SIZE]. *)
Definition truncatedMeta (meta : PlaylistMeta) (i : nat) : PlaylistMeta :=
  {| meta_id := meta_id meta;
     meta_name := meta_name meta;
     meta_type := meta_type meta;
     meta_url := meta_url meta;
     meta_xtreamCredentials := meta_xtreamCredentials meta;
     meta_categories := meta_categories meta;
     meta_lastUpdated := meta_lastUpdated meta;
     totalChannels := i * CHUNK_SIZE;
     chunkCount := i |}.

(** The slice of the channels chunk [i] holds, minimized. *)
Definition chunkOf (playlist : Playlist) (i : nat) : list MinimalChannel :=
  let start := i * CHUNK_SIZE in
  let end_ := min (start + CHUNK_SIZE) (length (channels playlist)) in
  minimizeChannel <$> slice start end_ (channels playlist).

(** The chunk loop of [savePlaylist], at index [i] with [remaining]
    iterations to go; it returns [meta] as the loop leaves it. *)
Fixpoint saveChunks (playlist : Playlist) (meta : PlaylistMeta)
         (i remaining : nat) : M PlaylistMeta :=
  match remaining with
  | 0 => ret meta
  | S remaining' =>
      stopped ←
        tryCatch
          (setItem (chunkKey (pl_id playlist) i) (SChunk (chunkOf playlist i));;
           ret None)
          (λ chunkError,
             if isDiskFull chunkError then
               setItem (metaKey (pl_id playlist))
                       (SMeta (truncatedMeta meta i));;
               ret (Some (truncatedMeta meta i))
             else throw chunkError);
      match stopped with
      | Some meta' => ret meta'
      | None => saveChunks playlist meta (S i) remaining'
      end
  end.

(** The entry of the summary list for a playlist saved with [meta]. *)
Definition infoOf (playlist : Playlist) (type : PlaylistType)
           (xtreamCredentials : option XtreamCredentials)
           (meta : PlaylistMeta) : PlaylistInfo :=
  {| info_id := pl_id playlist;
     info_name := pl_name playlist;
     info_type := type;
     info_url := pl_url playlist;
     info_xtreamCredentials := xtreamCredentials;
     channelCount := totalChannels meta;
     info_lastUpdated := meta_lastUpdated meta |}.

(** Replace the entry at the index [findIndex] found, or push. *)
Definition upsert (playlistInfo : PlaylistInfo) (playlists : list PlaylistInfo)
  : list PlaylistInfo :=
  match findIndex (info_id playlistInfo) playlists with
  | Some existingIndex => <[existingIndex := playlistInfo]> playlists
  | None => playlists ++ [playlistInfo]
  end.

(** The metadata record [savePlaylist] writes first. *)
Definition metaOf (playlist : Playlist) (type : PlaylistType)
           (xtreamCredentials : option XtreamCredentials) : PlaylistMeta :=
  {| meta_id := pl_id playlist;
     meta_name := pl_name playlist;
     meta_type := type;
     meta_url := pl_url playlist;
     meta_xtreamCredentials := xtreamCredentials;
     meta_categories := take 50 (categories playlist);
     meta_lastUpdated := lastUpdated playlist;
     totalChannels := length (channels playlist);
     chunkCount := ceilDiv (length (channels playlist)) CHUNK_SIZE |}.

Definition savePlaylist (playlist : Playlist) (type : option PlaylistType)
           (xtreamCredentials : option XtreamCredentials) : M unit :=
  let type := default m3u type in
  tryCatch
    (let meta := metaOf playlist type xtreamCredentials in
     setItem (metaKey (pl_id playlist)) (SMeta meta);;
     meta ← saveChunks playlist meta 0 (chunkCount meta);
     playlists ← getPlaylistList;
     let playlistInfo := infoOf playlist type xtreamCredentials meta in
     savePlaylistList (upsert playlistInfo playlists);;
     setActivePlaylistId (pl_id playlist))
    (λ error,
       if isDiskFull error then throw deviceStorageFull else throw error).

(** The chunk loop of [getPlaylist]. *)
Fixpoint loadChunks (id : string) (i remaining : nat) (channels : list Channel)
  : M (list Channel) :=
  match remaining with
  | 0 => ret channels
  | S remaining' =>
      channels ←
        tryCatch
          (chunkStr ← getItem (chunkKey id i);
           match chunkStr with
           | Some (SChunk chunk) => ret (channels ++ (expandChannel <$> chunk))
           | Some (SText "") | None => ret channels
           | Some _ => throw parseFailure
           end)
          (λ _, ret channels);
      loadChunks id (S i) remaining' channels
  end.

Definition getPlaylist (playlistId : option string) : M (option Playlist) :=
  tryCatch
    (id ← (if truthy playlistId then ret playlistId else getActivePlaylistId);
     if truthy id then
       let id := default "" id in
       metaStr ← getItem (metaKey id);
       match metaStr with
       | Some (SMeta meta) =>
           channels ← loadChunks id 0 (chunkCount meta) [];
           ret (Some {| pl_id := meta_id meta;
                        pl_name := meta_name meta;
                        pl_url := meta_url meta;
                        categories := meta_categories meta;
                        lastUpdated := meta_lastUpdated meta;
                        channels := channels |})
       | Some (SText "") | None => ret None
       | Some _ => throw parseFailure
       end
     else ret None)
    (λ _, ret None).

(** The keys [deletePlaylist] removes: the metadata key and the chunk keys
    [0 .. chunkCount - 1]. *)
Definition keysToRemove (playlistId : string) (chunkCount : nat)
  : list string :=
  metaKey playlistId :: (chunkKey playlistId <$> seq 0 chunkCount).

Definition deletePlaylist (playlistId : string) : M unit :=
  tryCatch
    (metaStr ← getItem (metaKey playlistId);
     match metaStr with
     | Some (SMeta meta) =>
         multiRemove (keysToRemove playlistId (chunkCount meta))
     | Some (SText "") | None => ret tt
     | Some _ => throw parseFailure
     end;;
     playlists ← getPlaylistList;
     let filtered := filter (λ p, info_id p ≠ playlistId) playlists in
     savePlaylistList filtered;;
     activeId ← getActivePlaylistId;
     if bool_decide (activeId = Some playlistId) then
       match filtered with
       | first :: _ => setActivePlaylistId (info_id first)
       | [] => removeItem ACTIVE_PLAYLIST_ID
       end
     else ret tt)
    (λ _, ret tt).

(** *** Vocabulary of the properties *)

(** A world with the store [m] and no failure to come. *)
Abbreviation calm m := {| kv := m; faults := [] |}.

(** What [getPlaylistList] reads in the store [m]. *)
Definition summaryOf (m : gmap string Stored) : list PlaylistInfo :=
  match m !! PLAYLISTS with
  | Some (SInfos playlists) => playlists
  | _ => []
  end.

(** What [getActivePlaylistId] reads in the store [m]. *)
Definition activeOf (m : gmap string Stored) : option string :=
  match m !! ACTIVE_PLAYLIST_ID with
  | Some (SText id) => Some id
  | _ => None
  end.

(** The store after the chunks [i .. i + n - 1] of [playlist] are written. *)
Fixpoint writeChunks (playlist : Playlist) (i n : nat) (m : gmap string Stored)
  : gmap string Stored :=
  match n with
  | 0 => m
  | S n' =>
      writeChunks playlist (S i) n'
        (<[chunkKey (pl_id playlist) i := SChunk (chunkOf playlist i)]> m)
  end.

(** The channels the chunk records [i .. i + n - 1] of [id] hold in [m]. *)
Fixpoint readChunks (id : string) (i n : nat) (m : gmap string Stored)
  : list Channel :=
  match n with
  | 0 => []
  | S n' =>
      match m !! chunkKey id i with
      | Some (SChunk chunk) => expandChannel <$> chunk
      | _ => []
      end ++ readChunks id (S i) n' m
  end.

(** The store after [savePlaylist] has run without a failure. *)
Definition savedStore (playlist : Playlist) (type : option PlaylistType)
           (xtreamCredentials : option XtreamCredentials)
           (m : gmap string Stored) : gmap string Stored :=
  let meta := metaOf playlist (default m3u type) xtreamCredentials in
  let m1 :=
    writeChunks playlist 0 (chunkCount meta)
      (<[metaKey (pl_id playlist) := SMeta meta]> m) in
  let playlistInfo :=
    infoOf playlist (default m3u type) xtreamCredentials meta in
  <[ACTIVE_PLAYLIST_ID := SText (pl_id playlist)]>
    (<[PLAYLISTS := SInfos (upsert playlistInfo (summaryOf m1))]> m1).

(** What [getPlaylist(id)] rebuilds from the store [m]. *)
Definition loadedFrom (id : string) (m : gmap string Stored) : option Playlist :=
  match m !! metaKey id with
  | Some (SMeta meta) =>
      Some {| pl_id := meta_id meta;
              pl_name := meta_name meta;
              pl_url := meta_url meta;
              categories := meta_categories meta;
              lastUpdated := meta_lastUpdated meta;
              channels := readChunks id 0 (chunkCount meta) m |}
  | _ => None
  end.

(** The store after the write of chunk [k] was rejected for lack of space
    and the rest of [savePlaylist] has run without a failure. *)
Definition truncatedStore (playlist : Playlist) (type : option PlaylistType)
           (xtreamCredentials : option XtreamCredentials) (k : nat)
           (m : gmap string Stored) : gmap string Stored :=
  let meta := metaOf playlist (default m3u type) xtreamCredentials in
  let m2 :=
    <[metaKey (pl_id playlist) := SMeta (truncatedMeta meta k)]>
      (writeChunks playlist 0 k
         (<[metaKey (pl_id playlist) := SMeta meta]> m)) in
  let playlistInfo :=
    infoOf playlist (default m3u type) xtreamCredentials
           (truncatedMeta meta k) in
  <[ACTIVE_PLAYLIST_ID := SText (pl_id playlist)]>
    (<[PLAYLISTS := SInfos (upsert playlistInfo (summaryOf m2))]> m2).

(** The summary list without the entries of [id]. *)
Definition withoutId (id : string) (playlists : list PlaylistInfo)
  : list PlaylistInfo :=
  filter (λ p, info_id p ≠ id) playlists.

(** The store after [deletePlaylist(id)] has found the metadata record
    [meta] and run without a failure. *)
Definition deletedStore (id : string) (meta : PlaylistMeta)
           (m : gmap string Stored) : gmap string Stored :=
  let m1 := foldr delete m (keysToRemove id (chunkCount meta)) in
  let filtered := withoutId id (summaryOf m1) in
  let m2 := <[PLAYLISTS := SInfos filtered]> m1 in
  if bool_decide (activeOf m2 = Some id) then
    match filtered with
    | first :: _ => <[ACTIVE_PLAYLIST_ID := SText (info_id first)]> m2
    | [] => delete ACTIVE_PLAYLIST_ID m2
    end
  else m2.

(** The entries of the summary list for [id]. *)
Definition entriesFor (id : string) (playlists : list PlaylistInfo)
  : list PlaylistInfo :=
  filter (λ p, info_id p = id) playlists.

(** The fields the minimized projection keeps agree. *)
Definition SameKeptFields (c c' : Channel) : Prop :=
  ch_id c' = ch_id c
  ∧ ch_name c' = ch_name c
  ∧ ch_url c' = ch_url c
  ∧ ch_group c' = ch_group c
  ∧ ch_logo c' = ch_logo c.

(** The same, but for the logo: an empty logo comes back absent. *)
Definition Reloaded (c c' : Channel) : Prop :=
  ch_id c' = ch_id c
  ∧ ch_name c' = ch_name c
  ∧ ch_url c' = ch_url c
  ∧ ch_group c' = ch_group c
  ∧ ch_logo c' = (if truthy (ch_logo c) then ch_logo c else None).

(** Saving [playlist] in [w] succeeds, and loading it afterwards returns a
    playlist with as many channels, in the same order, each related by [R]
    to the one saved. *)
Definition RoundTrip (R : Channel → Channel → Prop) (playlist : Playlist)
           (type : option PlaylistType)
           (xtreamCredentials : option XtreamCredentials) (w : World) : Prop :=
  ∃ w' w'' loaded,
    savePlaylist playlist type xtreamCredentials w = (Ok tt, w')
    ∧ getPlaylist (Some (pl_id playlist)) w' = (Ok (Some loaded), w'')
    ∧ Forall2 R (channels playlist) (channels loaded).

(** In [w] the metadata write and the chunk writes below [k] go through and
    the write of chunk [k] is rejected with the out-of-space error [e]. *)
Definition FailsAtChunk (k : nat) (e : Error) (w : World) : Prop :=
  take (S k) (faults w) = replicate (S k) None
  ∧ faults w !! S k = Some (Some e)
  ∧ isDiskFull e = true.

(** Saving [playlist] in [w] returns successfully with the playlist cut to
    its first [k] chunks: no chunk from [k] on is written, the metadata
    record counts [k] chunks and loading returns their channels. *)
Definition TruncatedAt (playlist : Playlist) (type : option PlaylistType)
           (xtreamCredentials : option XtreamCredentials) (k : nat)
           (w : World) : Prop :=
  ∃ w' meta w'' loaded,
    savePlaylist playlist type xtreamCredentials w = (Ok tt, w')
    ∧ (∀ j, k ≤ j →
           kv w' !! chunkKey (pl_id playlist) j
           = kv w !! chunkKey (pl_id playlist) j)
    ∧ kv w' !! metaKey (pl_id playlist) = Some (SMeta meta)
    ∧ chunkCount meta = k
    ∧ totalChannels meta = k * CHUNK_SIZE
    ∧ getPlaylist (Some (pl_id playlist)) w' = (Ok (Some loaded), w'')
    ∧ length (channels loaded) = k * CHUNK_SIZE.

(** The store holds chunk records for [id] at the indices below [n] and at
    no other index. *)
Definition ExactlyChunks (id : string) (n : nat) (m : gmap string Stored)
  : Prop :=
  ∀ j, is_Some (m !! chunkKey id j) ↔ j < n.

(** Two saves in a row, both returning successfully, lead from [w] to [w2]. *)
Definition SavedTwice (first second : Playlist) (w w2 : World) : Prop :=
  ∃ w1,
    savePlaylist first None None w = (Ok tt, w1)
    ∧ savePlaylist second None None w1 = (Ok tt, w2).

(** Saving [first] and then [second], of the same id, in [w]: both saves
    succeed; the summary list then holds one entry for the id, the metadata
    record counts the chunks of [second] and the chunk records below that
    count are those of [second]; the chunk records from that count on are as
    the first save left them, those of [first] among them. *)
Definition SecondSaveOver (first second : Playlist)
           (type1 type2 : option PlaylistType)
           (cred1 cred2 : option XtreamCredentials) (w : World) : Prop :=
  ∃ w1 w2 meta,
    savePlaylist first type1 cred1 w = (Ok tt, w1)
    ∧ savePlaylist second type2 cred2 w1 = (Ok tt, w2)
    ∧ length (entriesFor (pl_id first) (summaryOf (kv w2))) = 1
    ∧ kv w2 !! metaKey (pl_id first) = Some (SMeta meta)
    ∧ chunkCount meta = ceilDiv (length (channels second)) CHUNK_SIZE
    ∧ (∀ j, j < chunkCount meta →
           kv w2 !! chunkKey (pl_id first) j
           = Some (SChunk (chunkOf second j)))
    ∧ (∀ j, chunkCount meta ≤ j →
           kv w2 !! chunkKey (pl_id first) j
           = kv w1 !! chunkKey (pl_id first) j)
    ∧ (∀ j, chunkCount meta ≤ j
           < ceilDiv (length (channels first)) CHUNK_SIZE →
           kv w2 !! chunkKey (pl_id first) j
           = Some (SChunk (chunkOf first j))).

(** Saving [playlist] in [w] throws [e] once the write of chunk [k] has
    failed: no store call follows, the summary list and the active playlist
    id are as before, and so is every key but the metadata key and the chunk
    keys below [k]. *)
Definition Propagates (playlist : Playlist) (type : option PlaylistType)
           (xtreamCredentials : option XtreamCredentials) (k : nat)
           (e : Error) (w : World) : Prop :=
  ∃ w',
    savePlaylist playlist type xtreamCredentials w = (Throw e, w')
    ∧ faults w' = drop (S (S k)) (faults w)
    ∧ kv w' !! PLAYLISTS = kv w !! PLAYLISTS
    ∧ kv w' !! ACTIVE_PLAYLIST_ID = kv w !! ACTIVE_PLAYLIST_ID
    ∧ (∀ key,
         key ≠ metaKey (pl_id playlist) →
         (∀ j, j < k → key ≠ chunkKey (pl_id playlist) j) →
         kv w' !! key = kv w !! key).

(** No key of the store refers to [id]. *)
Definition NoKeyFor (id : string) (m : gmap string Stored) : Prop :=
  m !! metaKey id = None
  ∧ (∀ j, m !! chunkKey id j = None)
  ∧ entriesFor id (summaryOf m) = [].

(** From [m] to [m'], the active playlist moved away from [id] if it was
    [id]: to the first remaining summary entry, or to none. *)
Definition ActivePromoted (id : string) (m m' : gmap string Stored) : Prop :=
  if bool_decide (activeOf m = Some id) then
    match withoutId id (summaryOf m) with
    | first :: _ =>
        m' !! ACTIVE_PLAYLIST_ID = Some (SText (info_id first))
    | [] => m' !! ACTIVE_PLAYLIST_ID = None
    end
  else m' !! ACTIVE_PLAYLIST_ID = m !! ACTIVE_PLAYLIST_ID.

(** [deletePlaylist(id)] in [w], where the metadata record of [id] is
    [meta]: the metadata record, the chunk records below the chunk count of
    [meta] and the summary entries of [id] are removed, the chunk records
    from that count on stay, and the active playlist moves on. *)
Definition DeletedFrom (id : string) (meta : PlaylistMeta) (w : World) : Prop :=
  ∃ w',
    deletePlaylist id w = (Ok tt, w')
    ∧ kv w' !! metaKey id = None
    ∧ (∀ j, j < chunkCount meta → kv w' !! chunkKey id j = None)
    ∧ (∀ j, chunkCount meta ≤ j →
           kv w' !! chunkKey id j = kv w !! chunkKey id j)
    ∧ summaryOf (kv w') = withoutId id (summaryOf (kv w))
    ∧ entriesFor id (summaryOf (kv w')) = []
    ∧ ActivePromoted id (kv w) (kv w').

(** *** Renaming a playlist, clearing the store *)

(** [AsyncStorage.getAllKeys()] *)
Definition getAllKeys : M (list string) :=
  storageCall (λ m, ((map_to_list m).*1, m)).

Definition clearAllData : M unit :=
  tryCatch
    (allKeys ← getAllKeys;
     let prysmKeys :=
       filter (λ key : string,
                 startsWith key "prysm_" || startsWith key "iptv_") allKeys in
     if bool_decide (0 < length prysmKeys) then multiRemove prysmKeys
     else ret tt)
    (λ _, ret tt).

(** [meta] after [meta.name = name] and, for a [url] that is not
    [undefined], [meta.url = url]. *)
Definition renamedMeta (meta : PlaylistMeta) (name : string)
           (url : option string) : PlaylistMeta :=
  {| meta_id := meta_id meta;
     meta_name := name;
     meta_type := meta_type meta;
     meta_url := match url with Some _ => url | None => meta_url meta end;
     meta_xtreamCredentials := meta_xtreamCredentials meta;
     meta_categories := meta_categories meta;
     meta_lastUpdated := meta_lastUpdated meta;
     totalChannels := totalChannels meta;
     chunkCount := chunkCount meta |}.

(** The same two assignments on an entry of the summary list. *)
Definition renamedInfo (name : string) (url : option string)
           (p : PlaylistInfo) : PlaylistInfo :=
  {| info_id := info_id p;
     info_name := name;
     info_type := info_type p;
     info_url := match url with Some _ => url | None => info_url p end;
     info_xtreamCredentials := info_xtreamCredentials p;
     channelCount := channelCount p;
     info_lastUpdated := info_lastUpdated p |}.

Definition updatePlaylistInfo (playlistId name : string) (url : option string)
  : M unit :=
  tryCatch
    (metaStr ← getItem (metaKey playlistId);
     match metaStr with
     | Some (SMeta meta) =>
         setItem (metaKey playlistId) (SMeta (renamedMeta meta name url))
     | Some (SText "") | None => ret tt
     | Some _ => throw parseFailure
     end;;
     playlists ← getPlaylistList;
     match findIndex playlistId playlists with
     | Some playlistIndex =>
         savePlaylistList (alter (renamedInfo name url) playlistIndex playlists)
     | None => ret tt
     end)
    (λ error, throw error).

Definition clearPlaylist : M unit :=
  tryCatch
    (allKeys ← getAllKeys;
     let playlistKeys :=
       filter (λ key : string,
                 startsWith key PLAYLIST_META || startsWith key PLAYLIST_CHUNKS)
              allKeys in
     (if bool_decide (0 < length playlistKeys) then multiRemove playlistKeys
      else ret tt);;
     removeItem PLAYLISTS;;
     removeItem ACTIVE_PLAYLIST_ID)
    (λ _, ret tt).

(** *** Vocabulary of the further properties *)

(** The store after [deletePlaylist(id)] has found no metadata record and
    run without a failure. *)
Definition unlistedStore (id : string) (m : gmap string Stored)
  : gmap string Stored :=
  let filtered := withoutId id (summaryOf m) in
  let m2 := <[PLAYLISTS := SInfos filtered]> m in
  if bool_decide (activeOf m2 = Some id) then
    match filtered with
    | first :: _ => <[ACTIVE_PLAYLIST_ID := SText (info_id first)]> m2
    | [] => delete ACTIVE_PLAYLIST_ID m2
    end
  else m2.

(** The summary list with the first entry of [id] renamed. *)
Definition renamedList (id name : string) (url : option string)
           (l : list PlaylistInfo) : list PlaylistInfo :=
  match findIndex id l with
  | Some playlistIndex => alter (renamedInfo name url) playlistIndex l
  | None => l
  end.

(** The store after [updatePlaylistInfo] has found the metadata record
    [meta] and run without a failure. *)
Definition renamedStore (id name : string) (url : option string)
           (meta : PlaylistMeta) (m : gmap string Stored)
  : gmap string Stored :=
  let m1 := <[metaKey id := SMeta (renamedMeta meta name url)]> m in
  match findIndex id (summaryOf m1) with
  | Some playlistIndex =>
      <[PLAYLISTS :=
          SInfos (alter (renamedInfo name url) playlistIndex (summaryOf m1))]>
        m1
  | None => m1
  end.

(** [p] with the name and, if one is given, the url replaced. *)
Definition renamed (name : string) (url : option string) (p : Playlist)
  : Playlist :=
  {| pl_id := pl_id p;
     pl_name := name;
     pl_url := match url with Some _ => url | None => pl_url p end;
     channels := channels p;
     categories := categories p;
     lastUpdated := lastUpdated p |}.

(** [m'] is [m] without the keys that [doomed] holds of. *)
Definition without (doomed : string → bool) (m m' : gmap string Stored)
  : Prop :=
  ∀ key, m' !! key = if doomed key then None else m !! key.

(** [w'] differs from [w] at most in the records of the playlist [id]. *)
Definition OnlyRecordsOf (id : string) (w w' : World) : Prop :=
  ∀ key,
    key ≠ metaKey id → (∀ j, key ≠ chunkKey id j) →
    kv w' !! key = kv w !! key.

(** [e] is an error the store has ready in [w]. *)
Definition ErrorOfStore (e : Error) (w : World) : Prop :=
  ∃ k, faults w !! k = Some (Some e).

End Storage.


(** ** The lists of favourites and of recent channels
    ([client/lib/storage.ts], continued)

    These lists are arrays of strings.  They are kept in the store as the
    text [JSON.stringify] gives, an [SText], and read back with
    [JSON.parse].  The reader below covers the texts of arrays of strings;
    on any other text it fails, as [JSON.parse] does on a syntax error.  The
    program writes no other text under the keys of these lists. *)

Module JSON.
Import JS.

Definition backslash : ascii := "092"%char.

(** The hexadecimal digit of a number below 16, in lower case. *)
Definition hexDigit (n : N) : ascii :=
  if (n <? 10)%N then ascii_of_N (48 + n) else ascii_of_N (87 + n).

(** [QuoteJSONString] on one code unit. *)
Definition quoteChar (c : ascii) : string :=
  match c with
  | "008" => String backslash "b"
  | "009" => String backslash "t"
  | "010" => String backslash "n"
  | "012" => String backslash "f"
  | "013" => String backslash "r"
  | "034" => String backslash (String dquote "")
  | "092" => String backslash (String backslash "")
  | _ =>
      if (N_of_ascii c <? 32)%N then
        String backslash
          ("u00" +:+ String (hexDigit (N_of_ascii c / 16))
                            (String (hexDigit (N_of_ascii c mod 16)) ""))
      else String c ""
  end%char.

Fixpoint quoteChars (s : string) : string :=
  match s with
  | "" => ""
  | String c s' => quoteChar c +:+ quoteChars s'
  end.

Definition quote (s : string) : string :=
  String dquote (quoteChars s +:+ String dquote "").

(** [JSON.stringify] of an array of strings. *)
Definition stringify (l : list string) : string :=
  "[" +:+ join "," (quote <$> l) +:+ "]".

(** JSON white space. *)
Definition isSpace (c : ascii) : bool :=
  match c with
  | " " | "009" | "010" | "013" => true
  | _ => false
  end%char.

Definition hexValue (c : ascii) : option N :=
  if between 48 57 c then Some (N_of_ascii c - 48)%N
  else if between 97 102 c then Some (N_of_ascii c - 87)%N
  else if between 65 70 c then Some (N_of_ascii c - 55)%N
  else None.

(** Where the reader of an array of strings stands. *)
Inductive Place :=
| AtStart
    (* in front of the opening bracket *)
| AtFirst
    (* behind the opening bracket: a string or the closing bracket *)
| InString (cur : string)
| InEscape (cur : string)
    (* behind a backslash *)
| InHex (cur : string) (value : N) (more : nat)
    (* in the four digits of a unicode escape, [more] of them to come *)
| AtNext
    (* behind a string: a comma or the closing bracket *)
| AtString
    (* behind a comma: a string *)
| AtEnd.
    (* behind the closing bracket *)

(** The character an escape stands for. *)
Definition unescape (c : ascii) : option ascii :=
  match c with
  | "034" => Some "034"
  | "092" => Some "092"
  | "/" => Some "/"
  | "b" => Some "008"
  | "f" => Some "012"
  | "n" => Some "010"
  | "r" => Some "013"
  | "t" => Some "009"
  | _ => None
  end%char.

Definition step (place : Place) (items : list string) (c : ascii)
  : option (Place * list string) :=
  match place with
  | AtStart =>
      if isSpace c then Some (AtStart, items)
      else if bool_decide (c = "["%char) then Some (AtFirst, items)
      else None
  | AtFirst =>
      if isSpace c then Some (AtFirst, items)
      else if bool_decide (c = dquote) then Some (InString "", items)
      else if bool_decide (c = "]"%char) then Some (AtEnd, items)
      else None
  | InString cur =>
      if bool_decide (c = dquote) then Some (AtNext, items ++ [cur])
      else if bool_decide (c = backslash) then Some (InEscape cur, items)
      else if (N_of_ascii c <? 32)%N then None
      else Some (InString (cur +:+ String c ""), items)
  | InEscape cur =>
      if bool_decide (c = "u"%char) then Some (InHex cur 0 4, items)
      else match unescape c with
           | Some c' => Some (InString (cur +:+ String c' ""), items)
           | None => None
           end
  | InHex cur value more =>
      match hexValue c with
      | Some digit =>
          let value := (16 * value + digit)%N in
          match more with
          | 0 => None
          | 1 =>
              if (value <? 256)%N
              then Some (InString (cur +:+ String (ascii_of_N value) ""), items)
              else None
          | S more' => Some (InHex cur value more', items)
          end
      | None => None
      end
  | AtNext =>
      if isSpace c then Some (AtNext, items)
      else if bool_decide (c = ","%char) then Some (AtString, items)
      else if bool_decide (c = "]"%char) then Some (AtEnd, items)
      else None
  | AtString =>
      if isSpace c then Some (AtString, items)
      else if bool_decide (c = dquote) then Some (InString "", items)
      else None
  | AtEnd => if isSpace c then Some (AtEnd, items) else None
  end.

Fixpoint read (place : Place) (items : list string) (text : string)
  : option (list string) :=
  match text with
  | "" => match place with AtEnd => Some items | _ => None end
  | String c text' =>
      match step place items c with
      | Some (place', items') => read place' items' text'
      | None => None
      end
  end.

(** [JSON.parse] of the text of an array of strings; [None]: a syntax
    error, a text that is no array of strings, or one with a character
    above 255. *)
Definition parse (text : string) : option (list string) :=
  read AtStart [] text.

End JSON.

Module Prefs.
Import JS Storage.

Definition FAVORITES : string := "prysm_favorites".
Definition FAVORITE_CATEGORIES : string := "prysm_favorite_categories".
Definition RECENT : string := "prysm_recent".
Definition LAST_PLAYED : string := "prysm_last_played".

(** [data ? JSON.parse(data) : []] for a list of strings. *)
Definition parseList (data : option Stored) : M (list string) :=
  match data with
  | Some (SText "") | None => ret []
  | Some (SText text) =>
      match JSON.parse text with
      | Some parsed => ret parsed
      | None => throw parseFailure
      end
  | Some _ => throw parseFailure
  end.

Definition getFavorites : M (list string) :=
  tryCatch (data ← getItem FAVORITES; parseList data) (λ _, ret []).

Definition saveFavorites (favorites : list string) : M unit :=
  tryCatch (setItem FAVORITES (SText (JSON.stringify favorites)))
           (λ _, ret tt).

(** [arr.indexOf(x)] *)
Fixpoint indexOf (x : string) (arr : list string) : option nat :=
  match arr with
  | [] => None
  | y :: rest =>
      if bool_decide (y = x) then Some 0 else S <$> indexOf x rest
  end.

(** The list after [splice(index, 1)] if [x] is in it, after [push(x)] if
    not. *)
Definition toggled (x : string) (arr : list string) : list string :=
  match indexOf x arr with
  | Some index => delete index arr
  | None => arr ++ [x]
  end.

Definition toggleFavorite (channelId : string) : M (list string) :=
  favorites ← getFavorites;
  let favorites := toggled channelId favorites in
  saveFavorites favorites;;
  ret favorites.

Definition getRecentChannels : M (list string) :=
  tryCatch (data ← getItem RECENT; parseList data) (λ _, ret []).

Definition addRecentChannel (channelId : string) : M unit :=
  tryCatch
    (recent ← getRecentChannels;
     let recent := filter (λ id, id ≠ channelId) recent in
     let recent := channelId :: recent in
     let recent := take 20 recent in
     setItem RECENT (SText (JSON.stringify recent)))
    (λ _, ret tt).

Definition getLastPlayedChannel : M (option string) :=
  tryCatch
    (data ← getItem LAST_PLAYED;
     match data with
     | Some (SText channelId) => ret (Some channelId)
     | None => ret None
     | Some _ => throw parseFailure
     end)
    (λ _, ret None).

Definition setLastPlayedChannel (channelId : string) : M unit :=
  tryCatch (setItem LAST_PLAYED (SText channelId)) (λ _, ret tt).

Definition getFavoriteCategories : M (list string) :=
  tryCatch (data ← getItem FAVORITE_CATEGORIES; parseList data) (λ _, ret []).

Definition saveFavoriteCategories (categories : list string) : M unit :=
  tryCatch (setItem FAVORITE_CATEGORIES (SText (JSON.stringify categories)))
           (λ _, ret tt).

Definition toggleFavoriteCategory (category : string) : M (list string) :=
  categories ← getFavoriteCategories;
  let categories := toggled category categories in
  saveFavoriteCategories categories;;
  ret categories.

(** [addToRecent] of the playlist context; it returns the list it hands to
    [setRecentChannels]. *)
Definition addToRecent (channelId : string) : M (list string) :=
  addRecentChannel channelId;;
  setLastPlayedChannel channelId;;
  getRecentChannels.

(** *** Vocabulary *)

(** The store holds the list [arr] under [key]: as the text the program
    writes for it, or, for the empty list, not at all. *)
Definition HoldsList (key : string) (arr : list string)
           (m : gmap string Stored) : Prop :=
  m !! key = Some (SText (JSON.stringify arr)) ∨ (m !! key = None ∧ arr = []).

End Prefs.


(** ** The playlist context ([client/context/PlaylistContext.tsx]) and the
    screens that read it

    The React state the functions close over ([playlist], [recentChannels])
    is given as an argument. *)

Module Context.
Import JS.

(** [channelIndexMap]: a [Map] from ids to channels, filled in the order of
    the channels. *)
Definition channelIndexMap (playlist : option Playlist) : gmap string Channel :=
  match playlist with
  | None => ∅
  | Some playlist =>
      fold_left (λ map ch, <[ch_id ch := ch]> map) (channels playlist) ∅
  end.

(** One round of the loop of [categoryIndexMap]; [arr.push(ch)] extends the
    array the map holds. *)
Definition categoryIndexStep (map : gmap string (list Channel)) (ch : Channel)
  : gmap string (list Channel) :=
  let group := orElse (Some (ch_group ch)) "" in
  match map !! group with
  | Some arr => <[group := arr ++ [ch]]> map
  | None => <[group := [ch]]> map
  end.

Definition categoryIndexMap (playlist : option Playlist)
  : gmap string (list Channel) :=
  match playlist with
  | None => ∅
  | Some playlist => fold_left categoryIndexStep (channels playlist) ∅
  end.

Definition getChannelById (playlist : option Playlist) (id : string)
  : option Channel :=
  channelIndexMap playlist !! id.

Definition getChannelsByCategory (playlist : option Playlist)
           (category : string) : list Channel :=
  match playlist with
  | None => []
  | Some p =>
      if bool_decide (category = "All") then channels p
      else default [] (categoryIndexMap playlist !! category)
  end.

Definition searchChannels (playlist : option Playlist) (query : string)
  : list Channel :=
  match playlist with
  | None => []
  | Some p =>
      if negb (nonEmpty (trim query)) then []
      else
        let lowerQuery := toLowerCase query in
        filter (λ ch, includes (toLowerCase (ch_name ch)) lowerQuery
                      || includes (toLowerCase (ch_group ch)) lowerQuery)
               (channels p)
  end.

(** [filteredChannels] of the channel list screen. *)
Definition filteredChannels (playlist : option Playlist)
           (searchQuery selectedCategory : string) : list Channel :=
  match playlist with
  | None => []
  | Some p =>
      if nonEmpty (trim searchQuery) then searchChannels playlist searchQuery
      else if negb (bool_decide (selectedCategory = "All")) then
        filter (λ ch, ch_group ch = selectedCategory) (channels p)
      else channels p
  end.

(** [recentChannelObjects] of the player screen. *)
Definition recentChannelObjects (playlist : option Playlist)
           (recentChannels : list string) (channelId : string)
  : list Channel :=
  match playlist with
  | None => []
  | Some _ =>
      omap (getChannelById playlist)
           (take 4 (filter (λ id, id ≠ channelId) recentChannels))
  end.

End Context.

(** ** Inputs of the examples *)

Module Examples.
Import JS M3U HLS Storage.

Definition exampleIds (n : nat) : string := "id" +:+ pretty n.

Definition quoted (s : string) : string :=
  String dquote s +:+ String dquote "".

Definition unlines (lines : list string) : string := join (String LF "") lines.

(** Two entries, of the groups B and a. *)
Definition twoGroups : string :=
  unlines [ "#EXTM3U";
            "#EXTINF:-1 group-title=" +:+ quoted "B" +:+ ",One";
            "http://x/1";
            "#EXTINF:-1 group-title=" +:+ quoted "a" +:+ ",Two";
            "http://x/2" ].

(** An entry whose entry-info line ends in a comma. *)
Definition trailingComma : string :=
  unlines [ "#EXTINF:-1,Foo,"; "http://x/1" ].

(** The channel the parser makes of it. *)
Definition trailingCommaChannel : Channel :=
  {| ch_id := "id0"; ch_name := "Foo,"; ch_url := "http://x/1";
     ch_logo := None; ch_group := "Uncategorized"; tvgId := None;
     tvgName := None; ch_drm := None; ch_headers := None;
     isLive := Some true; ch_quality := None |}.

(** A variant of height 720. *)
Definition variant720 (bw : Z) (url : string) : HLSVariant :=
  {| bandwidth := bw;
     resolution := Some {| width := 1280%Z; height := 720%Z |};
     v_url := url; v_name := None |}.

(** A server that answers the next request with a one-line playlist. *)
Definition oneAnswer : Net :=
  {| upcoming := [FetchResponse true (Some "#EXTM3U")]; sent := [] |}.

(** A server that answers the next request with the two entries. *)
Definition twoGroupsAnswer : Net :=
  {| upcoming := [FetchResponse true (Some twoGroups)]; sent := [] |}.

(** *** Playlists and stores *)

Definition numbered (i : nat) (logo : option string) : Channel :=
  {| ch_id := "c" +:+ pretty i; ch_name := "News"; ch_url := "http://a/1";
     ch_logo := logo; ch_group := "Uncategorized"; tvgId := None;
     tvgName := None; ch_drm := None; ch_headers := None;
     isLive := Some true; ch_quality := None |}.

(** A playlist of [n] channels, all with the logo [logo]. *)
Definition playlistOf (n : nat) (logo : option string) : Playlist :=
  {| pl_id := "p"; pl_name := "My Playlist"; pl_url := None;
     channels := (λ i, numbered i logo) <$> seq 0 n;
     categories := ["Uncategorized"]; lastUpdated := 0 |}.

Definition emptyLogoPlaylist : Playlist := playlistOf 1 (Some "").

(** A playlist whose id is the empty string. *)
Definition noIdPlaylist : Playlist :=
  {| pl_id := ""; pl_name := "My Playlist"; pl_url := None;
     channels := [numbered 0 None];
     categories := ["Uncategorized"]; lastUpdated := 0 |}.
Definition bigPlaylist : Playlist := playlistOf 301 None.
Definition smallPlaylist : Playlist := playlistOf 1 None.

(** The out-of-space error of the store, and another error. *)
Definition diskFull : Error :=
  {| message := "database or disk is full"; code := Some 13%Z |}.
Definition ioError : Error := {| message := "I/O error"; code := None |}.

(** An empty store that rejects the first chunk write and the write after
    it for lack of space. *)
Definition fullFromChunk0 : World :=
  {| kv := ∅; faults := [None; Some diskFull; Some diskFull] |}.

(** An empty store that rejects the first chunk write for lack of space. *)
Definition fullAtChunk0 : World :=
  {| kv := ∅; faults := [None; Some diskFull] |}.

(** A store whose summary list holds two entries for the id "p". *)
Definition staleEntry : PlaylistInfo :=
  {| info_id := "p"; info_name := "Old"; info_type := m3u; info_url := None;
     info_xtreamCredentials := None; channelCount := 0;
     info_lastUpdated := 0 |}.

Definition duplicateStore : gmap string Stored :=
  {[ PLAYLISTS := SInfos [staleEntry; staleEntry] ]}.

(** The store after the big and then the small playlist were saved. *)
Definition savedBigThenSmall : gmap string Stored :=
  savedStore smallPlaylist None None (savedStore bigPlaylist None None ∅).

(** *** Further stores *)

(** A second playlist, of another id. *)
Definition otherPlaylist : Playlist :=
  {| pl_id := "q"; pl_name := "Other"; pl_url := Some "http://b/list.m3u";
     channels := [numbered 7 None];
     categories := ["Uncategorized"]; lastUpdated := 1 |}.

(** The store after the small playlist was saved. *)
Definition savedSmall : gmap string Stored :=
  savedStore smallPlaylist None None ∅.

(** The small playlist as it is loaded again. *)
Definition reloadedSmall : Playlist :=
  {| pl_id := "p"; pl_name := "My Playlist"; pl_url := None;
     channels := expandChannel <$> (minimizeChannel <$> channels smallPlaylist);
     categories := ["Uncategorized"]; lastUpdated := 0 |}.

(** The world a save leaves behind when the store is full from the first
    chunk on. *)
Definition failedSave : World :=
  (savePlaylist smallPlaylist None None fullFromChunk0).2.

(** *** Further playlist texts *)

(** An entry whose name carries a quality. *)
Definition qualityEntry : string :=
  unlines [ "#EXTINF:-1,News 720p"; "http://x/1" ].

(** The channel the parser makes of it. *)
Definition qualityChannel : Channel :=
  {| ch_id := "id0"; ch_name := "News 720p"; ch_url := "http://x/1";
     ch_logo := None; ch_group := "Uncategorized"; tvgId := None;
     tvgName := None; ch_drm := None; ch_headers := None;
     isLive := Some true; ch_quality := Some "720P" |}.

(** The playlist parsed from the two entries, and its first channel. *)
Definition twoGroupsPlaylist : Playlist :=
  parseM3U hostCollation exampleIds 0 twoGroups None.

Definition firstOfTwo : Channel :=
  {| ch_id := "id0"; ch_name := "One"; ch_url := "http://x/1";
     ch_logo := None; ch_group := "B"; tvgId := None;
     tvgName := None; ch_drm := None; ch_headers := None;
     isLive := Some true; ch_quality := None |}.

(** *** Lists in the store *)

(** A store with two favourites, two favourite categories and two recent
    channels. *)
Definition listsStore : gmap string Stored :=
  {[ Prefs.FAVORITES := SText (JSON.stringify ["c1"; "c2"]);
     Prefs.FAVORITE_CATEGORIES := SText (JSON.stringify ["News"; "Sport"]);
     Prefs.RECENT := SText (JSON.stringify ["c2"; "c1"]) ]}.

End Examples.


(** * Properties *)

(** ** Sorting *)

Section SortFacts.
Import JS.
Context {A : Type} (cmp : A → A → Z) (R : relation A).
Hypothesis before : ∀ x y, (0 < cmp y x)%Z → R x y.
Hypothesis behind : ∀ x y, ¬ (0 < cmp y x)%Z → R y x.
Hypothesis R_trans : Transitive R.

Lemma insertSorted_perm (x : A) (l : list A) : insertSorted cmp x l ≡ₚ x :: l.
Proof.
  induction l as [|y l IH]; simpl; [done|].
  destruct (Z.ltb_spec 0 (cmp y x)); [done|].
  rewrite IH. apply Permutation_swap.
Qed.

Lemma sort_perm_from (l acc : list A) :
  fold_left (λ acc x, insertSorted cmp x acc) l acc ≡ₚ acc ++ l.
Proof.
  revert acc. induction l as [|x l IH]; intros acc; simpl.
  - by rewrite app_nil_r.
  - rewrite IH, insertSorted_perm. simpl. apply Permutation_middle.
Qed.

Lemma sort_perm (l : list A) : sort cmp l ≡ₚ l.
Proof. apply (sort_perm_from l []). Qed.

Lemma insertSorted_sorted (x : A) (l : list A) :
  StronglySorted R l → StronglySorted R (insertSorted cmp x l).
Proof.
  induction 1 as [|y l Hs IH Hall]; simpl.
  - repeat constructor.
  - destruct (Z.ltb_spec 0 (cmp y x)) as [Hlt|Hge].
    + constructor; [by constructor|].
      constructor; [by apply before|].
      eapply Forall_impl; [exact Hall|]. intros z Hz.
      etrans; [by apply before|done].
    + constructor; [done|].
      rewrite insertSorted_perm. constructor; [|done].
      apply behind. lia.
Qed.

Lemma sort_sorted (l : list A) : StronglySorted R (sort cmp l).
Proof.
  unfold sort. generalize (SSorted_nil R). generalize (@nil A) as acc.
  induction l as [|x l IH]; intros acc Hacc; simpl; [done|].
  apply IH. by apply insertSorted_sorted.
Qed.
End SortFacts.

(** ** String comparison *)

Section CompareFacts.
Import JS.

Lemma compare_refl (a : string) : String.compare a a = Eq.
Proof.
  pose proof (String.compare_antisym a a) as H.
  by destruct (String.compare a a).
Qed.

Lemma compare_le (a b : string) : String.compare a b ≠ Gt ↔ String.le a b.
Proof.
  unfold String.le, String.leb. destruct (String.compare a b); naive_solver.
Qed.

Lemma compare_lt (a b : string) :
  String.compare a b = Lt ↔ String.le a b ∧ a ≠ b.
Proof.
  rewrite <-compare_le. split.
  - intros H. split; [congruence|]. intros ->. by rewrite compare_refl in H.
  - intros [H1 H2]. destruct (String.compare a b) eqn:E; try done.
    by apply String.compare_eq_iff in E.
Qed.

Lemma compare_lt_trans (a b c : string) :
  String.compare a b = Lt → String.compare b c = Lt → String.compare a c = Lt.
Proof.
  rewrite !compare_lt. intros [Hab Hne] [Hbc Hne']. split; [by etrans|].
  intros ->. apply Hne. by apply (anti_symm String.le).
Qed.

Lemma codeUnitCompare_consistent : Consistent codeUnitCompare.
Proof.
  unfold codeUnitCompare. split.
  - intros a b. rewrite (String.compare_antisym a b).
    by destruct (String.compare b a).
  - intros a b c.
    destruct (String.compare a b) eqn:E1; [| |done];
    destruct (String.compare b c) eqn:E2; try done; intros _ _.
    + apply String.compare_eq_iff in E1 as ->. by rewrite E2.
    + apply String.compare_eq_iff in E1 as ->. by rewrite E2.
    + apply String.compare_eq_iff in E2 as ->. by rewrite E1.
    + by rewrite (compare_lt_trans _ _ _ E1 E2).
Qed.

Lemma hostCollation_consistent : Consistent hostCollation.
Proof.
  unfold hostCollation. split.
  - intros a b.
    rewrite (String.compare_antisym (toLowerCase a)).
    rewrite (String.compare_antisym (mapChars swapCaseChar a)).
    destruct (String.compare (toLowerCase b) (toLowerCase a)); simpl; try done.
    by destruct (String.compare _ _).
  - intros a b c.
    destruct (String.compare (toLowerCase a) (toLowerCase b)) eqn:E1;
      [| |done];
    destruct (String.compare (toLowerCase b) (toLowerCase c)) eqn:E2;
      try done.
    + apply String.compare_eq_iff in E1 as ->. rewrite E2.
      apply (consistent_trans _ codeUnitCompare_consistent).
    + apply String.compare_eq_iff in E1 as ->. by rewrite E2.
    + apply String.compare_eq_iff in E2 as <-. by rewrite E1.
    + by rewrite (compare_lt_trans _ _ _ E1 E2).
Qed.
End CompareFacts.

(** ** The playlist text parser *)

Section StringFacts.
Import JS M3U.

Lemma nonEmpty_true (s : string) : nonEmpty s = true ↔ s ≠ "".
Proof. destruct s; naive_solver. Qed.

Lemma truthy_Some (o : option string) :
  truthy o = true → ∃ s, o = Some s ∧ s ≠ "" ∧ orElse o "Unknown Channel" = s.
Proof.
  destruct o as [s|]; [|done]. simpl. intros H. exists s.
  rewrite H. by apply nonEmpty_true in H.
Qed.

Lemma setAdd_nodup (x : string) (s : list string) :
  NoDup s → NoDup (setAdd x s).
Proof.
  intros Hnd. unfold setAdd. case_bool_decide as Hin; [done|].
  apply NoDup_app. split_and!; [done| |apply NoDup_singleton].
  by intros y Hy ->%list_elem_of_singleton.
Qed.

Lemma setAdd_elem (x y : string) (s : list string) :
  y ∈ setAdd x s ↔ y ∈ s ∨ y = x.
Proof.
  unfold setAdd. case_bool_decide as Hin.
  - split; [by left|]. by intros [?| ->].
  - by rewrite elem_of_app, list_elem_of_singleton.
Qed.

Lemma noLineTerminator_app (a b : string) :
  noLineTerminator (a +:+ b) = noLineTerminator a && noLineTerminator b.
Proof.
  induction a as [|c a IH]; [done|].
  change (String c a +:+ b) with (String c (a +:+ b)). simpl.
  by rewrite IH, andb_assoc.
Qed.

Lemma matchName_first_comma (line raw : string) :
  matchName line = Some raw → BehindFirstComma line raw.
Proof.
  induction line as [|c line IH]; [done|]. simpl.
  destruct (bool_decide (c = ","%char) && nonEmpty line
            && noLineTerminator line) eqn:Hguard.
  - intros [= ->].
    apply andb_prop in Hguard as [[Hc%bool_decide_eq_true Hne%nonEmpty_true]%andb_prop Hnl].
    subst c. exists "". split_and!; [done..|].
    by intros [|??] ?.
  - intros (pre & -> & Hne & Hnl & Hfirst)%IH.
    exists (String c pre). split_and!; [done..|].
    intros [|c1 pre1] rest1.
    + intros [= -> ->]. rewrite bool_decide_eq_true_2 in Hguard by done.
      rewrite noLineTerminator_app in Hguard. simpl in Hguard.
      rewrite Hnl, !andb_true_r in Hguard.
      destruct (noLineTerminator rest1); [|done].
      by destruct rest1.
    + intros [= -> ->]. by eapply Hfirst.
Qed.

Lemma includes_nonEmpty (s p : string) :
  includes s p = true → nonEmpty p = true → nonEmpty s = true.
Proof. destruct s, p; naive_solver. Qed.

Lemma orElse_nonEmpty (o : option string) (d : string) :
  d ≠ "" → orElse o d ≠ "".
Proof.
  intros Hd. destruct o as [s|]; [|done]. simpl.
  destruct (nonEmpty s) eqn:Hs; [|done]. by apply nonEmpty_true.
Qed.

(** Upper case of what a case-insensitive literal matched. *)
Lemma startsWithCI_upper (s tok : string) :
  startsWithCI s tok = true →
  toUpperCase (takeChars (String.length tok) s) = toUpperCase tok.
Proof.
  revert s. induction tok as [|a tok IH]; intros s; [by destruct s|].
  destruct s as [|b s]; [done|]. simpl.
  intros [Hab%bool_decide_eq_true Htok]%andb_prop.
  unfold toUpperCase in *. simpl. by rewrite Hab, IH.
Qed.

Lemma tokenAt_upper (s tok m : string) :
  tokenAt s tok = Some m → toUpperCase m = toUpperCase tok.
Proof.
  unfold tokenAt. destruct (startsWithCI s tok) eqn:Htok; [|done].
  intros Hm. apply startsWithCI_upper in Htok.
  destruct (dropChars _ _) as [|c ?]; [by injection Hm as <-|].
  destruct (isWordChar c); [done|]. by injection Hm as <-.
Qed.

Lemma firstToken_upper (s m : string) (toks : list string) :
  firstToken s toks = Some m → toUpperCase m ∈ toUpperCase <$> toks.
Proof.
  induction toks as [|t toks IH]; [done|]. simpl.
  destruct (tokenAt s t) as [m'|] eqn:Htok.
  - intros [= ->]. apply tokenAt_upper in Htok as ->. left.
  - intros ?%IH. by right.
Qed.

Lemma matchQualityFrom_cons (prevWord : bool) (c : ascii) (line : string) :
  matchQualityFrom prevWord (String c line)
  = match (if prevWord then None
           else firstToken (String c line) qualityTokens) with
    | Some m => Some m
    | None => matchQualityFrom (isWordChar c) line
    end.
Proof. done. Qed.

Lemma matchQuality_label (line m : string) :
  matchQuality line = Some m → toUpperCase m ∈ qualityLabels.
Proof.
  unfold matchQuality. generalize false.
  induction line as [|c line IH]; intros prevWord.
  - by destruct prevWord.
  - rewrite matchQualityFrom_cons. destruct prevWord; [apply IH|].
    destruct (firstToken (String c line) qualityTokens) as [m'|] eqn:Htok;
      [|apply IH].
    intros [= ->]. by apply firstToken_upper in Htok.
Qed.

Lemma scanLine_found (st : DRMScan) (line : string) :
  foundDRM (scanLine st line)
  = foundDRM st || includes line licenseTypeProp
    || includes line licenseKeyProp
  ∧ foundHeaders (scanLine st line)
    = foundHeaders st || includes line userAgentOpt
      || includes line referrerOpt.
Proof.
  unfold scanLine, licenseTypeProp, licenseKeyProp, userAgentOpt, referrerOpt.
  destruct (includes line "#KODIPROP:inputstream.adaptive.license_type=");
    destruct (includes line "#KODIPROP:inputstream.adaptive.license_key=");
    destruct (includes line "#EXTVLCOPT:http-user-agent=");
    destruct (includes line "#EXTVLCOPT:http-referrer=");
    cbn [foundDRM foundHeaders];
    by rewrite ?orb_true_r, ?orb_false_r.
Qed.

Lemma scanLines_found (window : list string) (st : DRMScan) :
  (foundDRM (fold_left scanLine window st) = false
   ↔ foundDRM st = false
     ∧ ∀ line, line ∈ window →
         includes line licenseTypeProp = false
         ∧ includes line licenseKeyProp = false)
  ∧ (foundHeaders (fold_left scanLine window st) = false
     ↔ foundHeaders st = false
       ∧ ∀ line, line ∈ window →
           includes line userAgentOpt = false
           ∧ includes line referrerOpt = false).
Proof.
  revert st. induction window as [|line window IH]; intros st.
  - simpl. split; (split; [intros ?; split; [done|by intros ? ?%elem_of_nil]|by intros [? _]]).
  - simpl. destruct (IH (scanLine st line)) as [IHd IHh].
    destruct (scanLine_found st line) as [Hd Hh].
    rewrite IHd, IHh, Hd, Hh, !orb_false_iff.
    split; (split;
      [intros [[[? ?] ?] Hrest]; split; [done|];
       by intros l [->|?]%elem_of_cons; [|apply Hrest]
      |intros [? Hall]; split;
         [split; [split; [done|]|]; apply (Hall line); left
         |intros l ?; apply Hall; by right]]).
Qed.

Lemma elem_of_window (lines : list string) (i : nat) (line : string) :
  line ∈ take (i - (i - 5)) (drop (i - 5) lines) ↔ readByParseDRM lines i line.
Proof.
  unfold readByParseDRM. rewrite list_elem_of_lookup. split.
  - intros [k Hk]. apply lookup_take_Some in Hk as [Hk Hlt].
    rewrite lookup_drop in Hk. exists (i - 5 + k). split; [lia|done].
  - intros (j & Hj & Hline). exists (j - (i - 5)).
    apply lookup_take_Some. split; [|lia].
    rewrite lookup_drop. by replace (i - 5 + (j - (i - 5))) with j by lia.
Qed.

Lemma lacks_cons (a c : ascii) (s : string) :
  lacks a (String c s) ↔ a ≠ c ∧ lacks a s.
Proof.
  unfold lacks. simpl.
  assert (startsWith s "" = true) as -> by (by destruct s).
  rewrite orb_false_iff, andb_true_r. by rewrite bool_decide_eq_false.
Qed.

Lemma split_lacks (sep : ascii) (s : string) :
  lacks sep s → split sep s = [s].
Proof.
  induction s as [|c s IH]; [done|].
  intros [Hc Hs]%lacks_cons. simpl.
  rewrite bool_decide_false by done. by rewrite IH.
Qed.

Lemma split_behind_last (sep : ascii) (front back : string) :
  lacks sep back →
  ∃ parts, parts ≠ []
           ∧ split sep (front +:+ String sep back) = parts ++ [back].
Proof.
  intros Hback. induction front as [|c front (parts & Hne & IH)].
  - exists [""]. split; [done|]. simpl.
    rewrite bool_decide_true by done. by rewrite split_lacks.
  - change (String c front +:+ String sep back)
      with (String c (front +:+ String sep back)).
    simpl. rewrite IH. case_bool_decide.
    + exists ("" :: parts). by split.
    + destruct parts as [|w parts]; [done|]. exists (String c w :: parts).
      by split.
Qed.

Lemma split_first (sep : ascii) (front back : string) :
  lacks sep front →
  head (split sep (front +:+ String sep back)) = Some front.
Proof.
  induction front as [|c front IH].
  - intros _. simpl. by rewrite bool_decide_true.
  - intros [Hc Hs]%lacks_cons.
    change (String c front +:+ String sep back)
      with (String c (front +:+ String sep back)).
    simpl. rewrite bool_decide_false by done.
    specialize (IH Hs). by destruct (split sep _) as [|w ws]; simplify_eq/=.
Qed.

Lemma append_assoc (a b c : string) : (a +:+ b) +:+ c = a +:+ b +:+ c.
Proof.
  induction a as [|x a IH]; [done|].
  change (String x ((a +:+ b) +:+ c) = String x (a +:+ b +:+ c)).
  by rewrite IH.
Qed.

Lemma startsWith_refl (s : string) : startsWith s s = true.
Proof. induction s; [done|]. simpl. by rewrite bool_decide_true. Qed.

Lemma dropChars_all (s : string) : dropChars (String.length s) s = "".
Proof. by induction s. Qed.

Lemma replace_lacks (a : ascii) (s pat rep : string) :
  lacks a s → replace s (String a pat) rep = s.
Proof.
  induction s as [|c s IH]; [done|].
  intros [Hc Hs]%lacks_cons. simpl.
  rewrite bool_decide_false by done. simpl. by rewrite IH.
Qed.

Lemma replace_suffix (a : ascii) (s pat : string) :
  lacks a s → replace (s +:+ String a pat) (String a pat) "" = s.
Proof.
  induction s as [|c s IH].
  - intros _.
    change ("" +:+ String a pat) with (String a pat).
    cbn [replace]. rewrite startsWith_refl. by rewrite dropChars_all.
  - intros [Hc Hs]%lacks_cons.
    change (String c s +:+ String a pat) with (String c (s +:+ String a pat)).
    simpl. rewrite bool_decide_false by done. simpl. by rewrite IH.
Qed.

End StringFacts.

Section ParserFacts.
Import JS M3U.
Variable localeCompare : string → string → Z.
Variable generateId : nat → string.
Variable now : Z.

Abbreviation scanStep := (scanStep generateId).
Abbreviation scanFrom := (scanFrom generateId).
Abbreviation parseM3U := (parseM3U localeCompare generateId now).

Lemma scanStep_inv (lines : list string) (n : nat) (line : string) (st : Scan) :
  lines !! n = Some line →
  ScanInv lines n st → ScanInv lines (S n) (scanStep lines st n line).
Proof.
  intros Hline [Hem Hpend Hnd Hgr]. unfold scanStep.
  destruct (startsWith line "#EXTINF:") eqn:Hext.
  - split; simpl; [done| |done|done].
    intros _. exists n, line. split_and!; [lia|done|done|done|].
    intros k l ?. lia.
  - destruct (nonEmpty line && negb (startsWith line "#")
              && truthy (p_name (currentChannel st))) eqn:Hurl.
    + apply andb_prop in Hurl as [[Hne Hhash]%andb_prop Hname].
      destruct (parseDRM lines n) as [drm headers].
      destruct (Hpend Hname) as (i & extinf & Hi & Hli & Hexti & Hcur & Hskip).
      split; simpl.
      * intros c [Hc| ->%list_elem_of_singleton]%elem_of_app; [by apply Hem|].
        destruct (truthy_Some _ Hname) as (nm & Hnm & Hnm' & Hor).
        rewrite Hcur in Hnm. simpl in Hnm.
        destruct (matchName extinf) as [raw|] eqn:Hraw; [|done].
        simpl in Hnm. injection Hnm as <-.
        exists i, n, extinf, raw. simpl. rewrite Hor.
        split_and!; [done..|by apply matchName_first_comma|done|done].
      * done.
      * by apply setAdd_nodup.
      * intros g. rewrite setAdd_elem, fmap_app, elem_of_app, Hgr.
        simpl. rewrite list_elem_of_singleton. done.
    + split; [done| |done|done].
      intros Hname. destruct (Hpend Hname) as (i & extinf & Hi & Hli & Hexti & Hcur & Hskip).
      exists i, extinf. split_and!; [lia|done|done|done|].
      intros k l Hk Hl.
      destruct (decide (k = n)) as [->|]; [|apply (Hskip k); [lia|done]].
      assert (l = line) as -> by congruence.
      rewrite Hname, andb_true_r in Hurl. split; [done|].
      destruct line; [by left|right].
      simpl in Hurl. by apply negb_false_iff in Hurl.
Qed.

Lemma scanFrom_inv (lines pre rest : list string) (st : Scan) :
  lines = pre ++ rest →
  ScanInv lines (length pre) st →
  ScanInv lines (length lines) (scanFrom lines (length pre) rest st).
Proof.
  revert pre st. induction rest as [|line rest IH]; intros pre st -> Hinv; simpl.
  - by rewrite app_nil_r in *.
  - specialize (IH (pre ++ [line]) (scanStep (pre ++ line :: rest) st (length pre) line)).
    rewrite length_app in IH. simpl in IH. rewrite Nat.add_1_r in IH.
    apply IH; [by rewrite <-app_assoc|].
    apply scanStep_inv; [|done].
    by rewrite list_lookup_middle.
Qed.

Lemma initialScan_inv (lines : list string) : ScanInv lines 0 initialScan.
Proof.
  split; simpl; [|done|constructor|].
  - intros c Hc. by apply elem_of_nil in Hc.
  - intros g. done.
Qed.

Lemma parse_inv (content : string) :
  ScanInv (linesOf content) (length (linesOf content))
          (scanFrom (linesOf content) 0 (linesOf content) initialScan).
Proof. apply (scanFrom_inv _ []); [done|apply initialScan_inv]. Qed.

Lemma categoryLe_before (a b : string) :
  Consistent localeCompare →
  (0 < categoryCompare localeCompare b a)%Z → categoryLe localeCompare a b.
Proof.
  intros Hc. unfold categoryCompare, categoryLe.
  repeat case_bool_decide; [by left|lia|].
  intros Hlt%(consistent_flip _ Hc). right. split; [done|lia].
Qed.

Lemma categoryLe_behind (a b : string) :
  ¬ (0 < categoryCompare localeCompare b a)%Z → categoryLe localeCompare b a.
Proof.
  unfold categoryCompare, categoryLe.
  repeat case_bool_decide; [lia|by left|].
  intros Hge. right. split; [done|lia].
Qed.

Lemma categoryLe_trans : Consistent localeCompare → Transitive (categoryLe localeCompare).
Proof.
  intros Hc a b c [->|[Ha Hab]] [->|[Hb Hbc]]; try by left.
  right. split; [done|]. by eapply (consistent_trans _ Hc).
Qed.

Lemma sorted_last_unique (l pre post : list string) :
  NoDup l → StronglySorted (categoryLe localeCompare) l →
  l = pre ++ "Uncategorized" :: post → post = [].
Proof.
  intros Hnd Hs ->. destruct post as [|x post]; [done|exfalso].
  apply StronglySorted_app_1_r in Hs.
  apply StronglySorted_inv in Hs as [_ Hall].
  apply Forall_cons in Hall as [[->|[? _]] _]; [|done].
  apply NoDup_app in Hnd as (_ & _ & Hnd).
  apply NoDup_cons in Hnd as [Hnd _]. apply Hnd. left.
Qed.

(** Claim C4, amended.  For every input text, the categories of
    [parseM3U(text)] are exactly the distinct group values of its channels,
    without duplicates, sorted so that "Uncategorized" is last and the other
    names stand in the order of [localeCompare], the host's collation, of
    which only consistency is known. *)
Theorem categories_sorted_distinct (content : string) (name : option string) :
  Consistent localeCompare →
  CategoriesSortedBy localeCompare (parseM3U content name)
  ∧ (∀ pre post,
       categories (parseM3U content name) = pre ++ "Uncategorized" :: post →
       post = []).
Proof.
  intros Hc. destruct (parse_inv content) as [_ _ Hnd Hgr].
  assert (CategoriesSortedBy localeCompare (parseM3U content name)) as H.
  { unfold CategoriesSortedBy. simpl. split; [|split].
    - by rewrite sort_perm.
    - intros g. by rewrite sort_perm.
    - apply sort_sorted.
      + intros x y. by apply categoryLe_before.
      + apply categoryLe_behind.
      + by apply categoryLe_trans. }
  split; [done|]. destruct H as (Hn & _ & Hs).
  intros pre post. by apply sorted_last_unique.
Qed.

(** Claim C9, amended.  Every channel [parseM3U] emits has a non-empty
    name, the trimmed text behind the first comma of its entry-info line that
    no line terminator separates from the end of the line: a URL line becomes
    a channel only for a pending entry-info line with such a name, the
    "Unknown Channel" fallback is never taken, and when no entry-info line
    has such a name no channel is emitted, whatever URL lines follow. *)
Theorem channel_names_from_extinf (content : string) (name : option string) :
  (∀ c, c ∈ channels (parseM3U content name) →
        EmittedFor (linesOf content) c)
  ∧ ((∀ line raw,
        line ∈ linesOf content → startsWith line "#EXTINF:" = true →
        ¬ BehindFirstComma line raw) →
     channels (parseM3U content name) = []).
Proof.
  assert (∀ c, c ∈ channels (parseM3U content name) →
               EmittedFor (linesOf content) c) as Hem.
  { intros c Hc. by apply (inv_emitted _ _ _ (parse_inv content)). }
  split; [done|]. intros Hnone.
  destruct (channels (parseM3U content name)) as [|c l] eqn:Hch; [done|].
  destruct (Hem c) as (i & j & extinf & raw & _ & Hi & Hext & _ & _ & Hraw & _);
    [left|].
  destruct (Hnone extinf raw); [|done..].
  by eapply list_elem_of_lookup_2.
Qed.

(** *** The ids *)

Lemma scanStep_ids (lines : list string) (st : Scan) (i : nat) (line : string) :
  ch_id <$> sc_channels st = generateId <$> seq 0 (idsUsed st) →
  ch_id <$> sc_channels (scanStep lines st i line)
  = generateId <$> seq 0 (idsUsed (scanStep lines st i line)).
Proof.
  intros Hids. unfold M3U.scanStep.
  destruct (startsWith line "#EXTINF:"); [done|].
  destruct (_ && _); [|done].
  destruct (parseDRM lines i) as [drm headers]. cbn [sc_channels idsUsed].
  by rewrite fmap_app, Hids, seq_S, fmap_app.
Qed.

Lemma scanFrom_ids (lines rest : list string) (i : nat) (st : Scan) :
  ch_id <$> sc_channels st = generateId <$> seq 0 (idsUsed st) →
  ch_id <$> sc_channels (scanFrom lines i rest st)
  = generateId <$> seq 0 (idsUsed (scanFrom lines i rest st)).
Proof.
  revert i st. induction rest as [|line rest IH]; intros i st Hids; [done|].
  simpl. by apply IH, scanStep_ids.
Qed.

Lemma parse_ids (content : string) (name : option string) :
  let p := parseM3U content name in
  ch_id <$> channels p = generateId <$> seq 0 (length (channels p))
  ∧ pl_id p = generateId (length (channels p)).
Proof.
  pose proof (scanFrom_ids (linesOf content) (linesOf content) 0 initialScan
                eq_refl) as Hids.
  simpl. set (st := scanFrom _ _ _ _) in *.
  assert (idsUsed st = length (sc_channels st)) as Hlen.
  { apply (f_equal length) in Hids.
    by rewrite !length_fmap, length_seq in Hids. }
  by rewrite <-Hlen.
Qed.

(** Property X1.  When the id generator never returns the same id twice, the
    ids of the channels of a parsed playlist are pairwise distinct, and
    distinct from the id of the playlist. *)
Theorem ids_are_distinct (content : string) (name : option string) :
  Inj (=) (=) generateId →
  let p := parseM3U content name in
  NoDup (pl_id p :: (ch_id <$> channels p)).
Proof.
  intros Hinj p. destruct (parse_ids content name) as [Hids Hid].
  fold p in Hids, Hid. rewrite Hids, Hid.
  change (generateId (length (channels p))
            :: (generateId <$> seq 0 (length (channels p))))
    with (generateId <$> (length (channels p) :: seq 0 (length (channels p)))).
  apply NoDup_fmap_2; [done|].
  apply NoDup_cons. split; [|apply NoDup_seq].
  rewrite elem_of_seq. lia.
Qed.

(** *** Where the fields of a channel come from *)

Lemma scanStep_built (lines : list string) (n : nat) (line : string)
      (st : Scan) :
  lines !! n = Some line →
  ScanInv lines n st →
  Forall (λ c, BuiltFrom lines c ∧ Playable c) (sc_channels st) →
  Forall (λ c, BuiltFrom lines c ∧ Playable c)
         (sc_channels (scanStep lines st n line)).
Proof.
  intros Hline [_ Hpend _ _] Hbuilt. unfold M3U.scanStep.
  destruct (startsWith line "#EXTINF:") eqn:Hext; [done|].
  destruct (nonEmpty line && negb (startsWith line "#")
            && truthy (p_name (currentChannel st))) eqn:Hurl; [|done].
  apply andb_prop in Hurl as [[Hne Hhash]%andb_prop Hname].
  destruct (parseDRM lines n) as [drm headers] eqn:Hdrm.
  destruct (Hpend Hname) as (i & extinf & Hi & Hli & Hexti & Hcur & _).
  cbn [sc_channels]. apply Forall_app. split; [done|].
  apply Forall_singleton. rewrite Hcur. split.
  - exists i, n, extinf. by split_and!.
  - split_and!; simpl.
    + by apply orElse_nonEmpty.
    + by apply nonEmpty_true.
    + by apply negb_true_iff.
Qed.

Lemma scanFrom_built (lines pre rest : list string) (st : Scan) :
  lines = pre ++ rest →
  ScanInv lines (length pre) st →
  Forall (λ c, BuiltFrom lines c ∧ Playable c) (sc_channels st) →
  Forall (λ c, BuiltFrom lines c ∧ Playable c)
         (sc_channels (scanFrom lines (length pre) rest st)).
Proof.
  revert pre st.
  induction rest as [|line rest IH]; intros pre st -> Hinv Hbuilt; [done|].
  assert ((pre ++ line :: rest) !! length pre = Some line) as Hline
    by (by rewrite list_lookup_middle).
  simpl.
  specialize (IH (pre ++ [line])
                 (scanStep (pre ++ line :: rest) st (length pre) line)).
  rewrite length_app in IH. simpl in IH. rewrite Nat.add_1_r in IH.
  apply IH; [by rewrite <-app_assoc| |].
  - by apply scanStep_inv.
  - by apply scanStep_built.
Qed.

Lemma parse_built (content : string) (name : option string) :
  Forall (λ c, BuiltFrom (linesOf content) c ∧ Playable c)
         (channels (parseM3U content name)).
Proof.
  apply (scanFrom_built _ []); [done|apply initialScan_inv|constructor].
Qed.

(** Property X2.  Every channel takes its group, logo, guide id, guide name and
    quality from the entry-info line in front of its URL line, and its DRM
    information and headers from what [parseDRM] reads in front of the URL
    line; it is flagged live, its group is never empty ("Uncategorized" stands
    in for a missing or empty group title) and its URL is a line that is
    neither empty nor a comment. *)
Theorem channel_fields_from_entry (content : string) (name : option string)
        (c : Channel) :
  c ∈ channels (parseM3U content name) →
  BuiltFrom (linesOf content) c ∧ Playable c.
Proof.
  intros Hc. by apply (proj1 (Forall_forall _ _) (parse_built content name)).
Qed.

(** Property X3.  The quality of a channel, when it has one, is one of nine
    labels: the alternatives of the quality pattern in upper case, so that
    720p is recorded as 720P. *)
Theorem channel_quality_is_a_label (content : string) (name : option string)
        (c : Channel) (q : string) :
  c ∈ channels (parseM3U content name) →
  ch_quality c = Some q →
  q ∈ qualityLabels.
Proof.
  intros Hc Hq.
  apply (proj1 (Forall_forall _ _) (parse_built content name)) in Hc
    as [(i & j & extinf & _ & _ & _ & _ & _ & _ & _ & _ & Hquality & _) _].
  rewrite Hq in Hquality.
  destruct (matchQuality extinf) as [m|] eqn:Hm; [|done].
  injection Hquality as ->. by apply (matchQuality_label extinf).
Qed.

(** *** One channel for an entry *)

Lemma scanStep_count (lines : list string) (st : Scan) (i : nat)
      (line : string) :
  length (sc_channels (scanStep lines st i line))
  + pendingEntries (scanStep lines st i line)
  ≤ length (sc_channels st) + pendingEntries st
    + length (entryLines [line]).
Proof.
  unfold M3U.scanStep, entryLines, pendingEntries.
  destruct (startsWith line "#EXTINF:") eqn:Hext.
  - rewrite (filter_cons_True _ line []) by (by apply Is_true_true).
    cbn [sc_channels currentChannel length]. repeat case_match; lia.
  - rewrite (filter_cons_False _ line [])
      by (intros ?%Is_true_true; congruence).
    destruct (nonEmpty line && negb (startsWith line "#")
              && truthy (p_name (currentChannel st))) eqn:Hurl.
    + apply andb_prop in Hurl as [_ ->].
      destruct (parseDRM lines i) as [drm headers].
      cbn [sc_channels currentChannel]. rewrite length_app. simpl. lia.
    + simpl. lia.
Qed.

Lemma scanFrom_count (lines rest : list string) (i : nat) (st : Scan) :
  length (sc_channels (scanFrom lines i rest st))
  + pendingEntries (scanFrom lines i rest st)
  ≤ length (sc_channels st) + pendingEntries st + length (entryLines rest).
Proof.
  revert i st. induction rest as [|line rest IH]; intros i st.
  - simpl. unfold entryLines. simpl. lia.
  - simpl. etrans; [apply IH|].
    pose proof (scanStep_count lines st i line) as Hstep.
    change (line :: rest) with ([line] ++ rest).
    unfold entryLines in *. rewrite filter_app, length_app. lia.
Qed.

(** Property X4.  A playlist has at most as many channels as its text has
    entry-info lines: an entry gives one channel at most, and a URL line
    without a pending entry gives none. *)
Theorem one_channel_per_entry (content : string) (name : option string) :
  length (channels (parseM3U content name))
  ≤ length (entryLines (linesOf content)).
Proof.
  pose proof (scanFrom_count (linesOf content) (linesOf content) 0 initialScan)
    as Hcount.
  cbn [channels M3U.parseM3U]. unfold pendingEntries in Hcount.
  cbn [currentChannel initialScan sc_channels p_name emptyPartial truthy length] in Hcount.
  repeat case_match; lia.
Qed.

(** *** The lines in front of a URL line *)

(** Property X5.  [parseDRM] depends on the five lines in front of the URL
    line, or on fewer at the head of the text: it returns DRM information
    exactly when one of them includes a license type or license key property,
    and headers exactly when one of them includes a user agent or referrer
    option. *)
Theorem parseDRM_reads_five_lines (lines : list string) (i : nat) :
  ((parseDRM lines i).1 = None
   ↔ ∀ line, readByParseDRM lines i line →
       includes line licenseTypeProp = false
       ∧ includes line licenseKeyProp = false)
  ∧ ((parseDRM lines i).2 = None
     ↔ ∀ line, readByParseDRM lines i line →
         includes line userAgentOpt = false
         ∧ includes line referrerOpt = false).
Proof.
  unfold parseDRM. cbn [fst snd].
  set (st0 := {| s_type := None; s_licenseServer := None; s_headers := ∅;
                 foundDRM := false; foundHeaders := false |}).
  destruct (scanLines_found (take (i - (i - 5)) (drop (i - 5) lines)) st0)
    as [Hd Hh].
  set (st := fold_left scanLine _ st0) in *.
  split.
  - destruct (foundDRM st).
    + split; [done|]. intros Hnone. exfalso.
      assert (true = false) as Habsurd; [|done]. apply Hd. split; [done|].
      intros line ?%elem_of_window. by apply Hnone.
    + split; [|done]. intros _ line ?%elem_of_window.
      by apply (proj1 Hd).
  - destruct (foundHeaders st).
    + split; [done|]. intros Hnone. exfalso.
      assert (true = false) as Habsurd; [|done]. apply Hh. split; [done|].
      intros line ?%elem_of_window. by apply Hnone.
    + split; [|done]. intros _ line ?%elem_of_window.
      by apply (proj1 Hh).
Qed.

End ParserFacts.

Section ParserExamples.
Import JS M3U Examples.

Lemma categories_sorted_distinct_witness :
  Consistent hostCollation
  ∧ CategoriesSortedBy hostCollation
      (parseM3U hostCollation exampleIds 0 twoGroups None)
  ∧ (∀ pre post,
       categories (parseM3U hostCollation exampleIds 0 twoGroups None)
       = pre ++ "Uncategorized" :: post →
       post = []).
Proof.
  split; [exact hostCollation_consistent|].
  exact (categories_sorted_distinct hostCollation exampleIds 0 twoGroups None
           hostCollation_consistent).
Defined.

(** Claim C4 as stated fails: under a collation that orders the letters
    before their case, the groups B and a are returned as a, B, which is not
    the case-sensitive lexicographic order, where B comes first. *)
Lemma categories_not_code_unit_sorted :
  categories (parseM3U hostCollation exampleIds 0 twoGroups None) = ["a"; "B"]
  ∧ ¬ CategoriesSortedBy codeUnitCompare
        (parseM3U hostCollation exampleIds 0 twoGroups None).
Proof.
  split; [by vm_compute|]. intros (_ & _ & Hs).
  assert (categories (parseM3U hostCollation exampleIds 0 twoGroups None)
          = ["a"; "B"]) as Heq by (by vm_compute).
  rewrite Heq in Hs.
  apply StronglySorted_inv in Hs as [_ Hall].
  apply Forall_cons in Hall as [[?|[_ Hle]] _]; [done|].
  vm_compute in Hle. by apply Hle.
Qed.

Lemma channel_names_from_extinf_witness :
  trailingCommaChannel
    ∈ channels (parseM3U hostCollation exampleIds 0 trailingComma None)
  ∧ EmittedFor (linesOf trailingComma) trailingCommaChannel.
Proof.
  assert (trailingCommaChannel
            ∈ channels (parseM3U hostCollation exampleIds 0 trailingComma None))
    as Hin by (vm_compute; left).
  split; [exact Hin|].
  exact (proj1 (channel_names_from_extinf hostCollation exampleIds 0
                  trailingComma None) trailingCommaChannel Hin).
Defined.

(** Claim C9 as stated fails: an entry-info line that ends in a comma has
    nothing behind its last comma, and yet the URL line behind it becomes a
    channel, named by the text behind the first comma. *)
Lemma channel_without_name_after_last_comma :
  channels (parseM3U hostCollation exampleIds 0 trailingComma None)
  = [trailingCommaChannel]
  ∧ ¬ NamedAfterLastComma trailingComma
        (parseM3U hostCollation exampleIds 0 trailingComma None).
Proof.
  split; [by vm_compute|]. intros H.
  destruct (H trailingCommaChannel) as (line & Hin & Hext & Hname).
  { vm_compute. left. }
  vm_compute in Hin.
  apply elem_of_cons in Hin as [->|Hin]; [by vm_compute in Hname|].
  apply elem_of_cons in Hin as [->|Hin]; [by vm_compute in Hext|].
  by apply elem_of_nil in Hin.
Qed.
Lemma exampleIds_inj : Inj (=) (=) exampleIds.
Proof.
  intros i j Heq. unfold exampleIds in Heq.
  apply String.app_inj in Heq. by apply (inj pretty) in Heq.
Qed.

Lemma ids_are_distinct_witness :
  NoDup (pl_id (parseM3U hostCollation exampleIds 0 twoGroups None)
         :: (ch_id <$> channels (parseM3U hostCollation exampleIds 0 twoGroups
                                   None))).
Proof.
  exact (ids_are_distinct hostCollation exampleIds 0 twoGroups None
           exampleIds_inj).
Defined.

Lemma channel_fields_from_entry_witness :
  trailingCommaChannel
    ∈ channels (parseM3U hostCollation exampleIds 0 trailingComma None)
  ∧ BuiltFrom (linesOf trailingComma) trailingCommaChannel
  ∧ Playable trailingCommaChannel.
Proof.
  assert (trailingCommaChannel
            ∈ channels (parseM3U hostCollation exampleIds 0 trailingComma None))
    as Hin by (vm_compute; left).
  split; [exact Hin|].
  exact (channel_fields_from_entry hostCollation exampleIds 0 trailingComma
           None trailingCommaChannel Hin).
Defined.

Lemma channel_quality_is_a_label_witness :
  qualityChannel
    ∈ channels (parseM3U hostCollation exampleIds 0 qualityEntry None)
  ∧ ch_quality qualityChannel = Some "720P"
  ∧ "720P" ∈ qualityLabels.
Proof.
  assert (qualityChannel
            ∈ channels (parseM3U hostCollation exampleIds 0 qualityEntry None))
    as Hin by (vm_compute; left).
  split; [exact Hin|]. split; [reflexivity|].
  exact (channel_quality_is_a_label hostCollation exampleIds 0 qualityEntry
           None qualityChannel "720P" Hin eq_refl).
Defined.

End ParserExamples.

(** ** Fetching a playlist *)

Section FetchFacts.
Import JS M3U.
Variable localeCompare : string → string → Z.
Variable generateId : nat → string.
Variable now : Z.

Abbreviation parseM3U := (parseM3U localeCompare generateId now).
Abbreviation fetchAndParseM3U := (fetchAndParseM3U localeCompare generateId now).

(** Claim C7.  [fetchAndParseM3U(url)] sends one request and takes one
    outcome of the network, without a retry; it returns a playlist if and
    only if that outcome is a successful response whose body includes
    "#EXTM3U" or "#EXTINF".  The playlist it then returns is the one
    [parseM3U] makes of that body: with its id, channels, categories and
    time stamp, named by the file name of the URL, or "Remote Playlist" for
    an empty file name, and with the URL as its origin.  In every other case
    it throws the one fetch-failure error, whose message says that the server
    may be blocking requests or require authentication. *)
Theorem fetchAndParseM3U_outcome (url : string) (net : Net) :
  let result := fetchAndParseM3U url net in
  sent result.2
    = sent net ++ [{| req_url := url;
                      req_headers := [("User-Agent", PRYSM_USER_AGENT);
                                      ("Accept", "*/*")] |}]
  ∧ upcoming result.2 = tail (upcoming net)
  ∧ ((∃ playlist, result.1 = inl playlist) ↔ Accepted (nextOutcome net))
  ∧ (∀ body,
       nextOutcome net = FetchResponse true (Some body) →
       includes body "#EXTM3U" = true ∨ includes body "#EXTINF" = true →
       let playlistName := orElse (Some (fileNameOf url)) "Remote Playlist" in
       let parsed := parseM3U body (Some playlistName) in
       result.1 = inl {| pl_id := pl_id parsed;
                         pl_name := playlistName;
                         pl_url := Some url;
                         channels := channels parsed;
                         categories := categories parsed;
                         lastUpdated := lastUpdated parsed |})
  ∧ (¬ Accepted (nextOutcome net) → result.1 = inr fetchFailure)
  ∧ message fetchFailure
    = "Could not fetch playlist. The server may be blocking requests or require specific app authentication.".
Proof.
  unfold M3U.fetchAndParseM3U, fetchPlaylistContent, fetch, Accepted.
  cbn [fst snd sent upcoming].
  destruct (nextOutcome net) as [|[] [body|]]; cbn [truthy fst snd];
    try (split_and!; [done..| |done|done|done];
         split; [by intros [? ?]|intros (? & ? & ?); congruence]).
  destruct (includes body "#EXTM3U" || includes body "#EXTINF") eqn:Hmark.
  - assert (nonEmpty body = true) as Hbody.
    { apply orb_prop in Hmark as [H|H]; by eapply includes_nonEmpty. }
    cbn [truthy fst snd default]. rewrite Hbody.
    apply orb_prop in Hmark.
    split_and!; [done|done| | |by intros []; eauto|done].
    + split; [|by eauto]. intros _. by eauto.
    + by intros ? [= <-] _.
  - apply orb_false_elim in Hmark as [H1 H2]. cbn [truthy fst snd].
    split_and!; [done|done| | |done|done].
    + split; [by intros [? ?]|]. intros (? & [= <-] & [?|?]); congruence.
    + intros ? [= <-] [?|?]; congruence.
Qed.
(** Property X6.  For a URL whose last path segment is a name followed by
    ".m3u", the name holding no slash, question mark or dot, the playlist is
    named by that name, with or without a query string behind the extension. *)
Theorem fileNameOf_m3u (dir name query : string) :
  lacks "/" name → lacks "?" name → lacks "." name →
  lacks "/" query →
  fileNameOf (dir +:+ "/" +:+ name +:+ ".m3u") = name
  ∧ fileNameOf (dir +:+ "/" +:+ name +:+ ".m3u?" +:+ query) = name.
Proof.
  intros Hslash Hquestion Hdot Hquery. unfold fileNameOf, lastOr.
  assert (lacks "/" (name +:+ ".m3u")) as Hslash1.
  { clear -Hslash. induction name as [|c name IH]; [done|].
    apply lacks_cons in Hslash as [? ?]. apply lacks_cons. auto. }
  assert (lacks "/" (name +:+ ".m3u?" +:+ query)) as Hslash2.
  { clear -Hslash Hquery. induction name as [|c name IH].
    - change ("" +:+ ".m3u?" +:+ query) with (".m3u?" +:+ query).
      by repeat (apply lacks_cons; split; [done|]).
    - apply lacks_cons in Hslash as [? ?]. apply lacks_cons. auto. }
  assert (lacks "?" (name +:+ ".m3u")) as Hquestion1.
  { clear -Hquestion. induction name as [|c name IH]; [done|].
    apply lacks_cons in Hquestion as [? ?]. apply lacks_cons. auto. }
  change (dir +:+ "/" +:+ name +:+ ".m3u")
    with (dir +:+ String "/" (name +:+ ".m3u")).
  change (dir +:+ "/" +:+ name +:+ ".m3u?" +:+ query)
    with (dir +:+ String "/" (name +:+ ".m3u?" +:+ query)).
  split.
  - destruct (split_behind_last "/" dir (name +:+ ".m3u") Hslash1)
      as (parts & _ & ->).
    rewrite List.last_last, split_lacks by done. simpl.
    rewrite (replace_suffix "." name "m3u") by done.
    by apply replace_lacks.
  - destruct (split_behind_last "/" dir (name +:+ ".m3u?" +:+ query) Hslash2)
      as (parts & _ & ->).
    rewrite List.last_last.
    replace (name +:+ ".m3u?" +:+ query)
      with ((name +:+ ".m3u") +:+ String "?" query)
      by (by rewrite append_assoc).
    rewrite split_first by done. simpl.
    rewrite (replace_suffix "." name "m3u") by done.
    by apply replace_lacks.
Qed.

End FetchFacts.

Section FetchExamples.
Import JS M3U Examples.

(** Claim C8, at the input where the code departs from it.  For the URL
    http://host/tv/channels.m3u8 and a successful fetch, the playlist is
    named "channels8" and not "channels": [replace(".m3u", "")] runs first
    and leaves the 8 behind, so [replace(".m3u8", "")] finds nothing.  The
    origin URL is stamped as claimed. *)
Lemma m3u8_extension_left_in_name :
  ∃ playlist,
    (fetchAndParseM3U hostCollation exampleIds 0
       "http://host/tv/channels.m3u8" oneAnswer).1 = inl playlist
    ∧ pl_name playlist = "channels8"
    ∧ pl_url playlist = Some "http://host/tv/channels.m3u8".
Proof. eexists. split; [by vm_compute|]. by vm_compute. Qed.

(** The instance of claim C7 for a server that answers with the two
    entries: the playlist holds their channels and groups, is named by the
    file name and carries the URL. *)
Lemma fetchAndParseM3U_outcome_witness :
  ∃ playlist,
    (fetchAndParseM3U hostCollation exampleIds 0
       "http://host/tv/list.m3u" twoGroupsAnswer).1 = inl playlist
    ∧ ch_name <$> channels playlist = ["One"; "Two"]
    ∧ ch_url <$> channels playlist = ["http://x/1"; "http://x/2"]
    ∧ categories playlist = ["a"; "B"]
    ∧ pl_name playlist = "list"
    ∧ pl_url playlist = Some "http://host/tv/list.m3u".
Proof.
  destruct (fetchAndParseM3U_outcome hostCollation exampleIds 0
              "http://host/tv/list.m3u" twoGroupsAnswer)
    as (_ & _ & _ & Hparsed & _).
  eexists. split.
  - exact (Hparsed twoGroups eq_refl (or_introl eq_refl)).
  - vm_compute. repeat split.
Defined.
Lemma fileNameOf_m3u_witness :
  fileNameOf "http://host/tv/channels.m3u" = "channels"
  ∧ fileNameOf "http://host/tv/channels.m3u?token=1" = "channels".
Proof.
  apply (fileNameOf_m3u "http://host/tv" "channels" "token=1"); reflexivity.
Defined.

End FetchExamples.

(** ** The quality variant resolver *)

Section HLSFacts.
Import JS HLS.
Local Open Scope Z_scope.

Lemma findResolution_None (key : string) (acc : list VideoQuality) :
  findResolution key acc = None ↔ key ∉ q_resolution <$> acc.
Proof.
  induction acc as [|q acc IH]; simpl.
  - split; [intros _ []%elem_of_nil|done].
  - case_bool_decide as Hq.
    + split; [done|]. intros []. subst. left.
    + rewrite not_elem_of_cons, <-IH.
      destruct (findResolution key acc) as [[]|]; simpl; split; try done.
      by intros [_ ?].
Qed.

Lemma findResolution_Some (key : string) (acc : list VideoQuality) i q :
  findResolution key acc = Some (i, q) →
  acc !! i = Some q ∧ q_resolution q = key.
Proof.
  revert i. induction acc as [|q' acc IH]; intros i; simpl; [done|].
  case_bool_decide as Hq.
  - by intros [= <- <-].
  - destruct (findResolution key acc) as [[i' q'']|]; [|done].
    intros [= <- <-]. by apply IH.
Qed.

Lemma dedupStep_inv (done rest acc : list VideoQuality) (q : VideoQuality) :
  Forall (λ q, is_Some (bitrate q)) (done ++ q :: rest) →
  StronglySorted descending (done ++ q :: rest) →
  DedupInv done acc →
  DedupInv (done ++ [q]) (dedupStep acc q).
Proof.
  intros Hsome Hsorted [Hnd Hsub Hcov]. unfold dedupStep.
  destruct (findResolution (q_resolution q) acc) as [[i e]|] eqn:Hfind.
  - apply findResolution_Some in Hfind as [Hi He].
    assert (e ∈ done) as Hedone.
    { eapply sublist_submseteq, elem_of_submseteq in Hsub; [done|].
      by eapply list_elem_of_lookup_2. }
    assert (bitrateOf q ≤ bitrateOf e) as Hle.
    { eapply (StronglySorted_app_1_elem_of _ _ _ e q) in Hsorted; [done..|left]. }
    assert (gtNum (bitrate q) (bitrate e) = false) as ->.
    { unfold bitrateOf in Hle. 
      destruct (bitrate q), (bitrate e); simpl in *; try done. lia. }
    rewrite andb_false_r. split; [done|by apply sublist_inserts_r|].
    intros q0 [Hq0| ->%list_elem_of_singleton]%elem_of_app.
    + by apply Hcov.
    + exists e. split_and!; [by eapply list_elem_of_lookup_2|done..].
  - apply findResolution_None in Hfind. split.
    + rewrite fmap_app. apply NoDup_app. split_and!; [done| |apply NoDup_singleton].
      by intros k Hk ->%list_elem_of_singleton.
    + by apply sublist_app.
    + intros q0 [Hq0| ->%list_elem_of_singleton]%elem_of_app.
      * destruct (Hcov q0 Hq0) as (q' & ? & ? & ?). exists q'.
        split_and!; [|done..]. apply elem_of_app. by left.
      * exists q. split_and!; [|done..]. apply elem_of_app. right. left.
Qed.

Lemma dedup_inv (done rest acc : list VideoQuality) :
  Forall (λ q, is_Some (bitrate q)) (done ++ rest) →
  StronglySorted descending (done ++ rest) →
  DedupInv done acc →
  DedupInv (done ++ rest) (fold_left dedupStep rest acc).
Proof.
  revert done acc. induction rest as [|q rest IH]; intros done acc Hs Hd Hinv; simpl.
  - rewrite app_nil_r. by destruct Hinv.
  - replace (done ++ q :: rest) with ((done ++ [q]) ++ rest) in *
      by (by rewrite <-app_assoc).
    apply IH; [done..|].
    apply (dedupStep_inv done rest); [| |done]; by rewrite <-app_assoc in *.
Qed.

Lemma StronglySorted_sublist {A} (R : relation A) (l k : list A) :
  sublist l k → StronglySorted R k → StronglySorted R l.
Proof.
  induction 1 as [|x l k Hsub IH|x l k Hsub IH]; intros Hs.
  - done.
  - apply StronglySorted_inv in Hs as [Hs Hall]. constructor; [by apply IH|].
    apply Forall_forall. intros y Hy. rewrite Forall_forall in Hall.
    apply Hall. eapply elem_of_submseteq; [done|]. by apply sublist_submseteq.
  - apply StronglySorted_inv in Hs as [Hs _]. by apply IH.
Qed.

Lemma sortedVariants_perm (variants : list HLSVariant) :
  sortedVariants variants ≡ₚ variants.
Proof. apply sort_perm. Qed.

Lemma sortedVariants_sorted (variants : list HLSVariant) :
  StronglySorted (λ a b, bandwidth b ≤ bandwidth a) (sortedVariants variants).
Proof.
  apply sort_sorted.
  - intros x y. lia.
  - intros x y. lia.
  - intros x y z. lia.
Qed.

Lemma qualities_descending (variants : list HLSVariant) :
  StronglySorted descending (toQuality <$> sortedVariants variants).
Proof.
  eapply StronglySorted_fmap; [|apply sortedVariants_sorted].
  by intros a b.
Qed.

Lemma uniqueQualities_unfold (variants : list HLSVariant) :
  uniqueQualities variants
  = fold_left dedupStep (toQuality <$> sortedVariants variants) [].
Proof. by destruct variants. Qed.

Lemma uniqueQualities_inv (variants : list HLSVariant) :
  DedupInv (toQuality <$> sortedVariants variants) (uniqueQualities variants).
Proof.
  rewrite uniqueQualities_unfold.
  pose proof (dedup_inv [] (toQuality <$> sortedVariants variants) []) as H.
  simpl in H. apply H; clear H.
  - apply Forall_fmap, Forall_forall. intros v _. by eexists.
  - apply qualities_descending.
  - split; [constructor|constructor|]. by intros q []%elem_of_nil.
Qed.

(** Claim C6.  The qualities [parseHLSManifest] returns hold each
    resolution key once, in descending bitrate, as a sublist of the sorted
    variants' qualities; for every variant the entry of its key has a bitrate
    at least as high.  Two variants that both map to "720p", with the
    bandwidths 2,000,000 and 2,500,000, give the single entry of bitrate
    2,500,000. *)
Theorem uniqueQualities_dedup (variants : list HLSVariant) :
  let qualities := uniqueQualities variants in
  NoDup (q_resolution <$> qualities)
  ∧ StronglySorted descending qualities
  ∧ sublist qualities (toQuality <$> sortedVariants variants)
  ∧ (∀ v, v ∈ variants →
       ∃ q, q ∈ qualities
            ∧ q_resolution q = q_resolution (toQuality v)
            ∧ bandwidth v ≤ bitrateOf q)
  ∧ (∀ v1 v2,
       variants = [v1; v2] ∨ variants = [v2; v1] →
       q_resolution (toQuality v1) = "720p" →
       q_resolution (toQuality v2) = "720p" →
       bandwidth v1 = 2000000 →
       bandwidth v2 = 2500000 →
       qualities = [toQuality v2] ∧ bitrate (toQuality v2) = Some 2500000).
Proof.
  destruct (uniqueQualities_inv variants) as [Hnd Hsub Hcov]. simpl.
  split_and!; [done| |done| |].
  - eapply StronglySorted_sublist; [done|]. apply qualities_descending.
  - intros v Hv. apply (Hcov (toQuality v)).
    apply list_elem_of_fmap. exists v. split; [done|].
    by rewrite sortedVariants_perm.
  - intros v1 v2 Hvs Hk1 Hk2 Hb1 Hb2. split; [|by simpl; rewrite Hb2].
    destruct Hvs as [-> | ->]; unfold uniqueQualities, sortedVariants, sort; simpl;
      rewrite Hb1, Hb2; simpl; unfold dedupStep; simpl;
      rewrite Hk1, Hk2; simpl; by rewrite Hb1, Hb2.
Qed.
(** *** The best quality *)

Lemma dedupStep_head (q0 q : VideoQuality) (acc : list VideoQuality) :
  is_Some (bitrate q0) →
  bitrateOf q ≤ bitrateOf q0 →
  ∃ acc', dedupStep (q0 :: acc) q = q0 :: acc'.
Proof.
  intros [b0 Hb0] Hle. unfold dedupStep. cbn [findResolution].
  case_bool_decide as Hkey.
  - cbn [fst snd]. unfold bitrateOf in Hle. rewrite Hb0 in *. simpl in Hle.
    destruct (bitrate q) as [b|]; simpl in *.
    + assert ((b0 <? b) = false) as -> by lia.
      rewrite andb_false_r. by eexists.
    + by eexists.
  - destruct (findResolution (q_resolution q) acc) as [[i q']|]; simpl.
    + destruct (_ && _); by eexists.
    + by eexists.
Qed.

Lemma dedup_head (q0 : VideoQuality) (qs acc : list VideoQuality) :
  is_Some (bitrate q0) →
  Forall (λ q, bitrateOf q ≤ bitrateOf q0) qs →
  ∃ acc', fold_left dedupStep qs (q0 :: acc) = q0 :: acc'.
Proof.
  intros Hb0 Hqs. revert acc.
  induction Hqs as [|q qs Hq _ IH]; intros acc; [by eexists|]. simpl.
  destruct (dedupStep_head q0 q acc Hb0 Hq) as [acc' ->]. apply IH.
Qed.

(** Property X7.  The first quality returned is the one of a variant of the
    highest bandwidth, with that variant's URL, and there are at most as many
    qualities as variants. *)
Theorem best_quality_first (variants : list HLSVariant) :
  variants ≠ [] →
  ∃ v rest,
    v ∈ variants
    ∧ uniqueQualities variants = toQuality v :: rest
    ∧ (∀ v', v' ∈ variants → bandwidth v' ≤ bandwidth v)
    ∧ (length (uniqueQualities variants) ≤ length variants)%nat.
Proof.
  intros Hne.
  assert (length (uniqueQualities variants) ≤ length variants)%nat as Hlen.
  { destruct (uniqueQualities_inv variants) as [_ Hsub _].
    apply sublist_length in Hsub.
    by rewrite length_fmap, sortedVariants_perm in Hsub. }
  pose proof (sortedVariants_perm variants) as Hperm.
  pose proof (sortedVariants_sorted variants) as Hsorted.
  destruct (sortedVariants variants) as [|v sorted] eqn:Hs.
  { apply Permutation_nil_l in Hperm. by destruct Hne. }
  apply StronglySorted_inv in Hsorted as [_ Hbelow].
  destruct (dedup_head (toQuality v) (toQuality <$> sorted) [])
    as [rest Hrest]; [by eexists| |].
  { apply Forall_fmap. eapply Forall_impl; [exact Hbelow|]. by intros v'. }
  exists v, rest. split_and!.
  - rewrite <-Hperm. left.
  - rewrite uniqueQualities_unfold, Hs. exact Hrest.
  - intros v' Hv'. rewrite <-Hperm in Hv'.
    apply elem_of_cons in Hv' as [->|Hv']; [done|].
    by apply (proj1 (Forall_forall _ _) Hbelow).
  - done.
Qed.

(** *** Telling a stream by its URL *)

Lemma startsWith_prefix (s p : string) :
  startsWith s p = true ↔ ∃ back, s = p +:+ back.
Proof.
  revert s. induction p as [|a p IH]; intros s.
  - split; [by exists s|by destruct s].
  - destruct s as [|b s]; simpl.
    + split; [done|]. by intros [back [=]].
    + rewrite andb_true_iff, bool_decide_eq_true, IH. split.
      * intros [-> [back ->]]. by exists back.
      * intros [back [= -> ->]]. split; [done|]. by exists back.
Qed.

Lemma includes_infix (s p : string) :
  includes s p = true ↔ ∃ front back, s = front +:+ p +:+ back.
Proof.
  induction s as [|c s IH].
  - cbn [includes]. rewrite orb_false_r, startsWith_prefix. split.
    + intros [back ->]. by exists "", back.
    + intros ([|??] & back & Heq); [by exists back|done].
  - cbn [includes]. rewrite orb_true_iff, startsWith_prefix, IH. split.
    + intros [[back ->]|(front & back & ->)].
      * by exists "", back.
      * by exists (String c front), back.
    + intros ([|c' front] & back & Heq).
      * left. by exists back.
      * injection Heq as <- ->. right. by exists front, back.
Qed.

Lemma mapChars_app (f : ascii → ascii) (a b : string) :
  mapChars f (a +:+ b) = mapChars f a +:+ mapChars f b.
Proof.
  induction a as [|c a IH]; [done|].
  change (String (f c) (mapChars f (a +:+ b))
          = String (f c) (mapChars f a +:+ mapChars f b)).
  by rewrite IH.
Qed.

Lemma mapChars_split (f : ascii → ascii) (s a b : string) :
  mapChars f s = a +:+ b →
  ∃ a' b', s = a' +:+ b' ∧ mapChars f a' = a ∧ mapChars f b' = b.
Proof.
  revert s. induction a as [|c a IH]; intros s Heq.
  - by exists "", s.
  - destruct s as [|c' s]; [done|]. injection Heq as <- Heq.
    apply IH in Heq as (a' & b' & -> & <- & <-).
    by exists (String c' a'), b'.
Qed.

Lemma includes_lower (url mark : string) :
  includes (toLowerCase url) mark = true ↔ HoldsLower url mark.
Proof.
  rewrite includes_infix. unfold HoldsLower, toLowerCase. split.
  - intros (front & back & Heq).
    apply mapChars_split in Heq as (front' & rest & -> & _ & Heq).
    apply mapChars_split in Heq as (mid & back' & -> & Hmid & _).
    by exists front', mid, back'.
  - intros (front & mid & back & -> & <-).
    exists (mapChars lowerChar front), (mapChars lowerChar back).
    by rewrite !mapChars_app.
Qed.

(** Property X8.  A URL is taken for an HLS stream exactly when it holds
    ".m3u8", "/hls/" or "playlist" somewhere, in any letter case. *)
Theorem isHLSStream_marks (url : string) :
  isHLSStream url = true ↔ ∃ mark, mark ∈ streamMarks ∧ HoldsLower url mark.
Proof.
  unfold isHLSStream, streamMarks. cbn zeta.
  rewrite !orb_true_iff, !includes_lower. split.
  - intros [[?|?]|?]; eexists; (split; [|done]);
      [left|right; left|right; right; left].
  - intros (mark & Hin & Hmark).
    apply elem_of_cons in Hin as [->|Hin]; [by left; left|].
    apply elem_of_cons in Hin as [->|Hin]; [by left; right|].
    apply list_elem_of_singleton in Hin as ->. by right.
Qed.

End HLSFacts.

Section HLSExamples.
Import JS HLS Examples.
Local Open Scope Z_scope.

Lemma uniqueQualities_dedup_witness :
  uniqueQualities [variant720 2000000 "low.m3u8"; variant720 2500000 "high.m3u8"]
  = [{| label := "720p"; q_resolution := "720p"; bitrate := Some 2500000;
        q_url := Some "high.m3u8" |}].
Proof.
  pose proof (uniqueQualities_dedup
    [variant720 2000000 "low.m3u8"; variant720 2500000 "high.m3u8"])
    as (_ & _ & _ & _ & H).
  destruct (H (variant720 2000000 "low.m3u8") (variant720 2500000 "high.m3u8"))
    as [Heq _]; [by left|reflexivity..|].
  exact Heq.
Defined.
Lemma best_quality_first_witness :
  ∃ v rest,
    v ∈ [variant720 2000000 "low.m3u8"; variant720 2500000 "high.m3u8"]
    ∧ uniqueQualities
        [variant720 2000000 "low.m3u8"; variant720 2500000 "high.m3u8"]
      = toQuality v :: rest
    ∧ (∀ v',
         v' ∈ [variant720 2000000 "low.m3u8"; variant720 2500000 "high.m3u8"] →
         bandwidth v' ≤ bandwidth v)
    ∧ (length (uniqueQualities
                 [variant720 2000000 "low.m3u8";
                  variant720 2500000 "high.m3u8"]) ≤ 2)%nat.
Proof.
  apply (best_quality_first
           [variant720 2000000 "low.m3u8"; variant720 2500000 "high.m3u8"]).
  discriminate.
Defined.

End HLSExamples.

(** ** The chunked persistence engine *)

Section StorageFacts.
Import JS Storage.

(** *** Keys *)

Lemma append_cons (c : ascii) (s t : string) :
  String c s +:+ t = String c (s +:+ t).
Proof. done. Qed.

Ltac key_literals :=
  unfold metaKey, chunkKey, PLAYLISTS, ACTIVE_PLAYLIST_ID, PLAYLIST_META,
    PLAYLIST_CHUNKS;
  rewrite ?append_cons.

Lemma metaKey_inj (id id' : string) : metaKey id = metaKey id' → id = id'.
Proof. unfold metaKey. apply String.app_inj. Qed.

Lemma chunkKey_inj (id : string) (i j : nat) :
  chunkKey id i = chunkKey id j → i = j.
Proof.
  unfold chunkKey. intros H.
  do 3 apply String.app_inj in H. by apply (inj pretty) in H.
Qed.

Lemma metaKey_chunkKey (id id' : string) (i : nat) :
  metaKey id ≠ chunkKey id' i.
Proof. key_literals. congruence. Qed.

Lemma playlists_metaKey (id : string) : PLAYLISTS ≠ metaKey id.
Proof. key_literals. congruence. Qed.

Lemma playlists_chunkKey (id : string) (i : nat) : PLAYLISTS ≠ chunkKey id i.
Proof. key_literals. congruence. Qed.

Lemma active_metaKey (id : string) : ACTIVE_PLAYLIST_ID ≠ metaKey id.
Proof. key_literals. congruence. Qed.

Lemma active_chunkKey (id : string) (i : nat) :
  ACTIVE_PLAYLIST_ID ≠ chunkKey id i.
Proof. key_literals. congruence. Qed.

Lemma active_playlists : ACTIVE_PLAYLIST_ID ≠ PLAYLISTS.
Proof. done. Qed.

(** *** Single calls *)

Ltac run :=
  unfold getPlaylistList, savePlaylistList, getActivePlaylistId,
    setActivePlaylistId, tryCatch, mbind, M_bind, bind, ret, throw,
    getItem, setItem, removeItem, multiRemove, storageCall, nextFault;
  simpl.

Lemma getPlaylistList_calm (m : gmap string Stored) :
  getPlaylistList (calm m) = (Ok (summaryOf m), calm m).
Proof.
  run. unfold summaryOf.
  by destruct (m !! PLAYLISTS) as [[| | |[|]]|].
Qed.

Lemma savePlaylistList_calm (l : list PlaylistInfo) (m : gmap string Stored) :
  savePlaylistList l (calm m) = (Ok tt, calm (<[PLAYLISTS := SInfos l]> m)).
Proof. by run. Qed.

Lemma getActivePlaylistId_calm (m : gmap string Stored) :
  getActivePlaylistId (calm m) = (Ok (activeOf m), calm m).
Proof.
  run. unfold activeOf.
  by destruct (m !! ACTIVE_PLAYLIST_ID) as [[| | |]|].
Qed.

Lemma setActivePlaylistId_calm (id : string) (m : gmap string Stored) :
  setActivePlaylistId id (calm m)
  = (Ok tt, calm (<[ACTIVE_PLAYLIST_ID := SText id]> m)).
Proof. by run. Qed.

(** *** The chunk loop of [savePlaylist] *)

Lemma saveChunks_pass (playlist : Playlist) (meta : PlaylistMeta) (i n : nat)
      (m : gmap string Stored) (fs : list (option Error)) :
  Forall (λ f, f = None) (take n fs) →
  saveChunks playlist meta i n {| kv := m; faults := fs |}
  = (Ok meta, {| kv := writeChunks playlist i n m; faults := drop n fs |}).
Proof.
  revert i m fs. induction n as [|n IH]; intros i m fs Hfs; [done|].
  simpl. unfold mbind, M_bind, bind at 1, tryCatch.
  run. destruct fs as [|f fs]; simpl in *.
  - rewrite (IH (S i) _ []); [by rewrite drop_nil|by rewrite take_nil].
  - apply Forall_cons in Hfs as [-> Hfs]. by apply IH.
Qed.

Lemma saveChunks_fail (playlist : Playlist) (meta : PlaylistMeta)
      (i n j : nat) (e : Error) (m : gmap string Stored)
      (fs : list (option Error)) :
  j < n →
  Forall (λ f, f = None) (take j fs) →
  fs !! j = Some (Some e) →
  saveChunks playlist meta i n {| kv := m; faults := fs |}
  = (if isDiskFull e
     then setItem (metaKey (pl_id playlist))
                  (SMeta (truncatedMeta meta (i + j)));;
          ret (truncatedMeta meta (i + j))
     else throw e)
      {| kv := writeChunks playlist i j m; faults := drop (S j) fs |}.
Proof.
  revert i n m fs. induction j as [|j IH]; intros i n m fs Hj Hfs Hfault.
  - destruct n as [|n]; [lia|]. destruct fs as [|f fs]; [done|].
    injection Hfault as ->. rewrite Nat.add_0_r. simpl.
    unfold mbind, M_bind, bind at 1, tryCatch. run.
    destruct (isDiskFull e); [|done]. run. rewrite drop_0.
    by destruct (hd None fs).
  - destruct n as [|n]; [lia|]. destruct fs as [|f fs]; [done|].
    simpl in Hfs. apply Forall_cons in Hfs as [-> Hfs]. simpl in Hfault.
    simpl. unfold mbind, M_bind, bind at 1, tryCatch. run.
    rewrite (IH (S i) n _ fs); [|lia|done|done].
    by replace (S i + j) with (i + S j) by lia.
Qed.

Lemma writeChunks_other (playlist : Playlist) (i n : nat)
      (m : gmap string Stored) (key : string) :
  (∀ j, i ≤ j < i + n → key ≠ chunkKey (pl_id playlist) j) →
  writeChunks playlist i n m !! key = m !! key.
Proof.
  revert i m. induction n as [|n IH]; intros i m Hkey; [done|]. simpl.
  rewrite IH by (intros j ?; apply Hkey; lia).
  apply lookup_insert_ne. intros Heq. by apply (Hkey i); [lia|].
Qed.

Lemma writeChunks_chunk (playlist : Playlist) (i n j : nat)
      (m : gmap string Stored) :
  i ≤ j < i + n →
  writeChunks playlist i n m !! chunkKey (pl_id playlist) j
  = Some (SChunk (chunkOf playlist j)).
Proof.
  revert i m. induction n as [|n IH]; intros i m Hj; [lia|]. simpl.
  destruct (decide (j = i)) as [->|Hne].
  - rewrite writeChunks_other; [apply lookup_insert_eq|].
    intros j' ? Heq%chunkKey_inj. lia.
  - apply IH. lia.
Qed.

Lemma writeChunks_beyond (playlist : Playlist) (n j : nat)
      (m : gmap string Stored) :
  n ≤ j →
  writeChunks playlist 0 n m !! chunkKey (pl_id playlist) j
  = m !! chunkKey (pl_id playlist) j.
Proof.
  intros Hj. apply writeChunks_other. intros j' ? Heq%chunkKey_inj. lia.
Qed.

(** *** Chunking *)

Lemma CHUNK_SIZE_pos : 0 < CHUNK_SIZE.
Proof. unfold CHUNK_SIZE. lia. Qed.

Lemma ceilDiv_covers (len : nat) : len ≤ ceilDiv len CHUNK_SIZE * CHUNK_SIZE.
Proof.
  unfold ceilDiv. pose proof CHUNK_SIZE_pos as Hpos.
  pose proof (Nat.div_mod (len + (CHUNK_SIZE - 1)) CHUNK_SIZE) as Hdm.
  pose proof (Nat.mod_upper_bound (len + (CHUNK_SIZE - 1)) CHUNK_SIZE) as Hub.
  generalize dependent (CHUNK_SIZE). intros C. intros.
  nia.
Qed.

Lemma ceilDiv_below (len k : nat) :
  k < ceilDiv len CHUNK_SIZE → k * CHUNK_SIZE < len.
Proof.
  unfold ceilDiv. pose proof CHUNK_SIZE_pos as Hpos.
  pose proof (Nat.div_mod (len + (CHUNK_SIZE - 1)) CHUNK_SIZE) as Hdm.
  pose proof (Nat.mod_upper_bound (len + (CHUNK_SIZE - 1)) CHUNK_SIZE) as Hub.
  generalize dependent (CHUNK_SIZE). intros C. intros.
  nia.
Qed.

Lemma chunkOf_take (playlist : Playlist) (i : nat) :
  chunkOf playlist i
  = minimizeChannel <$> take CHUNK_SIZE (drop (i * CHUNK_SIZE) (channels playlist)).
Proof.
  unfold chunkOf, slice. f_equal.
  destruct (decide (i * CHUNK_SIZE + CHUNK_SIZE ≤ length (channels playlist))).
  - f_equal. lia.
  - rewrite !take_ge; [done|rewrite length_drop; lia..].
Qed.

Lemma readChunks_written (playlist : Playlist) (i n : nat)
      (m : gmap string Stored) :
  (∀ j, i ≤ j < i + n →
        m !! chunkKey (pl_id playlist) j = Some (SChunk (chunkOf playlist j))) →
  readChunks (pl_id playlist) i n m
  = expandChannel <$>
      (minimizeChannel <$>
         take (n * CHUNK_SIZE) (drop (i * CHUNK_SIZE) (channels playlist))).
Proof.
  revert i. induction n as [|n IH]; intros i Hm; [done|]. simpl.
  rewrite Hm by lia. rewrite IH by (intros j ?; apply Hm; lia).
  rewrite chunkOf_take, <-fmap_app, <-fmap_app. do 2 f_equal.
  replace (S i * CHUNK_SIZE) with (i * CHUNK_SIZE + CHUNK_SIZE) by lia.
  rewrite <-drop_drop. apply take_take_drop.
Qed.

(** *** The operations in a world without failures *)

Lemma savePlaylist_calm (playlist : Playlist) (type : option PlaylistType)
      (xtreamCredentials : option XtreamCredentials) (m : gmap string Stored) :
  savePlaylist playlist type xtreamCredentials (calm m)
  = (Ok tt, calm (savedStore playlist type xtreamCredentials m)).
Proof.
  unfold savePlaylist, tryCatch, mbind, M_bind, bind at 1 2.
  unfold setItem, storageCall, nextFault. simpl.
  rewrite saveChunks_pass by (by rewrite take_nil). rewrite drop_nil.
  unfold bind at 1. rewrite getPlaylistList_calm. unfold bind.
  rewrite savePlaylistList_calm. by rewrite setActivePlaylistId_calm.
Qed.

Lemma loadChunks_calm (id : string) (i n : nat) (acc : list Channel)
      (m : gmap string Stored) :
  loadChunks id i n acc (calm m) = (Ok (acc ++ readChunks id i n m), calm m).
Proof.
  revert i acc. induction n as [|n IH]; intros i acc; simpl.
  - by rewrite app_nil_r.
  - unfold mbind, M_bind, bind at 1, tryCatch. run.
    destruct (m !! chunkKey id i) as [[| | |[|]]|]; simpl;
      rewrite IH; by rewrite ?app_assoc.
Qed.

Lemma getPlaylist_calm (id : string) (m : gmap string Stored) :
  id ≠ "" →
  getPlaylist (Some id) (calm m) = (Ok (loadedFrom id m), calm m).
Proof.
  intros Hid%nonEmpty_true. unfold getPlaylist, loadedFrom. simpl.
  rewrite Hid. unfold tryCatch, mbind, M_bind, bind at 1 2. unfold ret at 1.
  simpl. rewrite Hid. run.
  destruct (m !! metaKey id) as [[meta| | |[|]]|]; simpl; try done.
  by rewrite loadChunks_calm.
Qed.

(** *** The store after a save *)

Section Saved.
Context (playlist : Playlist) (type : option PlaylistType)
        (xtreamCredentials : option XtreamCredentials)
        (m : gmap string Stored).
Local Abbreviation id := (pl_id playlist).
Local Abbreviation meta :=
  (metaOf playlist (default m3u type) xtreamCredentials).
Local Abbreviation saved := (savedStore playlist type xtreamCredentials m).

Lemma savedStore_meta : saved !! metaKey id = Some (SMeta meta).
Proof.
  unfold savedStore.
  rewrite lookup_insert_ne by apply active_metaKey.
  rewrite lookup_insert_ne by apply playlists_metaKey.
  rewrite writeChunks_other; [apply lookup_insert_eq|].
  intros j _. apply metaKey_chunkKey.
Qed.

Lemma savedStore_chunk (j : nat) :
  j < chunkCount meta →
  saved !! chunkKey id j = Some (SChunk (chunkOf playlist j)).
Proof.
  intros Hj. unfold savedStore.
  rewrite lookup_insert_ne by apply active_chunkKey.
  rewrite lookup_insert_ne by apply playlists_chunkKey.
  apply writeChunks_chunk. lia.
Qed.

Lemma savedStore_chunk_beyond (j : nat) :
  chunkCount meta ≤ j → saved !! chunkKey id j = m !! chunkKey id j.
Proof.
  intros Hj. unfold savedStore.
  rewrite lookup_insert_ne by apply active_chunkKey.
  rewrite lookup_insert_ne by apply playlists_chunkKey.
  rewrite writeChunks_beyond by done.
  apply lookup_insert_ne, metaKey_chunkKey.
Qed.

Lemma savedStore_summary :
  summaryOf saved
  = upsert (infoOf playlist (default m3u type) xtreamCredentials meta)
           (summaryOf m).
Proof.
  unfold savedStore, summaryOf at 1.
  rewrite lookup_insert_ne by apply active_playlists.
  rewrite lookup_insert_eq. f_equal. unfold summaryOf.
  rewrite writeChunks_other by (intros j _; apply playlists_chunkKey).
  by rewrite lookup_insert_ne by (symmetry; apply playlists_metaKey).
Qed.

Lemma savedStore_active : activeOf saved = Some id.
Proof. unfold savedStore, activeOf. by rewrite lookup_insert_eq. Qed.

Lemma savedStore_channels :
  readChunks id 0 (chunkCount meta) saved
  = expandChannel <$> (minimizeChannel <$> channels playlist).
Proof.
  rewrite (readChunks_written playlist).
  - rewrite drop_0, take_ge; [done|]. apply ceilDiv_covers.
  - intros j Hj. apply savedStore_chunk. lia.
Qed.
End Saved.

Lemma expand_minimize_Reloaded (l : list Channel) :
  Forall2 Reloaded l (expandChannel <$> (minimizeChannel <$> l)).
Proof. induction l; constructor; [by repeat split|done]. Qed.

(** Claim C1, amended.  For a playlist with a non-empty id, when no store
    call fails, [savePlaylist] succeeds and [getPlaylist] of its id then
    returns a playlist with as many channels in the same order, each agreeing
    with the one saved on id, name, url and group, and on logo but for an
    empty logo, which comes back absent. *)
Theorem save_then_load (playlist : Playlist) (type : option PlaylistType)
        (xtreamCredentials : option XtreamCredentials) (w : World) :
  faults w = [] →
  pl_id playlist ≠ "" →
  RoundTrip Reloaded playlist type xtreamCredentials w.
Proof.
  destruct w as [m fs]. simpl. intros -> Hid.
  exists (calm (savedStore playlist type xtreamCredentials m)). eexists. eexists.
  split_and!.
  - apply savePlaylist_calm.
  - rewrite getPlaylist_calm by done. unfold loadedFrom.
    by rewrite savedStore_meta.
  - cbn [channels]. rewrite savedStore_channels.
    apply expand_minimize_Reloaded.
Qed.

(** *** A chunk write that fails *)

Lemma faults_prefix (k : nat) (e : Error) (rest : list (option Error)) :
  Forall (λ f, f = None) (take k (replicate k None ++ Some e :: rest))
  ∧ (replicate k None ++ Some e :: rest) !! k = Some (Some e)
  ∧ drop (S k) (replicate k None ++ Some e :: rest) = rest.
Proof.
  split_and!.
  - rewrite take_app_length' by (by rewrite length_replicate).
    apply Forall_forall. by intros f [-> _]%elem_of_replicate.
  - rewrite lookup_app_r by (rewrite length_replicate; lia).
    by rewrite length_replicate, Nat.sub_diag.
  - rewrite drop_app_ge by (rewrite length_replicate; lia).
    rewrite length_replicate. by replace (S k - k) with 1 by lia.
Qed.

(** Claim C10.  When the metadata write and the chunk writes below [k] go
    through and the write of chunk [k] fails with an error [e] that is not
    the out-of-space error, [savePlaylist] throws [e] itself; the summary
    list and the active playlist id are as before, and so is every key but
    the metadata key and the chunk keys below [k]. *)
Theorem chunk_error_propagates (playlist : Playlist)
        (type : option PlaylistType)
        (xtreamCredentials : option XtreamCredentials) (w : World)
        (k : nat) (e : Error) (rest : list (option Error)) :
  faults w = replicate (S k) None ++ Some e :: rest →
  k < ceilDiv (length (channels playlist)) CHUNK_SIZE →
  isDiskFull e = false →
  Propagates playlist type xtreamCredentials k e w.
Proof.
  destruct w as [m fs]. simpl. intros -> Hk He.
  destruct (faults_prefix k e rest) as (Hpass & Hfail & Hrest).
  destruct (faults_prefix (S k) e rest) as (_ & _ & Hrest').
  eexists. split.
  - unfold savePlaylist, tryCatch, mbind, M_bind, bind at 1 2.
    unfold setItem, storageCall, nextFault. simpl.
    rewrite (saveChunks_fail _ _ 0 _ k e) by done.
    rewrite He, Hrest. unfold throw. by rewrite He.
  - cbn [kv faults]. split_and!; [symmetry; exact Hrest'| | |].
    + rewrite writeChunks_other by (intros j _; apply playlists_chunkKey).
      by rewrite lookup_insert_ne by (symmetry; apply playlists_metaKey).
    + rewrite writeChunks_other by (intros j _; apply active_chunkKey).
      by rewrite lookup_insert_ne by (symmetry; apply active_metaKey).
    + intros key Hmeta Hchunk.
      rewrite writeChunks_other by (intros j ?; apply Hchunk; lia).
      by rewrite lookup_insert_ne.
Qed.

(** *** A save cut short by the out-of-space error *)

Lemma savePlaylist_truncated (playlist : Playlist)
      (type : option PlaylistType)
      (xtreamCredentials : option XtreamCredentials)
      (m : gmap string Stored) (k : nat) (e : Error) :
  k < ceilDiv (length (channels playlist)) CHUNK_SIZE →
  isDiskFull e = true →
  savePlaylist playlist type xtreamCredentials
    {| kv := m; faults := replicate (S k) None ++ [Some e] |}
  = (Ok tt, calm (truncatedStore playlist type xtreamCredentials k m)).
Proof.
  intros Hk He.
  destruct (faults_prefix k e []) as (Hpass & Hfail & Hrest).
  unfold savePlaylist, tryCatch, mbind, M_bind, bind at 1 2.
  unfold setItem at 1, storageCall, nextFault. simpl.
  rewrite (saveChunks_fail _ _ 0 _ k e) by done.
  rewrite He, Hrest. unfold mbind, M_bind, bind at 2.
  unfold setItem, storageCall, nextFault, ret at 1. simpl.
  unfold bind at 1. rewrite getPlaylistList_calm. unfold bind.
  rewrite savePlaylistList_calm. by rewrite setActivePlaylistId_calm.
Qed.

(** Claim C2, amended.  For a playlist with a non-empty id, when the write
    of chunk [k] is rejected with the out-of-space error and no other store
    call fails (the rewrite of the metadata record goes through),
    [savePlaylist] writes no chunk from [k] on and returns successfully, the
    metadata record counts [k] chunks and [k * 300] channels, and
    [getPlaylist] then returns [k * 300] channels. *)
Theorem quota_truncates (playlist : Playlist) (type : option PlaylistType)
        (xtreamCredentials : option XtreamCredentials) (w : World)
        (k : nat) (e : Error) :
  faults w = replicate (S k) None ++ [Some e] →
  isDiskFull e = true →
  k < ceilDiv (length (channels playlist)) CHUNK_SIZE →
  pl_id playlist ≠ "" →
  FailsAtChunk k e w ∧ TruncatedAt playlist type xtreamCredentials k w.
Proof.
  destruct w as [m fs]. simpl. intros -> He Hk Hid.
  split.
  { destruct (faults_prefix (S k) e []) as (_ & Hfail & _).
    split_and!; [|done..]. simpl.
    by rewrite take_app_length' by (by rewrite length_replicate). }
  set (meta := metaOf playlist (default m3u type) xtreamCredentials).
  assert (∀ j, truncatedStore playlist type xtreamCredentials k m
               !! chunkKey (pl_id playlist) j
               = if decide (j < k) then Some (SChunk (chunkOf playlist j))
                 else m !! chunkKey (pl_id playlist) j) as Hchunks.
  { intros j. unfold truncatedStore.
    rewrite lookup_insert_ne by apply active_chunkKey.
    rewrite lookup_insert_ne by apply playlists_chunkKey.
    rewrite lookup_insert_ne by apply metaKey_chunkKey.
    destruct (decide (j < k)).
    - apply writeChunks_chunk. lia.
    - rewrite writeChunks_beyond by lia.
      apply lookup_insert_ne, metaKey_chunkKey. }
  assert (truncatedStore playlist type xtreamCredentials k m
            !! metaKey (pl_id playlist)
          = Some (SMeta (truncatedMeta meta k))) as Hmeta.
  { unfold truncatedStore.
    rewrite lookup_insert_ne by apply active_metaKey.
    rewrite lookup_insert_ne by apply playlists_metaKey.
    apply lookup_insert_eq. }
  exists (calm (truncatedStore playlist type xtreamCredentials k m)),
         (truncatedMeta meta k). eexists. eexists.
  split_and!.
  - by apply savePlaylist_truncated.
  - intros j Hj. simpl. rewrite Hchunks. by rewrite decide_False by lia.
  - done.
  - done.
  - done.
  - rewrite getPlaylist_calm by done. unfold loadedFrom. by rewrite Hmeta.
  - cbn [channels chunkCount truncatedMeta].
    rewrite (readChunks_written playlist).
    + rewrite !length_fmap, drop_0, length_take.
      apply ceilDiv_below in Hk. lia.
    + intros j Hj. rewrite Hchunks. by rewrite decide_True by lia.
Qed.

(** *** The summary list *)

Lemma upsert_cons (playlistInfo p : PlaylistInfo) (l : list PlaylistInfo) :
  upsert playlistInfo (p :: l)
  = if bool_decide (info_id p = info_id playlistInfo) then playlistInfo :: l
    else p :: upsert playlistInfo l.
Proof.
  unfold upsert. simpl. case_bool_decide; [done|].
  by destruct (findIndex (info_id playlistInfo) l).
Qed.

Lemma upsert_entries (playlistInfo : PlaylistInfo) (l : list PlaylistInfo) :
  length (entriesFor (info_id playlistInfo) (upsert playlistInfo l))
  = Nat.max 1 (length (entriesFor (info_id playlistInfo) l)).
Proof.
  unfold entriesFor. induction l as [|p l IH].
  - unfold upsert. simpl. by rewrite filter_cons_True.
  - rewrite upsert_cons. case_bool_decide as Hp.
    + rewrite !filter_cons_True by done. simpl. lia.
    + by rewrite !filter_cons_False.
Qed.

Lemma withoutId_entries (id : string) (l : list PlaylistInfo) :
  entriesFor id (withoutId id l) = [].
Proof.
  unfold entriesFor, withoutId. induction l as [|p l IH]; [done|].
  destruct (decide (info_id p = id)).
  - by rewrite filter_cons_False by (by intros ?).
  - rewrite filter_cons_True by done. by rewrite filter_cons_False.
Qed.

(** Claim C3, amended.  After two saves under one id without a store
    failure, on a store whose summary list held at most one entry for the id,
    the summary list holds exactly one entry for it, the metadata record
    counts the chunks of the second save and the chunk records below that
    count are those of the second save; the chunk records from that count on
    are left as the first save left them, so those of a larger first save
    stay in the store. *)
Theorem save_twice (first second : Playlist)
        (type1 type2 : option PlaylistType)
        (cred1 cred2 : option XtreamCredentials) (w : World) :
  faults w = [] →
  pl_id second = pl_id first →
  length (entriesFor (pl_id first) (summaryOf (kv w))) ≤ 1 →
  SecondSaveOver first second type1 type2 cred1 cred2 w.
Proof.
  destruct w as [m fs]. simpl. intros -> Hid Hone.
  exists (calm (savedStore first type1 cred1 m)),
         (calm (savedStore second type2 cred2 (savedStore first type1 cred1 m))),
         (metaOf second (default m3u type2) cred2).
  rewrite <-Hid. simpl. split_and!.
  - apply savePlaylist_calm.
  - apply savePlaylist_calm.
  - rewrite !savedStore_summary.
    change (pl_id second) with
      (info_id (infoOf second (default m3u type2) cred2
                  (metaOf second (default m3u type2) cred2))) at 1.
    rewrite upsert_entries. simpl. rewrite Hid.
    change (pl_id first) with
      (info_id (infoOf first (default m3u type1) cred1
                  (metaOf first (default m3u type1) cred1))) at 1.
    rewrite upsert_entries. simpl. lia.
  - apply savedStore_meta.
  - done.
  - intros j Hj. by apply savedStore_chunk.
  - intros j Hj. by apply savedStore_chunk_beyond.
  - intros j [Hj1 Hj2]. rewrite savedStore_chunk_beyond by done.
    rewrite Hid. by apply savedStore_chunk.
Qed.

(** *** Deleting *)

Lemma deletePlaylist_calm (id : string) (meta : PlaylistMeta)
      (m : gmap string Stored) :
  m !! metaKey id = Some (SMeta meta) →
  deletePlaylist id (calm m) = (Ok tt, calm (deletedStore id meta m)).
Proof.
  intros Hmeta. unfold deletePlaylist, deletedStore, tryCatch.
  unfold mbind, M_bind, bind at 1 2. unfold getItem at 1, storageCall, nextFault.
  simpl. rewrite Hmeta.
  unfold multiRemove, storageCall, nextFault. simpl.
  unfold bind at 1. rewrite getPlaylistList_calm. unfold bind at 1.
  rewrite savePlaylistList_calm. unfold bind. rewrite getActivePlaylistId_calm.
  unfold withoutId. case_bool_decide; [destruct (filter _ _)|]; by run.
Qed.

Lemma elem_of_keysToRemove (id : string) (n : nat) (key : string) :
  key ∈ keysToRemove id n ↔ key = metaKey id ∨ ∃ j, j < n ∧ key = chunkKey id j.
Proof.
  unfold keysToRemove. rewrite elem_of_cons, list_elem_of_fmap.
  split; intros [?|(j & ? & Hj)]; [by left| |by left|].
  - right. exists j. apply elem_of_seq in Hj. split; [lia|done].
  - right. exists j. split; [done|]. apply elem_of_seq. lia.
Qed.

Section Deleted.
Context (id : string) (meta : PlaylistMeta) (m : gmap string Stored).
Local Abbreviation keys := (keysToRemove id (chunkCount meta)).
Local Abbreviation deleted := (deletedStore id meta m).

Lemma playlists_kept : PLAYLISTS ∉ keys.
Proof.
  intros [?|(j & _ & ?)]%elem_of_keysToRemove;
    [by eapply playlists_metaKey|by eapply playlists_chunkKey].
Qed.

Lemma active_kept : ACTIVE_PLAYLIST_ID ∉ keys.
Proof.
  intros [?|(j & _ & ?)]%elem_of_keysToRemove;
    [by eapply active_metaKey|by eapply active_chunkKey].
Qed.

Lemma summaryOf_removed : summaryOf (foldr delete m keys) = summaryOf m.
Proof.
  unfold summaryOf.
  by rewrite lookup_foldr_delete_not_elem_of by apply playlists_kept.
Qed.

Lemma activeOf_removed :
  activeOf (<[PLAYLISTS := SInfos (withoutId id (summaryOf m))]>
              (foldr delete m keys)) = activeOf m.
Proof.
  unfold activeOf.
  rewrite lookup_insert_ne by (symmetry; apply active_playlists).
  by rewrite lookup_foldr_delete_not_elem_of by apply active_kept.
Qed.

Lemma deletedStore_other (key : string) :
  key ≠ PLAYLISTS → key ≠ ACTIVE_PLAYLIST_ID →
  deleted !! key = foldr delete m keys !! key.
Proof.
  intros H1 H2. unfold deletedStore. rewrite summaryOf_removed, activeOf_removed.
  case_bool_decide; [destruct (withoutId id (summaryOf m))|].
  - rewrite lookup_delete_ne by done. by rewrite lookup_insert_ne.
  - rewrite lookup_insert_ne by done. by rewrite lookup_insert_ne.
  - by rewrite lookup_insert_ne.
Qed.

Lemma deletedStore_meta : deleted !! metaKey id = None.
Proof.
  rewrite deletedStore_other
    by (apply not_eq_sym; first [apply playlists_metaKey|apply active_metaKey]).
  apply lookup_foldr_delete, elem_of_keysToRemove. by left.
Qed.

Lemma deletedStore_chunk (j : nat) :
  j < chunkCount meta → deleted !! chunkKey id j = None.
Proof.
  intros Hj. rewrite deletedStore_other
    by (apply not_eq_sym; first [apply playlists_chunkKey|apply active_chunkKey]).
  apply lookup_foldr_delete, elem_of_keysToRemove. right. by exists j.
Qed.

Lemma deletedStore_chunk_beyond (j : nat) :
  chunkCount meta ≤ j → deleted !! chunkKey id j = m !! chunkKey id j.
Proof.
  intros Hj. rewrite deletedStore_other
    by (apply not_eq_sym; first [apply playlists_chunkKey|apply active_chunkKey]).
  apply lookup_foldr_delete_not_elem_of.
  intros [Heq|(j' & ? & Heq%chunkKey_inj)]%elem_of_keysToRemove; [|lia].
  by eapply metaKey_chunkKey.
Qed.

Lemma deletedStore_summary :
  summaryOf deleted = withoutId id (summaryOf m).
Proof.
  unfold deletedStore. rewrite summaryOf_removed, activeOf_removed.
  unfold summaryOf at 1.
  case_bool_decide; [destruct (withoutId id (summaryOf m))|].
  - rewrite lookup_delete_ne by apply active_playlists.
    by rewrite lookup_insert_eq.
  - rewrite lookup_insert_ne by apply active_playlists.
    by rewrite lookup_insert_eq.
  - by rewrite lookup_insert_eq.
Qed.

Lemma deletedStore_active : ActivePromoted id m deleted.
Proof.
  unfold ActivePromoted, deletedStore.
  rewrite summaryOf_removed, activeOf_removed.
  case_bool_decide; [destruct (withoutId id (summaryOf m))|].
  - apply lookup_delete_eq.
  - apply lookup_insert_eq.
  - rewrite lookup_insert_ne by (symmetry; apply active_playlists).
    by rewrite lookup_foldr_delete_not_elem_of by apply active_kept.
Qed.
End Deleted.

(** Claim C5, amended.  For an id whose metadata record is in the store,
    [deletePlaylist(id)] without a store failure removes the metadata record,
    the chunk records below the chunk count of the metadata and every
    summary entry of the id, and leaves the chunk records from that count on
    in place; if the id was the active playlist, the first remaining summary
    entry becomes active, or the active key is removed when none remains. *)
Theorem delete_removes (id : string) (meta : PlaylistMeta) (w : World) :
  faults w = [] →
  kv w !! metaKey id = Some (SMeta meta) →
  DeletedFrom id meta w.
Proof.
  destruct w as [m fs]. simpl. intros -> Hmeta.
  exists (calm (deletedStore id meta m)).
  split; [by apply deletePlaylist_calm|]. simpl. split_and!.
  - apply deletedStore_meta.
  - apply deletedStore_chunk.
  - apply deletedStore_chunk_beyond.
  - apply deletedStore_summary.
  - rewrite deletedStore_summary. apply withoutId_entries.
  - apply deletedStore_active.
Qed.

(** *** Keys of different playlists *)

(** The decimal digits of a number hold no underscore, so a chunk key tells
    the id from the index. *)

Lemma pretty_N_go_chars (c : ascii) (x : N) (s : string) :
  c ∈ String.list_ascii_of_string (pretty_N_go x s) →
  c ∈ String.list_ascii_of_string s ∨ (∃ d, (d < 10)%N ∧ c = pretty_N_char d).
Proof.
  revert s. induction (N.lt_wf_0 x) as [x _ IH]; intros s.
  assert (x = 0 ∨ 0 < x)%N as [->|Hpos] by lia.
  - rewrite pretty_N_go_0. by left.
  - rewrite pretty_N_go_step by done.
    intros [Hc|Hc]%IH; [|by right|by apply N.div_lt].
    simpl in Hc. apply elem_of_cons in Hc as [->|Hc]; [|by left].
    right. eexists. split; [|done]. by apply N.mod_lt.
Qed.

Lemma pretty_nat_no_underscore (n : nat) :
  "_"%char ∉ String.list_ascii_of_string (pretty n).
Proof.
  unfold pretty, pretty_nat, pretty, pretty_N.
  destruct (decide _) as [?|?].
  - simpl. by intros [?|[]%elem_of_nil]%elem_of_cons.
  - intros [[]%elem_of_nil|(d & Hd & Hc)]%pretty_N_go_chars.
    unfold pretty_N_char in Hc. by repeat case_match.
Qed.

Lemma underscore_split (s s' d d' : string) :
  "_"%char ∉ String.list_ascii_of_string d →
  "_"%char ∉ String.list_ascii_of_string d' →
  s +:+ String "_" d = s' +:+ String "_" d' → s = s' ∧ d = d'.
Proof.
  intros Hd Hd'. revert s'. induction s as [|c s IH]; intros [|c' s'] Heq.
  - by injection Heq.
  - injection Heq as <- ->. destruct Hd.
    clear. induction s' as [|c s' IH]; simpl; [left|by right].
  - injection Heq as -> <-. destruct Hd'.
    clear. induction s as [|c s IH]; simpl; [left|by right].
  - injection Heq as -> Heq. apply IH in Heq as [-> ->]. done.
Qed.

Lemma chunkKey_inj_id (id id' : string) (i j : nat) :
  chunkKey id i = chunkKey id' j → id = id' ∧ i = j.
Proof.
  unfold chunkKey. intros H. apply String.app_inj in H.
  apply underscore_split in H as [-> H]; [|apply pretty_nat_no_underscore..].
  split; [done|]. by apply (inj pretty) in H.
Qed.

(** *** Loading while chunk reads fail *)

Lemma loadChunks_pass (id : string) (i n : nat) (acc : list Channel)
      (m : gmap string Stored) (fs : list (option Error)) :
  Forall (λ f, f = None) (take n fs) →
  loadChunks id i n acc {| kv := m; faults := fs |}
  = (Ok (acc ++ readChunks id i n m), {| kv := m; faults := drop n fs |}).
Proof.
  revert i acc fs. induction n as [|n IH]; intros i acc fs Hfs; simpl.
  - by rewrite app_nil_r, drop_0.
  - unfold mbind, M_bind, bind at 1, tryCatch. run.
    destruct fs as [|f fs]; simpl in *.
    + destruct (m !! chunkKey id i) as [[| | |[|]]|]; simpl;
        rewrite (IH _ _ []) by (by rewrite take_nil);
        by rewrite ?app_assoc, drop_nil.
    + apply Forall_cons in Hfs as [-> Hfs].
      destruct (m !! chunkKey id i) as [[| | |[|]]|]; simpl;
        rewrite IH by done; by rewrite ?app_assoc.
Qed.

Lemma loadChunks_skip (id : string) (i n j : nat) (e : Error)
      (acc : list Channel) (m : gmap string Stored)
      (fs : list (option Error)) :
  j < n →
  Forall (λ f, f = None) (take j fs) →
  fs !! j = Some (Some e) →
  loadChunks id i n acc {| kv := m; faults := fs |}
  = loadChunks id (i + S j) (n - S j) (acc ++ readChunks id i j m)
      {| kv := m; faults := drop (S j) fs |}.
Proof.
  revert i n acc fs. induction j as [|j IH]; intros i n acc fs Hj Hfs Hfault.
  - destruct n as [|n]; [lia|]. destruct fs as [|f fs]; [done|].
    injection Hfault as ->. simpl.
    unfold mbind, M_bind, bind at 1, tryCatch. run.
    rewrite Nat.sub_0_r, drop_0, app_nil_r. by replace (i + 1) with (S i) by lia.
  - destruct n as [|n]; [lia|]. destruct fs as [|f fs]; [done|].
    simpl in Hfs. apply Forall_cons in Hfs as [-> Hfs]. simpl in Hfault.
    cbn [loadChunks]. unfold mbind, M_bind, bind at 1, tryCatch. run.
    replace (i + S (S j)) with (S i + S j) by lia.
    destruct (m !! chunkKey id i) as [[| | |[|]]|]; simpl;
      rewrite (IH (S i) n _ fs) by (done || lia);
      by rewrite ?app_assoc, ?app_nil_r.
Qed.

Lemma take_drop_remaining {A} (l : list A) (a b : nat) :
  length l ≤ (a + b) ->
  take b (drop a l) = drop a l.
Proof. intros. apply take_ge. rewrite length_drop. lia. Qed.

(** Property X9.  A chunk whose read fails is left out and nothing is reported:
    of a saved playlist, [getPlaylist] returns the channels of all the other
    chunks, in order. *)
Theorem load_skips_unreadable_chunk (playlist : Playlist)
        (type : option PlaylistType)
        (xtreamCredentials : option XtreamCredentials)
        (m : gmap string Stored) (k : nat) (e : Error) :
  pl_id playlist ≠ "" →
  k < ceilDiv (length (channels playlist)) CHUNK_SIZE →
  let saved := savedStore playlist type xtreamCredentials m in
  ∃ loaded,
    getPlaylist (Some (pl_id playlist))
      {| kv := saved; faults := replicate (S k) None ++ [Some e] |}
    = (Ok (Some loaded), calm saved)
    ∧ channels loaded
      = expandChannel <$>
          (minimizeChannel <$>
             (take (k * CHUNK_SIZE) (channels playlist)
              ++ drop (S k * CHUNK_SIZE) (channels playlist))).
Proof.
  intros Hid%nonEmpty_true Hk saved.
  set (n := ceilDiv (length (channels playlist)) CHUNK_SIZE) in *.
  eexists. split.
  - unfold getPlaylist. simpl. rewrite Hid.
    unfold tryCatch, mbind, M_bind, bind at 1 2. unfold ret at 1.
    simpl. rewrite Hid. run.
    unfold saved. rewrite savedStore_meta. fold saved. cbn [chunkCount metaOf].
    fold n.
    destruct (faults_prefix k e []) as (Hpass & Hfail & Hrest).
    rewrite (loadChunks_skip _ 0 n k e) by done.
    rewrite Hrest. rewrite loadChunks_calm. done.
  - cbn [channels app Nat.add].
    rewrite !fmap_app. f_equal.
    + unfold saved. rewrite (readChunks_written playlist).
      * by rewrite drop_0.
      * intros j Hj. apply savedStore_chunk. cbn [chunkCount metaOf]. fold n. lia.
    + unfold saved. rewrite (readChunks_written playlist).
      * do 2 f_equal. apply take_drop_remaining.
        replace (S k * CHUNK_SIZE + (n - S k) * CHUNK_SIZE)
          with (n * CHUNK_SIZE)
          by (rewrite <-Nat.mul_add_distr_r; f_equal; lia).
        apply ceilDiv_covers.
      * intros j Hj. apply savedStore_chunk. cbn [chunkCount metaOf]. fold n. lia.
Qed.

(** *** Loading the active playlist *)

Lemma getPlaylist_active_calm (m : gmap string Stored) :
  getPlaylist None (calm m)
  = (Ok (match activeOf m with
         | Some id => if nonEmpty id then loadedFrom id m else None
         | None => None
         end), calm m).
Proof.
  unfold getPlaylist. simpl.
  unfold tryCatch, mbind, M_bind, bind at 1 2.
  rewrite getActivePlaylistId_calm.
  destruct (activeOf m) as [id|]; simpl; [|done].
  destruct (nonEmpty id) eqn:Hid; [|done].
  run. unfold loadedFrom.
  destruct (m !! metaKey id) as [[meta| | |[|]]|]; simpl; try done.
  by rewrite loadChunks_calm.
Qed.

(** Property X10.  A saved playlist is the active one: [getPlaylist()] without
    an id then returns it, with its id, name, url and time stamp, its first 50
    categories and its channels as they are reloaded. *)
Theorem load_defaults_to_saved_playlist (playlist : Playlist)
        (type : option PlaylistType)
        (xtreamCredentials : option XtreamCredentials) (w : World) :
  faults w = [] →
  pl_id playlist ≠ "" →
  ∃ w' w'' loaded,
    savePlaylist playlist type xtreamCredentials w = (Ok tt, w')
    ∧ getPlaylist None w' = (Ok (Some loaded), w'')
    ∧ pl_id loaded = pl_id playlist
    ∧ pl_name loaded = pl_name playlist
    ∧ pl_url loaded = pl_url playlist
    ∧ lastUpdated loaded = lastUpdated playlist
    ∧ categories loaded = take 50 (categories playlist)
    ∧ Forall2 Reloaded (channels playlist) (channels loaded).
Proof.
  destruct w as [m fs]. simpl. intros -> Hid%nonEmpty_true.
  eexists. eexists. eexists. split; [apply savePlaylist_calm|].
  split.
  - rewrite getPlaylist_active_calm, savedStore_active, Hid.
    unfold loadedFrom. by rewrite savedStore_meta.
  - cbn [pl_id pl_name pl_url lastUpdated categories channels metaOf
         meta_id meta_name meta_url meta_lastUpdated meta_categories].
    split_and!; try done.
    rewrite savedStore_channels. apply expand_minimize_Reloaded.
Qed.

(** *** Saving while the store fails *)

Lemma errorOfStore_tail (e : Error) (w w1 : World) :
  faults w1 = tail (faults w) → ErrorOfStore e w1 → ErrorOfStore e w.
Proof.
  intros Htail [k Hk]. rewrite Htail in Hk.
  destruct (faults w) as [|f fs] eqn:Hfs; [by destruct k|].
  exists (S k). by rewrite Hfs.
Qed.

Lemma saveChunks_frame (playlist : Playlist) (meta : PlaylistMeta)
      (i n : nat) (w w' : World) (r : Outcome PlaylistMeta) :
  saveChunks playlist meta i n w = (r, w') →
  OnlyRecordsOf (pl_id playlist) w w'
  ∧ (∀ e, r = Throw e → ErrorOfStore e w).
Proof.
  revert i w. induction n as [|n IH]; intros i [m fs] Hrun.
  - injection Hrun as <- <-. split; [by intros key _ _|done].
  - cbn [saveChunks] in Hrun.
    unfold mbind, M_bind, bind at 1, tryCatch in Hrun.
    unfold bind at 1, setItem at 1, storageCall at 1, nextFault at 1 in Hrun.
    cbn [faults kv fst snd] in Hrun.
    destruct fs as [|[e|] fs]; cbn [hd tail] in Hrun.
    + apply IH in Hrun as [Hframe Herr]. split.
      * intros key Hmeta Hchunk. rewrite Hframe by done.
        by apply lookup_insert_ne.
      * intros e He. by eapply errorOfStore_tail, Herr.
    + destruct (isDiskFull e) eqn:Hfull.
      * unfold bind at 1, setItem at 1, storageCall at 1, nextFault at 1
          in Hrun.
        cbn [faults kv fst snd] in Hrun.
        destruct fs as [|[e2|] fs]; cbn [hd tail] in Hrun;
          injection Hrun as <- <-.
        -- split; [|done]. intros key Hmeta _. by apply lookup_insert_ne.
        -- split; [by intros key _ _|]. intros ? [= <-]. by exists 1.
        -- split; [|done]. intros key Hmeta _. by apply lookup_insert_ne.
      * injection Hrun as <- <-. split; [by intros key _ _|].
        intros ? [= <-]. by exists 0.
    + apply IH in Hrun as [Hframe Herr]. split.
      * intros key Hmeta Hchunk. rewrite Hframe by done.
        by apply lookup_insert_ne.
      * intros e He. by eapply errorOfStore_tail, Herr.
Qed.

Lemma getPlaylistList_returns (w : World) :
  ∃ playlists w', getPlaylistList w = (Ok playlists, w').
Proof.
  unfold getPlaylistList, tryCatch.
  match goal with
  | |- context [let (_, _) := ?body w in _] =>
      destruct (body w) as [[playlists|e] w']
  | |- context [match ?body w with _ => _ end] =>
      destruct (body w) as [[playlists|e] w']
  end; by eexists _, _.
Qed.

Lemma savePlaylistList_returns (playlists : list PlaylistInfo) (w : World) :
  ∃ w', savePlaylistList playlists w = (Ok tt, w').
Proof.
  unfold savePlaylistList, tryCatch.
  destruct (setItem _ _ w) as [[[]|e] w']; by eexists.
Qed.

Lemma setActivePlaylistId_returns (id : string) (w : World) :
  ∃ w', setActivePlaylistId id w = (Ok tt, w').
Proof.
  unfold setActivePlaylistId, tryCatch.
  destruct (setItem _ _ w) as [[[]|e] w']; by eexists.
Qed.

Lemma listing_never_throws (playlist : Playlist) (type : PlaylistType)
      (xtreamCredentials : option XtreamCredentials) (meta : PlaylistMeta)
      (w : World) :
  ∃ w',
    (playlists ← getPlaylistList;
     savePlaylistList
       (upsert (infoOf playlist type xtreamCredentials meta) playlists);;
     setActivePlaylistId (pl_id playlist)) w = (Ok tt, w').
Proof.
  unfold mbind, M_bind, bind.
  destruct (getPlaylistList_returns w) as (playlists & w1 & ->).
  destruct (savePlaylistList_returns
              (upsert (infoOf playlist type xtreamCredentials meta) playlists)
              w1) as (w2 & ->).
  apply setActivePlaylistId_returns.
Qed.

(** Property X11.  Whatever fails in the store, a [savePlaylist] that throws
    has changed neither the summary list nor the active playlist id nor any
    key but the metadata and chunk keys of the playlist; and what it throws is
    the error that tells the user that the device is full, or else an error of
    the store that is not the out-of-space error. *)
Theorem failed_save_keeps_summary (playlist : Playlist)
        (type : option PlaylistType)
        (xtreamCredentials : option XtreamCredentials)
        (w w' : World) (e : Error) :
  savePlaylist playlist type xtreamCredentials w = (Throw e, w') →
  (e = deviceStorageFull ∨ (isDiskFull e = false ∧ ErrorOfStore e w))
  ∧ kv w' !! PLAYLISTS = kv w !! PLAYLISTS
  ∧ kv w' !! ACTIVE_PLAYLIST_ID = kv w !! ACTIVE_PLAYLIST_ID
  ∧ OnlyRecordsOf (pl_id playlist) w w'.
Proof.
  intros Hrun.
  assert ((e = deviceStorageFull ∨ (isDiskFull e = false ∧ ErrorOfStore e w))
          ∧ OnlyRecordsOf (pl_id playlist) w w') as [Herr Hframe].
  { destruct w as [m fs].
    unfold savePlaylist, tryCatch in Hrun.
    unfold mbind, M_bind, bind at 1 in Hrun.
    unfold setItem at 1, storageCall at 1, nextFault at 1 in Hrun.
    cbn [faults kv fst snd] in Hrun.
    assert (∀ e0 w0,
              ErrorOfStore e0 {| kv := m; faults := fs |} →
              OnlyRecordsOf (pl_id playlist) {| kv := m; faults := fs |} w0 →
              (if isDiskFull e0 then throw (A := unit) deviceStorageFull
               else throw e0) w0
              = (Throw e, w') →
              (e = deviceStorageFull
               ∨ (isDiskFull e = false
                  ∧ ErrorOfStore e {| kv := m; faults := fs |}))
              ∧ OnlyRecordsOf (pl_id playlist) {| kv := m; faults := fs |} w')
      as Hhandler.
    { intros e0 w0 He0 Hw0 Hthrow. destruct (isDiskFull e0) eqn:Hfull;
        injection Hthrow as <- <-; auto. }
    destruct (hd None fs) as [e0|] eqn:Hhead.
    - apply (Hhandler e0 _) in Hrun; [done| |by intros key _ _].
      exists 0. by destruct fs as [|? ?]; simplify_eq/=.
    - unfold bind at 1 in Hrun.
      destruct (saveChunks _ _ _ _ _) as [[meta'|e0] w2] eqn:Hchunks.
      + destruct (listing_never_throws playlist (default m3u type)
                    xtreamCredentials meta' w2) as [w3 Hrest].
        unfold mbind, M_bind in Hrest. rewrite Hrest in Hrun. done.
      + apply saveChunks_frame in Hchunks as [Hframe Herr].
        apply (Hhandler e0 _) in Hrun; [done| |].
        * by eapply errorOfStore_tail, Herr.
        * intros key Hmeta Hchunk. rewrite Hframe by done.
          by apply lookup_insert_ne. }
  split; [done|]. split_and!; [| |done].
  - apply Hframe; [apply playlists_metaKey|apply playlists_chunkKey].
  - apply Hframe; [apply active_metaKey|apply active_chunkKey].
Qed.

Lemma quiet_prefix (n k : nat) (rest : list (option Error)) :
  Forall (λ f, f = None) (take n (replicate (n + k) None ++ rest))
  ∧ drop n (replicate (n + k) None ++ rest) = replicate k None ++ rest.
Proof.
  rewrite replicate_add, <-app_assoc. split.
  - rewrite take_app_length' by (by rewrite length_replicate).
    apply Forall_forall. by intros f [-> _]%elem_of_replicate.
  - by rewrite drop_app_length' by (by rewrite length_replicate).
Qed.

Lemma getPlaylistList_next (m : gmap string Stored) (f : option Error)
      (fs : list (option Error)) :
  getPlaylistList {| kv := m; faults := f :: fs |}
  = (Ok (match f with Some _ => [] | None => summaryOf m end),
     {| kv := m; faults := fs |}).
Proof.
  run. destruct f; [done|]. unfold summaryOf.
  by destruct (m !! PLAYLISTS) as [[| | |[|]]|].
Qed.


(** The store once the metadata record and the chunks are written. *)
Lemma savePlaylist_records (playlist : Playlist) (type : option PlaylistType)
      (xtreamCredentials : option XtreamCredentials) (m : gmap string Stored)
      (k : nat) (rest : list (option Error)) :
  let meta := metaOf playlist (default m3u type) xtreamCredentials in
  let m1 := writeChunks playlist 0 (chunkCount meta)
              (<[metaKey (pl_id playlist) := SMeta meta]> m) in
  savePlaylist playlist type xtreamCredentials
    {| kv := m; faults := replicate (S (chunkCount meta) + k) None ++ rest |}
  = tryCatch
      (playlists ← getPlaylistList;
       savePlaylistList
         (upsert (infoOf playlist (default m3u type) xtreamCredentials meta)
                 playlists);;
       setActivePlaylistId (pl_id playlist))
      (λ error,
         if isDiskFull error then throw deviceStorageFull else throw error)
      {| kv := m1; faults := replicate k None ++ rest |}.
Proof.
  intros meta m1. unfold m1.
  unfold savePlaylist, tryCatch, mbind, M_bind, bind at 1 2.
  unfold setItem, storageCall, nextFault. fold meta.
  generalize (chunkCount meta). intros n.
  destruct (quiet_prefix n k rest) as [Hpass Hdrop].
  simpl. rewrite saveChunks_pass by done. by rewrite Hdrop.
Qed.


(** Property X13.  When the read of the summary list fails, [savePlaylist]
    takes the list for empty and writes a list of the one new entry, whatever
    entries the store held. *)
Theorem save_overwrites_unreadable_summary (playlist : Playlist)
        (type : option PlaylistType)
        (xtreamCredentials : option XtreamCredentials)
        (m : gmap string Stored) (e : Error) :
  let meta := metaOf playlist (default m3u type) xtreamCredentials in
  ∃ m',
    savePlaylist playlist type xtreamCredentials
      {| kv := m; faults := replicate (S (chunkCount meta)) None ++ [Some e] |}
    = (Ok tt, calm m')
    ∧ summaryOf m'
      = [infoOf playlist (default m3u type) xtreamCredentials meta].
Proof.
  intros meta. eexists. split.
  - unfold meta.
    replace (S (chunkCount (metaOf playlist (default m3u type) xtreamCredentials)))
      with (S (chunkCount (metaOf playlist (default m3u type) xtreamCredentials)) + 0)
      by lia.
    rewrite (savePlaylist_records playlist type xtreamCredentials m 0 [Some e]).
    unfold tryCatch, mbind, M_bind, bind. cbn [replicate app].
    rewrite getPlaylistList_next, savePlaylistList_calm.
    by rewrite setActivePlaylistId_calm.
  - unfold summaryOf. rewrite lookup_insert_ne by apply active_playlists.
    by rewrite lookup_insert_eq.
Qed.

(** *** Playlists of different ids *)

Lemma savedStore_other (playlist : Playlist) (type : option PlaylistType)
      (xtreamCredentials : option XtreamCredentials) (m : gmap string Stored)
      (key : string) :
  key ≠ PLAYLISTS → key ≠ ACTIVE_PLAYLIST_ID →
  key ≠ metaKey (pl_id playlist) →
  (∀ j, key ≠ chunkKey (pl_id playlist) j) →
  savedStore playlist type xtreamCredentials m !! key = m !! key.
Proof.
  intros Hlist Hactive Hmeta Hchunk. unfold savedStore.
  rewrite !lookup_insert_ne by done.
  rewrite writeChunks_other by (intros j _; apply Hchunk).
  by rewrite lookup_insert_ne.
Qed.

Lemma readChunks_ext (id : string) (i n : nat) (m m' : gmap string Stored) :
  (∀ j, m' !! chunkKey id j = m !! chunkKey id j) →
  readChunks id i n m' = readChunks id i n m.
Proof.
  intros Hsame. revert i. induction n as [|n IH]; intros i; [done|].
  simpl. by rewrite Hsame, IH.
Qed.

Lemma loadedFrom_ext (id : string) (m m' : gmap string Stored) :
  m' !! metaKey id = m !! metaKey id →
  (∀ j, m' !! chunkKey id j = m !! chunkKey id j) →
  loadedFrom id m' = loadedFrom id m.
Proof.
  intros Hmeta Hchunks. unfold loadedFrom. rewrite Hmeta.
  destruct (m !! metaKey id) as [[| | |]|]; try done.
  by rewrite (readChunks_ext _ _ _ m).
Qed.

Lemma savedStore_loaded (playlist : Playlist) (type : option PlaylistType)
      (xtreamCredentials : option XtreamCredentials) (m : gmap string Stored) :
  ∃ loaded,
    loadedFrom (pl_id playlist) (savedStore playlist type xtreamCredentials m)
    = Some loaded
    ∧ pl_id loaded = pl_id playlist
    ∧ pl_name loaded = pl_name playlist
    ∧ Forall2 Reloaded (channels playlist) (channels loaded).
Proof.
  eexists. split.
  - unfold loadedFrom. by rewrite savedStore_meta.
  - cbn [pl_id pl_name channels metaOf meta_id meta_name].
    split_and!; try done.
    rewrite savedStore_channels. apply expand_minimize_Reloaded.
Qed.

Lemma savedStore_loaded_other (playlist : Playlist) (type : option PlaylistType)
      (xtreamCredentials : option XtreamCredentials) (m : gmap string Stored)
      (id : string) :
  id ≠ pl_id playlist →
  loadedFrom id (savedStore playlist type xtreamCredentials m) = loadedFrom id m.
Proof.
  intros Hid. apply loadedFrom_ext.
  - apply savedStore_other.
    + symmetry. apply playlists_metaKey.
    + symmetry. apply active_metaKey.
    + by intros ?%metaKey_inj.
    + intros j. apply metaKey_chunkKey.
  - intros j. apply savedStore_other.
    + symmetry. apply playlists_chunkKey.
    + symmetry. apply active_chunkKey.
    + symmetry. apply metaKey_chunkKey.
    + by intros j' [? _]%chunkKey_inj_id.
Qed.

Lemma elem_of_upsert (playlistInfo : PlaylistInfo) (l : list PlaylistInfo) :
  playlistInfo ∈ upsert playlistInfo l.
Proof.
  induction l as [|p l IH].
  - unfold upsert. simpl. set_solver.
  - rewrite upsert_cons. case_bool_decide; set_solver.
Qed.

Lemma elem_of_upsert_other (playlistInfo p : PlaylistInfo)
      (l : list PlaylistInfo) :
  info_id p ≠ info_id playlistInfo → p ∈ l → p ∈ upsert playlistInfo l.
Proof.
  intros Hne. induction l as [|q l IH]; [set_solver|].
  rewrite upsert_cons. intros [->|Hp]%elem_of_cons.
  - rewrite bool_decide_false by done. set_solver.
  - case_bool_decide; set_solver.
Qed.

(** Property X14.  Saving a playlist of another id leaves a saved playlist as
    it is: [getPlaylist] of the first id still returns it, both are in the
    summary list, and the one saved last is the active one. *)
Theorem saves_of_other_ids_keep_playlist (first second : Playlist)
        (type1 type2 : option PlaylistType)
        (cred1 cred2 : option XtreamCredentials) (w : World) :
  faults w = [] →
  pl_id first ≠ "" →
  pl_id second ≠ pl_id first →
  ∃ w1 w2 w3 loaded,
    savePlaylist first type1 cred1 w = (Ok tt, w1)
    ∧ savePlaylist second type2 cred2 w1 = (Ok tt, w2)
    ∧ getPlaylist (Some (pl_id first)) w2 = (Ok (Some loaded), w3)
    ∧ pl_id loaded = pl_id first
    ∧ pl_name loaded = pl_name first
    ∧ Forall2 Reloaded (channels first) (channels loaded)
    ∧ (∃ p, p ∈ summaryOf (kv w2) ∧ info_id p = pl_id first)
    ∧ (∃ p, p ∈ summaryOf (kv w2) ∧ info_id p = pl_id second)
    ∧ activeOf (kv w2) = Some (pl_id second).
Proof.
  destruct w as [m fs]. simpl. intros -> Hid Hne.
  destruct (savedStore_loaded first type1 cred1 m)
    as (loaded & Hloaded & Hlid & Hname & Hchannels).
  eexists. eexists. eexists. exists loaded.
  split; [apply savePlaylist_calm|]. split; [apply savePlaylist_calm|].
  split.
  { rewrite getPlaylist_calm by done.
    by rewrite savedStore_loaded_other, Hloaded by done. }
  split_and!; try done.
  - exists (infoOf first (default m3u type1) cred1
                   (metaOf first (default m3u type1) cred1)).
    split; [|done]. cbn [kv]. rewrite !savedStore_summary.
    apply elem_of_upsert_other; [done|apply elem_of_upsert].
  - exists (infoOf second (default m3u type2) cred2
                   (metaOf second (default m3u type2) cred2)).
    split; [|done]. cbn [kv]. rewrite savedStore_summary.
    apply elem_of_upsert.
  - apply savedStore_active.
Qed.

(** *** Deleting, again *)

Lemma deletedStore_unlisted (id : string) (meta : PlaylistMeta)
      (m : gmap string Stored) :
  deletedStore id meta m
  = unlistedStore id (foldr delete m (keysToRemove id (chunkCount meta))).
Proof. done. Qed.

Lemma deletePlaylist_unlisted (id : string) (m : gmap string Stored) :
  m !! metaKey id = None ∨ m !! metaKey id = Some (SText "") →
  deletePlaylist id (calm m) = (Ok tt, calm (unlistedStore id m)).
Proof.
  intros Hmeta. unfold deletePlaylist, unlistedStore.
  unfold tryCatch, mbind, M_bind, bind at 1 2.
  unfold getItem, storageCall, nextFault. cbn [faults hd kv fst snd tail].
  assert ((match m !! metaKey id with
           | Some (SMeta meta) => multiRemove (keysToRemove id (chunkCount meta))
           | Some (SText "") | None => ret tt
           | Some _ => throw parseFailure
           end) (calm m) = (Ok tt, calm m)) as ->
    by (destruct Hmeta as [H|H]; rewrite H; reflexivity).
  unfold bind at 1. rewrite getPlaylistList_calm.
  unfold bind at 1. rewrite savePlaylistList_calm.
  unfold bind at 1. rewrite getActivePlaylistId_calm.
  fold (withoutId id (summaryOf m)).
  case_bool_decide; [|done].
  destruct (withoutId id (summaryOf m)) as [|first rest].
  - by run.
  - by rewrite setActivePlaylistId_calm.
Qed.

Lemma deletePlaylist_unreadable (id : string) (m : gmap string Stored) :
  (∃ v, m !! metaKey id = Some v
        ∧ (∀ meta, v ≠ SMeta meta) ∧ v ≠ SText "") →
  deletePlaylist id (calm m) = (Ok tt, calm m).
Proof.
  intros (v & Hv & Hmeta & Htext). unfold deletePlaylist.
  unfold tryCatch, mbind, M_bind, bind at 1 2.
  unfold getItem, storageCall, nextFault. cbn [faults hd kv fst snd tail].
  rewrite Hv. destruct v as [meta| | |[|]]; try done. by destruct (Hmeta meta).
Qed.

Lemma withoutId_idemp (id : string) (l : list PlaylistInfo) :
  withoutId id (withoutId id l) = withoutId id l.
Proof.
  unfold withoutId. induction l as [|p l IH]; [done|].
  destruct (decide (info_id p ≠ id)).
  - rewrite (filter_cons_True _ p l) by done.
    rewrite filter_cons_True by done. by rewrite IH.
  - by rewrite (filter_cons_False _ p l) by done.
Qed.

Lemma unlistedStore_summary (id : string) (m : gmap string Stored) :
  unlistedStore id m !! PLAYLISTS = Some (SInfos (withoutId id (summaryOf m))).
Proof.
  unfold unlistedStore. case_bool_decide.
  - destruct (withoutId id (summaryOf m)) as [|first rest].
    + rewrite lookup_delete_ne by apply active_playlists.
      apply lookup_insert_eq.
    + rewrite lookup_insert_ne by apply active_playlists.
      apply lookup_insert_eq.
  - apply lookup_insert_eq.
Qed.

Lemma unlistedStore_active (id : string) (m : gmap string Stored) :
  activeOf (unlistedStore id m) ≠ Some id.
Proof.
  unfold unlistedStore. case_bool_decide as Hactive; [|done].
  destruct (withoutId id (summaryOf m)) as [|first rest] eqn:Hfiltered.
  - unfold activeOf. by rewrite lookup_delete_eq.
  - unfold activeOf. rewrite lookup_insert_eq. intros [= Hid].
    assert (first ∈ withoutId id (summaryOf m)) as Hin
      by (rewrite Hfiltered; set_solver).
    unfold withoutId in Hin. by apply list_elem_of_filter in Hin as [? _].
Qed.

Lemma unlistedStore_other (id : string) (m : gmap string Stored)
      (key : string) :
  key ≠ PLAYLISTS → key ≠ ACTIVE_PLAYLIST_ID →
  unlistedStore id m !! key = m !! key.
Proof.
  intros Hlist Hactive. unfold unlistedStore. case_bool_decide.
  - destruct (withoutId id (summaryOf m)) as [|first rest].
    + rewrite lookup_delete_ne by done. by rewrite lookup_insert_ne.
    + by rewrite !lookup_insert_ne.
  - by rewrite lookup_insert_ne.
Qed.

Lemma unlistedStore_idemp (id : string) (m : gmap string Stored) :
  unlistedStore id (unlistedStore id m) = unlistedStore id m.
Proof.
  pose proof (unlistedStore_summary id m) as Hsummary.
  pose proof (unlistedStore_active id m) as Hactive.
  set (m' := unlistedStore id m) in *.
  unfold unlistedStore at 1.
  assert (summaryOf m' = withoutId id (summaryOf m)) as ->
    by (unfold summaryOf at 1; by rewrite Hsummary).
  rewrite withoutId_idemp, insert_id by done.
  by rewrite bool_decide_false.
Qed.

(** Property X15.  [deletePlaylist] is idempotent: whatever the store holds,
    deleting the same id a second time changes nothing. *)
Theorem deletePlaylist_idempotent (id : string) (m : gmap string Stored) :
  ∃ m',
    deletePlaylist id (calm m) = (Ok tt, calm m')
    ∧ deletePlaylist id (calm m') = (Ok tt, calm m').
Proof.
  assert (∀ m0, unlistedStore id m0 !! metaKey id = m0 !! metaKey id) as Hkept.
  { intros m0. apply unlistedStore_other.
    - symmetry. apply playlists_metaKey.
    - symmetry. apply active_metaKey. }
  assert (m !! metaKey id = None ∨ m !! metaKey id = Some (SText "") →
          ∃ m', deletePlaylist id (calm m) = (Ok tt, calm m')
                ∧ deletePlaylist id (calm m') = (Ok tt, calm m')) as Habsent.
  { intros Hmeta. exists (unlistedStore id m).
    split; [by apply deletePlaylist_unlisted|].
    rewrite deletePlaylist_unlisted, unlistedStore_idemp; [done|].
    by rewrite Hkept. }
  destruct (m !! metaKey id) as [[meta|chunk|playlists|[|c text]]|] eqn:Hmeta;
    [|exists m; split; apply deletePlaylist_unreadable; eexists;
       (split; [done|by split])..|auto|exists m; split;
       apply deletePlaylist_unreadable; eexists; (split; [done|by split])|auto].
  exists (deletedStore id meta m). split; [by apply deletePlaylist_calm|].
  rewrite deletePlaylist_unlisted by (left; apply deletedStore_meta).
  by rewrite deletedStore_unlisted, unlistedStore_idemp.
Qed.



(** *** Clearing the store *)

Lemma lookup_remove_keys (P : string → bool) (m : gmap string Stored)
      (key : string) :
  foldr delete m (filter (λ key : string, P key) (map_to_list m).*1) !! key
  = if P key then None else m !! key.
Proof.
  destruct (P key) eqn:HP.
  - destruct (m !! key) as [v|] eqn:Hkey.
    + apply lookup_foldr_delete, list_elem_of_filter. split; [by rewrite HP|].
      apply list_elem_of_fmap. exists (key, v).
      split; [done|]. by apply elem_of_map_to_list.
    + rewrite <-Hkey. apply lookup_foldr_delete_not_elem_of.
      intros [_ Hin]%list_elem_of_filter.
      apply list_elem_of_fmap in Hin as ([key' v] & -> & Hin).
      apply elem_of_map_to_list in Hin. simpl in Hkey. congruence.
  - apply lookup_foldr_delete_not_elem_of.
    intros [HP' _]%list_elem_of_filter. rewrite HP in HP'. done.
Qed.

Lemma remove_keys_calm (P : string → bool) (m : gmap string Stored) :
  let keys := filter (λ key : string, P key) (map_to_list m).*1 in
  (if bool_decide (0 < length keys) then multiRemove keys else ret tt) (calm m)
  = (Ok tt, calm (foldr delete m keys)).
Proof.
  intros keys. case_bool_decide as Hlen; [by run|].
  destruct keys; [done|simpl in Hlen; lia].
Qed.

Lemma startsWith_app (p s : string) : startsWith (p +:+ s) p = true.
Proof.
  induction p as [|c p IH]; [by destruct s|]. simpl.
  by rewrite bool_decide_true.
Qed.

Lemma app_key_metaKey (id : string) : startsWith (metaKey id) "prysm_" = true.
Proof. apply (startsWith_app "prysm_" ("playlist_meta_" +:+ id)). Qed.

Lemma app_key_chunkKey (id : string) (j : nat) :
  startsWith (chunkKey id j) "prysm_" = true.
Proof.
  apply (startsWith_app "prysm_" ("playlist_chunks_" +:+ id +:+ "_" +:+ pretty j)).
Qed.

(** Property X17.  [clearAllData] removes the keys that begin with "prysm_" or
    "iptv_" and no other key; no playlist, summary list or active id is left.
    When listing the keys fails, nothing is removed and nothing is reported. *)
Theorem clearAllData_removes_app_keys (m : gmap string Stored) :
  (∃ m',
     clearAllData (calm m) = (Ok tt, calm m')
     ∧ without (λ key, startsWith key "prysm_" || startsWith key "iptv_") m m'
     ∧ summaryOf m' = []
     ∧ activeOf m' = None
     ∧ (∀ id, NoKeyFor id m'))
  ∧ (∀ e rest,
       clearAllData {| kv := m; faults := Some e :: rest |}
       = (Ok tt, {| kv := m; faults := rest |})).
Proof.
  split; [|done]. eexists. split.
  - unfold clearAllData, tryCatch, mbind, M_bind, bind at 1.
    unfold getAllKeys, storageCall, nextFault. cbn [faults hd kv fst snd tail].
    by rewrite (remove_keys_calm
                  (λ key, startsWith key "prysm_" || startsWith key "iptv_")).
  - assert (without (λ key, startsWith key "prysm_" || startsWith key "iptv_") m
              (foldr delete m
                 (filter (λ key : string,
                            startsWith key "prysm_" || startsWith key "iptv_")
                         (map_to_list m).*1))) as Hwithout
      by (intros key; apply lookup_remove_keys).
    split; [done|]. split_and!.
    + unfold summaryOf. by rewrite Hwithout.
    + unfold activeOf. by rewrite Hwithout.
    + intros id. split_and!.
      * by rewrite Hwithout, app_key_metaKey.
      * intros j. by rewrite Hwithout, app_key_chunkKey.
      * unfold summaryOf. by rewrite Hwithout.
Qed.

Lemma startsWith_meta_metaKey (id : string) :
  startsWith (metaKey id) PLAYLIST_META = true.
Proof. apply startsWith_app. Qed.

Lemma startsWith_chunks_chunkKey (id : string) (j : nat) :
  startsWith (chunkKey id j) PLAYLIST_CHUNKS = true.
Proof. apply (startsWith_app PLAYLIST_CHUNKS (id +:+ "_" +:+ pretty j)). Qed.

(** Property X18.  [clearPlaylist] removes every key that begins with the
    metadata or the chunk prefix, the summary list and the active id, and no
    other key: no record of any playlist is left, chunk records beyond the
    chunk count of their metadata included. *)
Theorem clearPlaylist_leaves_no_record (m : gmap string Stored) :
  ∃ m',
    clearPlaylist (calm m) = (Ok tt, calm m')
    ∧ without (λ key, startsWith key PLAYLIST_META
                      || startsWith key PLAYLIST_CHUNKS
                      || bool_decide (key = PLAYLISTS)
                      || bool_decide (key = ACTIVE_PLAYLIST_ID)) m m'
    ∧ (∀ id, NoKeyFor id m').
Proof.
  set (P := λ key : string,
         startsWith key PLAYLIST_META || startsWith key PLAYLIST_CHUNKS).
  set (m1 := foldr delete m (filter (λ key : string, P key) (map_to_list m).*1)).
  exists (delete ACTIVE_PLAYLIST_ID (delete PLAYLISTS m1)).
  assert (without (λ key, P key || bool_decide (key = PLAYLISTS)
                          || bool_decide (key = ACTIVE_PLAYLIST_ID)) m
            (delete ACTIVE_PLAYLIST_ID (delete PLAYLISTS m1))) as Hwithout.
  { intros key. destruct (decide (key = ACTIVE_PLAYLIST_ID)) as [->|Hactive].
    { by rewrite lookup_delete_eq. }
    rewrite lookup_delete_ne by done.
    destruct (decide (key = PLAYLISTS)) as [->|Hlist].
    { by rewrite lookup_delete_eq. }
    rewrite lookup_delete_ne by done.
    unfold m1. rewrite lookup_remove_keys.
    rewrite (bool_decide_false (key = PLAYLISTS)) by done.
    rewrite (bool_decide_false (key = ACTIVE_PLAYLIST_ID)) by done.
    by rewrite !orb_false_r. }
  split; [|split; [done|]].
  - unfold clearPlaylist, tryCatch, mbind, M_bind, bind at 1.
    unfold getAllKeys, storageCall, nextFault. cbn [faults hd kv fst snd tail].
    unfold bind at 1. rewrite (remove_keys_calm P). fold m1. by run.
  - intros id. split_and!.
    + rewrite Hwithout. unfold P. by rewrite startsWith_meta_metaKey.
    + intros j. rewrite Hwithout. unfold P.
      by rewrite startsWith_chunks_chunkKey, orb_true_r.
    + unfold summaryOf. by rewrite Hwithout.
Qed.

(** *** Renaming *)

Lemma renamedList_cons (id name : string) (url : option string)
      (p : PlaylistInfo) (l : list PlaylistInfo) :
  renamedList id name url (p :: l)
  = if bool_decide (info_id p = id) then renamedInfo name url p :: l
    else p :: renamedList id name url l.
Proof.
  unfold renamedList. simpl. case_bool_decide; [done|].
  by destruct (findIndex id l).
Qed.

Lemma renamedList_ids (id name : string) (url : option string)
      (l : list PlaylistInfo) :
  info_id <$> renamedList id name url l = info_id <$> l.
Proof.
  induction l as [|p l IH]; [done|]. rewrite renamedList_cons.
  case_bool_decide; [done|]. rewrite !fmap_cons. by rewrite IH.
Qed.

Lemma renamedList_first (id name : string) (url : option string)
      (l : list PlaylistInfo) :
  head (entriesFor id (renamedList id name url l))
  = renamedInfo name url <$> head (entriesFor id l).
Proof.
  unfold entriesFor. induction l as [|p l IH]; [done|].
  rewrite renamedList_cons. case_bool_decide as Hp.
  - rewrite filter_cons_True by done. by rewrite filter_cons_True by done.
  - rewrite !filter_cons_False by done. apply IH.
Qed.

Lemma findIndex_None (id : string) (l : list PlaylistInfo) :
  entriesFor id l = [] → findIndex id l = None.
Proof.
  unfold entriesFor. induction l as [|p l IH]; [done|]. simpl.
  case_bool_decide as Hp.
  - by rewrite filter_cons_True by done.
  - rewrite filter_cons_False by done. intros ->%IH. done.
Qed.

Lemma updatePlaylistInfo_calm (id name : string) (url : option string)
      (meta : PlaylistMeta) (m : gmap string Stored) :
  m !! metaKey id = Some (SMeta meta) →
  updatePlaylistInfo id name url (calm m)
  = (Ok tt, calm (renamedStore id name url meta m)).
Proof.
  intros Hmeta. unfold updatePlaylistInfo, renamedStore.
  unfold tryCatch, mbind, M_bind, bind at 1 2.
  unfold getItem, storageCall, nextFault. cbn [faults hd kv fst snd tail].
  rewrite Hmeta. unfold setItem, storageCall, nextFault.
  cbn [faults hd kv fst snd tail].
  unfold bind at 1. rewrite getPlaylistList_calm.
  destruct (findIndex id _); [|done]. by rewrite savePlaylistList_calm.
Qed.

Lemma renamedStore_summary (id name : string) (url : option string)
      (meta : PlaylistMeta) (m : gmap string Stored) :
  summaryOf (renamedStore id name url meta m)
  = renamedList id name url (summaryOf m).
Proof.
  unfold renamedStore, renamedList.
  assert (summaryOf (<[metaKey id := SMeta (renamedMeta meta name url)]> m)
          = summaryOf m) as ->.
  { unfold summaryOf.
    by rewrite lookup_insert_ne by (symmetry; apply playlists_metaKey). }
  destruct (findIndex id (summaryOf m)).
  - unfold summaryOf at 1. by rewrite lookup_insert_eq.
  - unfold summaryOf at 1.
    by rewrite lookup_insert_ne by (symmetry; apply playlists_metaKey).
Qed.

Lemma renamedStore_other (id name : string) (url : option string)
      (meta : PlaylistMeta) (m : gmap string Stored) (key : string) :
  key ≠ metaKey id → key ≠ PLAYLISTS →
  renamedStore id name url meta m !! key = m !! key.
Proof.
  intros Hmeta Hlist. unfold renamedStore.
  destruct (findIndex id _); by rewrite !lookup_insert_ne.
Qed.

Lemma renamedStore_meta (id name : string) (url : option string)
      (meta : PlaylistMeta) (m : gmap string Stored) :
  renamedStore id name url meta m !! metaKey id
  = Some (SMeta (renamedMeta meta name url)).
Proof.
  unfold renamedStore. destruct (findIndex id _).
  - rewrite lookup_insert_ne by apply playlists_metaKey. apply lookup_insert_eq.
  - apply lookup_insert_eq.
Qed.

(** Property X19.  Renaming a playlist that [getPlaylist] returns changes its
    name, and its url when one is given, and nothing else of it: the channels,
    categories and time stamp are the same.  In the summary list the first
    entry of the id is renamed alike; the ids of the list and every other key
    of the store are as before. *)
Theorem rename_keeps_channels (id name : string) (url : option string)
        (m : gmap string Stored) (loaded : Playlist) :
  id ≠ "" →
  getPlaylist (Some id) (calm m) = (Ok (Some loaded), calm m) →
  ∃ m',
    updatePlaylistInfo id name url (calm m) = (Ok tt, calm m')
    ∧ getPlaylist (Some id) (calm m')
      = (Ok (Some (renamed name url loaded)), calm m')
    ∧ info_id <$> summaryOf m' = info_id <$> summaryOf m
    ∧ head (entriesFor id (summaryOf m'))
      = renamedInfo name url <$> head (entriesFor id (summaryOf m))
    ∧ (∀ key, key ≠ metaKey id → key ≠ PLAYLISTS → m' !! key = m !! key).
Proof.
  intros Hid. rewrite getPlaylist_calm by done. intros [= Hloaded].
  unfold loadedFrom in Hloaded.
  destruct (m !! metaKey id) as [[meta| | |]|] eqn:Hmeta; try done.
  injection Hloaded as <-.
  exists (renamedStore id name url meta m). split_and!.
  - by apply updatePlaylistInfo_calm.
  - rewrite getPlaylist_calm by done. unfold loadedFrom.
    rewrite renamedStore_meta. unfold renamed. cbn.
    do 2 f_equal. rewrite (readChunks_ext id 0 (chunkCount meta) m); [done|].
    intros j.
    apply renamedStore_other.
    + symmetry. apply metaKey_chunkKey.
    + symmetry. apply playlists_chunkKey.
  - rewrite renamedStore_summary. apply renamedList_ids.
  - rewrite renamedStore_summary. apply renamedList_first.
  - intros key. apply renamedStore_other.
Qed.

(** Property X20.  For an id without a metadata record and without an entry in
    the summary list, [updatePlaylistInfo] returns normally and writes
    nothing. *)
Theorem rename_unknown_writes_nothing (id name : string)
        (url : option string) (m : gmap string Stored) :
  m !! metaKey id = None →
  entriesFor id (summaryOf m) = [] →
  updatePlaylistInfo id name url (calm m) = (Ok tt, calm m).
Proof.
  intros Hmeta Hentries%findIndex_None. unfold updatePlaylistInfo.
  unfold tryCatch, mbind, M_bind, bind at 1 2.
  unfold getItem, storageCall, nextFault. cbn [faults hd kv fst snd tail].
  rewrite Hmeta. unfold ret at 1.
  unfold bind at 1. rewrite getPlaylistList_calm. by rewrite Hentries.
Qed.

(** Property X21.  Unlike the other operations on playlists,
    [updatePlaylistInfo] lets a failure through: when the read of the metadata
    record or its write fails, the error is thrown as it is and the store is
    unchanged. *)
Theorem rename_failure_propagates (id name : string) (url : option string)
        (w : World) (k : nat) (e : Error) (rest : list (option Error)) :
  faults w = replicate k None ++ Some e :: rest →
  k = 0 ∨ (k = 1 ∧ ∃ meta, kv w !! metaKey id = Some (SMeta meta)) →
  updatePlaylistInfo id name url w
  = (Throw e, {| kv := kv w; faults := rest |}).
Proof.
  destruct w as [m fs]. simpl. intros -> [->|[-> [meta Hmeta]]].
  - by run.
  - unfold updatePlaylistInfo, tryCatch, mbind, M_bind, bind at 1 2.
    unfold getItem, storageCall, nextFault. cbn [faults hd kv fst snd tail].
    simpl. rewrite Hmeta. by run.
Qed.

End StorageFacts.

Section StorageExamples.
Import JS Storage Examples.

Lemma save_then_load_witness :
  faults (calm ∅) = []
  ∧ pl_id emptyLogoPlaylist ≠ ""
  ∧ RoundTrip Reloaded emptyLogoPlaylist None None (calm ∅).
Proof.
  split_and!; [reflexivity|done|].
  apply (save_then_load emptyLogoPlaylist None None (calm ∅)); [reflexivity|done].
Defined.

(** Claim C1 as stated fails twice: a channel saved with the empty logo
    comes back without a logo, and a playlist saved under the empty id is not
    found again, [getPlaylist] taking the empty id for no id. *)
Lemma empty_logo_not_reloaded :
  ¬ RoundTrip SameKeptFields emptyLogoPlaylist None None (calm ∅)
  ∧ ¬ RoundTrip SameKeptFields noIdPlaylist None None (calm ∅).
Proof.
  split.
  - intros (w' & w'' & loaded & Hsave & Hload & Hsame).
    rewrite savePlaylist_calm in Hsave. injection Hsave as <-.
    rewrite getPlaylist_calm in Hload by done.
    unfold loadedFrom in Hload. rewrite savedStore_meta in Hload.
    injection Hload as <- _. vm_compute in Hsame.
    apply Forall2_cons_1 in Hsame as [(_ & _ & _ & _ & Hlogo) _].
    discriminate Hlogo.
  - intros (w' & w'' & loaded & Hsave & Hload & _).
    rewrite savePlaylist_calm in Hsave. injection Hsave as <-.
    vm_compute in Hload. discriminate Hload.
Qed.

Lemma quota_truncates_witness :
  FailsAtChunk 0 diskFull fullAtChunk0
  ∧ TruncatedAt smallPlaylist None None 0 fullAtChunk0.
Proof.
  apply (quota_truncates smallPlaylist None None fullAtChunk0 0 diskFull);
    [reflexivity|reflexivity|vm_compute; lia|done].
Defined.

(** Claim C2 as stated fails twice.  When the store also rejects the rewrite
    of the metadata record, [savePlaylist] does not return: it throws the
    device-storage-full error.  And a playlist saved under the empty id is
    not found by [getPlaylist]. *)
Lemma rewrite_rejected_fails_save :
  (FailsAtChunk 0 diskFull fullFromChunk0
   ∧ 0 < ceilDiv (length (channels smallPlaylist)) CHUNK_SIZE
   ∧ (savePlaylist smallPlaylist None None fullFromChunk0).1
     = Throw deviceStorageFull
   ∧ ¬ TruncatedAt smallPlaylist None None 0 fullFromChunk0)
  ∧ (FailsAtChunk 0 diskFull fullAtChunk0
     ∧ 0 < ceilDiv (length (channels noIdPlaylist)) CHUNK_SIZE
     ∧ ¬ TruncatedAt noIdPlaylist None None 0 fullAtChunk0).
Proof.
  split.
  - split_and!; [by vm_compute|vm_compute; lia|by vm_compute|].
    intros (w' & meta & w'' & loaded & Hsave & _).
    apply (f_equal fst) in Hsave. vm_compute in Hsave. discriminate Hsave.
  - split_and!; [by vm_compute|vm_compute; lia|].
    intros (w' & meta & w'' & loaded & Hsave & _ & _ & _ & _ & Hload & _).
    vm_compute in Hsave. injection Hsave as <-.
    vm_compute in Hload. discriminate Hload.
Qed.

Lemma chunk_error_propagates_witness :
  isDiskFull ioError = false
  ∧ Propagates smallPlaylist None None 0 ioError
      {| kv := ∅; faults := [None; Some ioError] |}.
Proof.
  split; [reflexivity|].
  apply (chunk_error_propagates smallPlaylist None None
           {| kv := ∅; faults := [None; Some ioError] |} 0 ioError []);
    [reflexivity|vm_compute; lia|reflexivity].
Defined.

Lemma save_twice_witness :
  length (entriesFor (pl_id bigPlaylist) (summaryOf ∅)) ≤ 1
  ∧ SecondSaveOver bigPlaylist smallPlaylist None None None None (calm ∅).
Proof.
  assert (length (entriesFor (pl_id bigPlaylist) (summaryOf ∅)) ≤ 1) as Hone
    by (vm_compute; lia).
  split; [exact Hone|].
  apply (save_twice bigPlaylist smallPlaylist None None None None (calm ∅));
    [reflexivity|reflexivity|exact Hone].
Defined.

(** Claim C3 as stated fails twice.  After a save of 301 channels, in two
    chunks, and a save of one channel under the same id, the metadata record
    counts one chunk but the chunk record of index 1 is still there.  And on
    a store whose summary list holds the id twice, two saves leave two
    entries. *)
Lemma orphan_chunk_after_smaller_save :
  (SavedTwice bigPlaylist smallPlaylist (calm ∅) (calm savedBigThenSmall)
   ∧ (∃ meta, savedBigThenSmall !! metaKey "p" = Some (SMeta meta)
              ∧ chunkCount meta = 1)
   ∧ ¬ ExactlyChunks "p" 1 savedBigThenSmall)
  ∧ (∃ w2, SavedTwice smallPlaylist smallPlaylist (calm duplicateStore) w2
           ∧ length (entriesFor "p" (summaryOf (kv w2))) = 2).
Proof.
  split; [split_and!|].
  - eexists. split; apply savePlaylist_calm.
  - eexists. split; [apply (savedStore_meta smallPlaylist)|by vm_compute].
  - intros Hexact. assert (1 < 1); [|lia]. apply Hexact.
    unfold savedBigThenSmall.
    rewrite (savedStore_chunk_beyond smallPlaylist) by (vm_compute; lia).
    rewrite (savedStore_chunk bigPlaylist) by (vm_compute; lia). by eexists.
  - eexists. split.
    + eexists. split; apply savePlaylist_calm.
    + cbn [kv]. rewrite !savedStore_summary. by vm_compute.
Qed.

Lemma delete_removes_witness :
  savedBigThenSmall !! metaKey "p" = Some (SMeta (metaOf smallPlaylist m3u None))
  ∧ DeletedFrom "p" (metaOf smallPlaylist m3u None) (calm savedBigThenSmall).
Proof.
  assert (savedBigThenSmall !! metaKey "p"
          = Some (SMeta (metaOf smallPlaylist m3u None))) as Hmeta
    by apply (savedStore_meta smallPlaylist).
  split; [exact Hmeta|].
  apply (delete_removes "p" (metaOf smallPlaylist m3u None)
           (calm savedBigThenSmall)); [reflexivity|exact Hmeta].
Defined.

(** Claim C5 as stated fails on the store the two saves above leave: its
    metadata record counts one chunk, [deletePlaylist] removes the chunk
    record of index 0 only, and the key of chunk 1 still refers to the id. *)
Lemma orphan_chunk_survives_delete :
  SavedTwice bigPlaylist smallPlaylist (calm ∅) (calm savedBigThenSmall)
  ∧ is_Some (savedBigThenSmall !! metaKey "p")
  ∧ ∃ w', deletePlaylist "p" (calm savedBigThenSmall) = (Ok tt, w')
          ∧ is_Some (kv w' !! chunkKey "p" 1)
          ∧ ¬ NoKeyFor "p" (kv w').
Proof.
  assert (deletedStore "p" (metaOf smallPlaylist m3u None) savedBigThenSmall
            !! chunkKey "p" 1
          = Some (SChunk (chunkOf bigPlaylist 1))) as Hleft.
  { rewrite deletedStore_chunk_beyond by (vm_compute; lia).
    unfold savedBigThenSmall.
    rewrite (savedStore_chunk_beyond smallPlaylist) by (vm_compute; lia).
    by rewrite (savedStore_chunk bigPlaylist) by (vm_compute; lia). }
  split_and!.
  - eexists. split; apply savePlaylist_calm.
  - eexists. apply (savedStore_meta smallPlaylist).
  - exists (calm (deletedStore "p" (metaOf smallPlaylist m3u None)
                                 savedBigThenSmall)).
    split_and!.
    + apply deletePlaylist_calm. apply (savedStore_meta smallPlaylist).
    + cbn [kv]. rewrite Hleft. by eexists.
    + intros (_ & Hchunks & _). specialize (Hchunks 1). cbn [kv] in Hchunks.
      rewrite Hleft in Hchunks. discriminate Hchunks.
Qed.
(** *** The further properties at work *)

Lemma load_skips_unreadable_chunk_witness :
  ∃ loaded,
    getPlaylist (Some "p") {| kv := savedSmall; faults := [None; Some ioError] |}
    = (Ok (Some loaded), calm savedSmall)
    ∧ channels loaded = [].
Proof.
  apply (load_skips_unreadable_chunk smallPlaylist None None ∅ 0 ioError);
    [done|vm_compute; lia].
Defined.

Lemma load_defaults_to_saved_playlist_witness :
  ∃ w' w'' loaded,
    savePlaylist smallPlaylist None None (calm ∅) = (Ok tt, w')
    ∧ getPlaylist None w' = (Ok (Some loaded), w'')
    ∧ pl_id loaded = "p"
    ∧ pl_name loaded = "My Playlist"
    ∧ pl_url loaded = None
    ∧ lastUpdated loaded = 0%Z
    ∧ categories loaded = ["Uncategorized"]
    ∧ Forall2 Reloaded (channels smallPlaylist) (channels loaded).
Proof.
  apply (load_defaults_to_saved_playlist smallPlaylist None None (calm ∅));
    done.
Defined.

Lemma failed_save_keeps_summary_witness :
  savePlaylist smallPlaylist None None fullFromChunk0
  = (Throw deviceStorageFull, failedSave)
  ∧ (deviceStorageFull = deviceStorageFull
     ∨ (isDiskFull deviceStorageFull = false
        ∧ ErrorOfStore deviceStorageFull fullFromChunk0))
  ∧ kv failedSave !! PLAYLISTS = kv fullFromChunk0 !! PLAYLISTS
  ∧ kv failedSave !! ACTIVE_PLAYLIST_ID = kv fullFromChunk0 !! ACTIVE_PLAYLIST_ID
  ∧ OnlyRecordsOf "p" fullFromChunk0 failedSave.
Proof.
  assert (savePlaylist smallPlaylist None None fullFromChunk0
          = (Throw deviceStorageFull, failedSave)) as Hrun by (by vm_compute).
  split; [exact Hrun|].
  exact (failed_save_keeps_summary smallPlaylist None None fullFromChunk0
           failedSave deviceStorageFull Hrun).
Defined.

Lemma saves_of_other_ids_keep_playlist_witness :
  ∃ w1 w2 w3 loaded,
    savePlaylist smallPlaylist None None (calm ∅) = (Ok tt, w1)
    ∧ savePlaylist otherPlaylist None None w1 = (Ok tt, w2)
    ∧ getPlaylist (Some "p") w2 = (Ok (Some loaded), w3)
    ∧ pl_id loaded = "p"
    ∧ pl_name loaded = "My Playlist"
    ∧ Forall2 Reloaded (channels smallPlaylist) (channels loaded)
    ∧ (∃ p, p ∈ summaryOf (kv w2) ∧ info_id p = "p")
    ∧ (∃ p, p ∈ summaryOf (kv w2) ∧ info_id p = "q")
    ∧ activeOf (kv w2) = Some "q".
Proof.
  apply (saves_of_other_ids_keep_playlist smallPlaylist otherPlaylist
           None None None None (calm ∅)); done.
Defined.


Lemma rename_keeps_channels_witness :
  ∃ m',
    updatePlaylistInfo "p" "Renamed" None (calm savedSmall) = (Ok tt, calm m')
    ∧ getPlaylist (Some "p") (calm m')
      = (Ok (Some (renamed "Renamed" None reloadedSmall)), calm m').
Proof.
  destruct (rename_keeps_channels "p" "Renamed" None savedSmall reloadedSmall)
    as (m' & Hupdate & Hload & _); [done|by vm_compute|].
  by exists m'.
Defined.

Lemma rename_unknown_writes_nothing_witness :
  updatePlaylistInfo "q" "Renamed" None (calm savedSmall)
  = (Ok tt, calm savedSmall).
Proof.
  apply (rename_unknown_writes_nothing "q" "Renamed" None savedSmall);
    by vm_compute.
Defined.

Lemma rename_failure_propagates_witness :
  updatePlaylistInfo "p" "Renamed" None
    {| kv := savedSmall; faults := [None; Some ioError] |}
  = (Throw ioError, calm savedSmall).
Proof.
  apply (rename_failure_propagates "p" "Renamed" None
           {| kv := savedSmall; faults := [None; Some ioError] |} 1 ioError []);
    [reflexivity|].
  right. split; [reflexivity|]. eexists. by vm_compute.
Defined.

End StorageExamples.


(** ** The playlist context *)

Section ContextFacts.
Import JS M3U Context.

(** *** The index of the categories *)

Lemma orElse_same (s : string) : orElse (Some s) "" = s.
Proof. by destruct s. Qed.

Lemma categoryIndex_fold (l : list Channel) (map : gmap string (list Channel))
      (category : string) :
  default [] (fold_left categoryIndexStep l map !! category)
  = default [] (map !! category) ++ filter (λ ch, ch_group ch = category) l.
Proof.
  revert map. induction l as [|ch l IH]; intros map; simpl.
  - by rewrite app_nil_r.
  - rewrite IH. unfold categoryIndexStep. rewrite orElse_same.
    destruct (decide (ch_group ch = category)) as [<-|Hne].
    + rewrite filter_cons_True by done.
      destruct (map !! ch_group ch) as [arr|] eqn:Hgroup;
        rewrite lookup_insert_eq; simpl; by rewrite <-?app_assoc.
    + rewrite filter_cons_False by done.
      by destruct (map !! ch_group ch); rewrite lookup_insert_ne.
Qed.

Lemma getChannelsByCategory_filter (p : Playlist) (category : string) :
  category ≠ "All" →
  getChannelsByCategory (Some p) category
  = filter (λ ch, ch_group ch = category) (channels p).
Proof.
  intros Hall. unfold getChannelsByCategory, categoryIndexMap.
  rewrite bool_decide_false by done. by rewrite categoryIndex_fold.
Qed.

Lemma getChannelsByCategory_elem (p : Playlist) (c : Channel) :
  c ∈ channels p → c ∈ getChannelsByCategory (Some p) (ch_group c).
Proof.
  intros Hc. destruct (decide (ch_group c = "All")) as [Hall|Hall].
  - unfold getChannelsByCategory. by rewrite bool_decide_true.
  - rewrite getChannelsByCategory_filter by done.
    by apply list_elem_of_filter.
Qed.

(** Property X22.  The index of the categories returns what the filter of the
    channel list screen returns: with a blank search, [getChannelsByCategory]
    and [filteredChannels] give the same channels, those of the group in the
    order of the playlist, and all of them for "All". *)
Theorem category_index_agrees_with_screen (playlist : option Playlist)
        (searchQuery category : string) :
  trim searchQuery = "" →
  getChannelsByCategory playlist category
  = filteredChannels playlist searchQuery category.
Proof.
  intros Hblank. destruct playlist as [p|]; [|done].
  unfold filteredChannels. rewrite Hblank. cbn [nonEmpty].
  case_bool_decide as Hall; cbn [negb].
  - unfold getChannelsByCategory. by rewrite bool_decide_true.
  - by apply getChannelsByCategory_filter.
Qed.

(** *** The index of the channels *)

Lemma channelIndex_fold (l : list Channel) (map : gmap string Channel)
      (id : string) :
  fold_left (λ map ch, <[ch_id ch := ch]> map) l map !! id
  = match last (filter (λ ch, ch_id ch = id) l) with
    | Some ch => Some ch
    | None => map !! id
    end.
Proof.
  revert map. induction l as [|ch l IH]; intros map; [done|]. simpl.
  rewrite IH. destruct (decide (ch_id ch = id)) as [<-|Hne].
  - rewrite filter_cons_True by done. rewrite lookup_insert_eq.
    by destruct (filter _ l) as [|? ?] using rev_ind;
      rewrite ?app_comm_cons, ?last_snoc.
  - rewrite filter_cons_False by done. by rewrite lookup_insert_ne.
Qed.

Lemma getChannelById_last (p : Playlist) (id : string) :
  getChannelById (Some p) id
  = last (filter (λ ch, ch_id ch = id) (channels p)).
Proof.
  unfold getChannelById, channelIndexMap. rewrite channelIndex_fold.
  by destruct (last _).
Qed.

Lemma filter_none {A} (P : A → Prop) `{!∀ x, Decision (P x)} (l : list A) :
  (∀ y, y ∈ l → ¬ P y) → filter P l = [].
Proof.
  induction l as [|x l IH]; [done|]. intros Hnone.
  rewrite filter_cons_False by (apply Hnone; left).
  apply IH. intros y Hy. apply Hnone. by right.
Qed.

Lemma omap_length {A B} (f : A → option B) (l : list A) :
  length (omap f l) ≤ length l.
Proof.
  induction l as [|x l IH]; [done|]. csimpl.
  destruct (f x); cbn [length]; lia.
Qed.

Lemma filter_unique {A} (f : A → string) (l : list A) (c : A) :
  NoDup (f <$> l) → c ∈ l → filter (λ x, f x = f c) l = [c].
Proof.
  induction l as [|x l IH]; [by intros _ ?%elem_of_nil|].
  rewrite fmap_cons, NoDup_cons. intros [Hx Hnd] [->|Hc]%elem_of_cons.
  - rewrite filter_cons_True by done. f_equal.
    apply filter_none. intros y Hy Heq. apply Hx.
    rewrite <-Heq. apply list_elem_of_fmap. by exists y.
  - rewrite filter_cons_False; [by apply IH|].
    intros Heq. apply Hx. rewrite Heq. apply list_elem_of_fmap. by exists c.
Qed.

(** Property X23.  [getChannelById] returns a channel of the playlist that has
    the id asked for, and none only if no channel has it; among channels with
    pairwise distinct ids, every channel is found by its id. *)
Theorem channel_found_by_id (p : Playlist) :
  (∀ id c, getChannelById (Some p) id = Some c → c ∈ channels p ∧ ch_id c = id)
  ∧ (∀ id, getChannelById (Some p) id = None → id ∉ ch_id <$> channels p)
  ∧ (NoDup (ch_id <$> channels p) →
     ∀ c, c ∈ channels p → getChannelById (Some p) (ch_id c) = Some c).
Proof.
  split_and!.
  - intros id c. rewrite getChannelById_last.
    by intros [? ?]%last_Some_elem_of%list_elem_of_filter.
  - intros id. rewrite getChannelById_last.
    intros Hnone%last_None (c & -> & Hc)%list_elem_of_fmap.
    assert (c ∈ filter (λ ch, ch_id ch = ch_id c) (channels p)) as Hin
      by (by apply list_elem_of_filter).
    rewrite Hnone in Hin. by apply elem_of_nil in Hin.
  - intros Hnd c Hc. rewrite getChannelById_last.
    by rewrite (filter_unique ch_id).
Qed.

(** *** The categories of a parsed playlist *)

Section Parsed.
Variable localeCompare : string → string → Z.
Variable generateId : nat → string.
Variable now : Z.
Abbreviation parseM3U := (parseM3U localeCompare generateId now).

(** Property X24.  Every category of a parsed playlist has a channel to show,
    and every channel is shown under its group. *)
Theorem categories_have_channels (content : string) (name : option string) :
  let p := parseM3U content name in
  (∀ category, category ∈ categories p →
               getChannelsByCategory (Some p) category ≠ [])
  ∧ (∀ c, c ∈ channels p → c ∈ getChannelsByCategory (Some p) (ch_group c)).
Proof.
  intros p. split; [|apply getChannelsByCategory_elem].
  intros category Hcategory.
  destruct (parse_inv generateId content) as [_ _ _ Hgroups].
  unfold p in Hcategory. cbn [categories M3U.parseM3U] in Hcategory.
  rewrite sort_perm in Hcategory. apply Hgroups in Hcategory.
  apply list_elem_of_fmap in Hcategory as (c & -> & Hc).
  intros Hnone. apply (getChannelsByCategory_elem p) in Hc.
  rewrite Hnone in Hc. by apply elem_of_nil in Hc.
Qed.
End Parsed.

(** *** Searching *)

(** Property X25.  A blank query finds nothing.  Any other query finds the
    channels whose name or group holds it in some letter case; the query is
    matched as it was typed, surrounding white space included. *)
Theorem search_matches_as_typed (p : Playlist) (query : string) :
  (trim query = "" → searchChannels (Some p) query = [])
  ∧ (trim query ≠ "" →
     ∀ c, c ∈ searchChannels (Some p) query
          ↔ c ∈ channels p
            ∧ (HoldsLower (ch_name c) (toLowerCase query)
               ∨ HoldsLower (ch_group c) (toLowerCase query))).
Proof.
  unfold searchChannels. split.
  - by intros ->.
  - intros Hquery%nonEmpty_true c. rewrite Hquery. cbn [negb].
    rewrite list_elem_of_filter, Is_true_true, orb_true_iff.
    rewrite !includes_lower. tauto.
Qed.

(** *** The recent channels of the player *)

(** Property X26.  The player shows at most four recent channels; each is a
    channel of the playlist whose id is among the recent ids and is not the id
    of the channel playing. *)
Theorem recent_objects_are_other_channels (p : Playlist)
        (recentChannels : list string) (channelId : string) :
  let objects := recentChannelObjects (Some p) recentChannels channelId in
  length objects ≤ 4
  ∧ ∀ c, c ∈ objects →
         c ∈ channels p ∧ ch_id c ∈ recentChannels ∧ ch_id c ≠ channelId.
Proof.
  unfold recentChannelObjects. split.
  - etrans; [apply omap_length|]. rewrite length_take. lia.
  - intros c (id & Hid & Hc)%list_elem_of_omap.
    apply elem_of_take in Hid as (i & Hid & _).
    apply list_elem_of_lookup_2, list_elem_of_filter in Hid as [Hne Hin].
    rewrite getChannelById_last in Hc.
    apply last_Some_elem_of, list_elem_of_filter in Hc as [-> Hfound]. done.
Qed.

End ContextFacts.

Section ContextExamples.
Import JS M3U Context Examples.

Lemma category_index_agrees_with_screen_witness :
  getChannelsByCategory (Some twoGroupsPlaylist) "B"
  = filteredChannels (Some twoGroupsPlaylist) "  " "B".
Proof.
  apply (category_index_agrees_with_screen (Some twoGroupsPlaylist) "  " "B").
  reflexivity.
Defined.

Lemma channel_found_by_id_witness :
  getChannelById (Some twoGroupsPlaylist) "id0" = Some firstOfTwo.
Proof.
  assert (NoDup (ch_id <$> channels twoGroupsPlaylist)) as Hnodup
    by (by apply (bool_decide_unpack _); vm_compute).
  assert (firstOfTwo ∈ channels twoGroupsPlaylist) as Hin
    by (vm_compute; left).
  exact (proj2 (proj2 (channel_found_by_id twoGroupsPlaylist))
           Hnodup firstOfTwo Hin).
Defined.

Lemma search_matches_as_typed_witness :
  firstOfTwo ∈ searchChannels (Some twoGroupsPlaylist) "ON".
Proof.
  apply (proj2 (search_matches_as_typed twoGroupsPlaylist "ON")).
  - by vm_compute.
  - split; [vm_compute; left|]. left. by exists "", "On", "e".
Defined.
End ContextExamples.

(** ** The lists of favourites and of recent channels *)

Section JSONFacts.
Import JS JSON.

(** What [JSON.stringify] writes for an array of strings, [JSON.parse] reads
    back as that array. *)

Lemma append_empty (a : string) : a +:+ "" = a.
Proof.
  induction a as [|x a IH]; [done|].
  change (String x (a +:+ "") = String x a). by rewrite IH.
Qed.

Lemma read_quoteChar (c : ascii) (cur rest : string) (items : list string) :
  read (InString cur) items (quoteChar c +:+ rest)
  = read (InString (cur +:+ String c "")) items rest.
Proof.
  destruct c as [[] [] [] [] [] [] [] []]; reflexivity.
Qed.

Lemma read_quoteChars (s cur rest : string) (items : list string) :
  read (InString cur) items (quoteChars s +:+ rest)
  = read (InString (cur +:+ s)) items rest.
Proof.
  revert cur. induction s as [|c s IH]; intros cur.
  - by rewrite append_empty.
  - cbn [quoteChars]. rewrite append_assoc, read_quoteChar, IH.
    by rewrite append_assoc.
Qed.

Lemma read_quote (place : Place) (s rest : string) (items : list string) :
  place = AtFirst ∨ place = AtString →
  read place items (quote s +:+ rest) = read AtNext (items ++ [s]) rest.
Proof.
  intros Hplace. unfold quote.
  change (String dquote (quoteChars s +:+ String dquote "") +:+ rest)
    with (String dquote ((quoteChars s +:+ String dquote "") +:+ rest)).
  rewrite append_assoc.
  assert (read place items
            (String dquote (quoteChars s +:+ String dquote "" +:+ rest))
          = read (InString "") items
              (quoteChars s +:+ String dquote "" +:+ rest)) as ->
    by (by destruct Hplace as [-> | ->]).
  by rewrite read_quoteChars.
Qed.

(** The texts of the elements behind the first one, each with its comma. *)
Lemma join_quoted (s : string) (l : list string) :
  join "," (quote <$> (s :: l))
  = quote s +:+ match l with
                | [] => ""
                | _ => "," +:+ join "," (quote <$> l)
                end.
Proof. destruct l; [|done]. simpl. by rewrite append_empty. Qed.

Lemma read_elements (l items : list string) (place : Place) :
  place = AtFirst ∨ place = AtString →
  l ≠ [] →
  read place items (join "," (quote <$> l) +:+ "]") = Some (items ++ l).
Proof.
  intros Hplace Hl. revert items place Hplace.
  induction l as [|s l IH]; intros items place Hplace; [done|].
  rewrite join_quoted, append_assoc, read_quote by done.
  destruct l as [|s' l].
  - done.
  - change (("," +:+ join "," (quote <$> s' :: l)) +:+ "]")
      with (String "," (join "," (quote <$> s' :: l) +:+ "]")).
    cbn [read step isSpace]. rewrite bool_decide_true by done.
    rewrite IH by auto. by rewrite <-app_assoc.
Qed.

Lemma parse_stringify (l : list string) : parse (stringify l) = Some l.
Proof.
  unfold parse, stringify. destruct l as [|s l]; [done|].
  change ("[" +:+ join "," (quote <$> s :: l) +:+ "]")
    with (String "[" (join "," (quote <$> s :: l) +:+ "]")).
  cbn [read step isSpace]. rewrite bool_decide_true by done.
  by rewrite read_elements by auto.
Qed.

Lemma stringify_nonEmpty (l : list string) : stringify l ≠ "".
Proof. done. Qed.

End JSONFacts.

Section PrefsFacts.
Import JS Storage JSON Prefs.

Ltac run :=
  unfold tryCatch, mbind, M_bind, bind, ret, throw,
    getItem, setItem, removeItem, multiRemove, storageCall, nextFault;
  simpl.

(** *** Toggling *)

Lemma filter_all {A} (P : A → Prop) `{!∀ x, Decision (P x)} (l : list A) :
  (∀ y, y ∈ l → P y) → filter P l = l.
Proof.
  induction l as [|x l IH]; [done|]. intros Hall.
  rewrite filter_cons_True by (apply Hall; left).
  f_equal. apply IH. intros y Hy. apply Hall. by right.
Qed.

Lemma toggled_cons (x y : string) (l : list string) :
  toggled x (y :: l) = if bool_decide (y = x) then l else y :: toggled x l.
Proof.
  unfold toggled. simpl. case_bool_decide; [done|].
  by destruct (indexOf x l).
Qed.

Lemma toggled_absent (x : string) (l : list string) :
  x ∉ l → toggled x l = l ++ [x].
Proof.
  induction l as [|y l IH]; [done|].
  intros [Hy Hl]%not_elem_of_cons. rewrite toggled_cons.
  rewrite bool_decide_false by done. by rewrite IH.
Qed.

Lemma toggled_present (x : string) (l : list string) :
  NoDup l → x ∈ l → toggled x l = filter (λ y, y ≠ x) l.
Proof.
  induction l as [|y l IH]; [by intros _ ?%elem_of_nil|].
  intros [Hy Hnd]%NoDup_cons Hx. rewrite toggled_cons. case_bool_decide as Heq.
  - subst y. rewrite filter_cons_False by (by intros ?).
    symmetry. apply filter_all. by intros y Hin ->.
  - rewrite filter_cons_True by done. f_equal. apply IH; [done|].
    by apply elem_of_cons in Hx as [->|?].
Qed.

Lemma toggled_flips (x : string) (l : list string) :
  NoDup l →
  NoDup (toggled x l)
  ∧ (x ∈ toggled x l ↔ x ∉ l)
  ∧ (∀ y, y ≠ x → y ∈ toggled x l ↔ y ∈ l).
Proof.
  intros Hnd. destruct (decide (x ∈ l)) as [Hx|Hx].
  - rewrite toggled_present by done. split_and!.
    + by apply NoDup_filter.
    + rewrite list_elem_of_filter. tauto.
    + intros y Hy. rewrite list_elem_of_filter. tauto.
  - rewrite toggled_absent by done. split_and!.
    + apply NoDup_app. split_and!; [done| |apply NoDup_singleton].
      by intros y Hy ->%list_elem_of_singleton.
    + rewrite elem_of_app, list_elem_of_singleton. tauto.
    + intros y Hy. rewrite elem_of_app, list_elem_of_singleton. tauto.
Qed.

Lemma toggled_snoc (x : string) (l : list string) :
  x ∉ l → toggled x (l ++ [x]) = l.
Proof.
  induction l as [|y l IH].
  - intros _. unfold toggled. simpl. by rewrite bool_decide_true.
  - intros [Hy Hl]%not_elem_of_cons.
    rewrite <-app_comm_cons, toggled_cons.
    rewrite bool_decide_false by done. by rewrite IH.
Qed.

Lemma toggled_twice (x : string) (l : list string) :
  NoDup l →
  toggled x (toggled x l) ≡ₚ l
  ∧ (x ∉ l → toggled x (toggled x l) = l).
Proof.
  intros Hnd. split.
  - destruct (toggled_flips x l Hnd) as (Hnd1 & Hx1 & Hy1).
    destruct (toggled_flips x (toggled x l) Hnd1) as (Hnd2 & Hx2 & Hy2).
    apply NoDup_Permutation; [done..|]. intros y.
    destruct (decide (y = x)) as [->|Hy].
    + rewrite Hx2, Hx1. destruct (decide (x ∈ l)); tauto.
    + by rewrite Hy2, Hy1.
  - intros Hx. rewrite (toggled_absent x l) by done. by apply toggled_snoc.
Qed.

(** *** Reading and writing a list *)

Lemma parseList_holds (key : string) (l : list string)
      (m : gmap string Stored) (w : World) :
  HoldsList key l m → parseList (m !! key) w = (Ok l, w).
Proof.
  intros [Hkey|[Hkey ->]]; rewrite Hkey; [|done].
  unfold parseList. rewrite parse_stringify. by destruct l.
Qed.

Lemma holdsList_insert (key : string) (l : list string)
      (m : gmap string Stored) :
  HoldsList key l (<[key := SText (stringify l)]> m).
Proof. left. apply lookup_insert_eq. Qed.

Lemma getFavorites_calm (l : list string) (m : gmap string Stored) :
  HoldsList FAVORITES l m → getFavorites (calm m) = (Ok l, calm m).
Proof.
  intros Hl. unfold getFavorites. run. by rewrite (parseList_holds _ l).
Qed.

Lemma getFavoriteCategories_calm (l : list string) (m : gmap string Stored) :
  HoldsList FAVORITE_CATEGORIES l m →
  getFavoriteCategories (calm m) = (Ok l, calm m).
Proof.
  intros Hl. unfold getFavoriteCategories. run.
  by rewrite (parseList_holds _ l).
Qed.

Lemma getRecentChannels_calm (l : list string) (m : gmap string Stored) :
  HoldsList RECENT l m → getRecentChannels (calm m) = (Ok l, calm m).
Proof.
  intros Hl. unfold getRecentChannels. run. by rewrite (parseList_holds _ l).
Qed.

Lemma toggleFavorite_calm (channelId : string) (l : list string)
      (m : gmap string Stored) :
  HoldsList FAVORITES l m →
  toggleFavorite channelId (calm m)
  = (Ok (toggled channelId l),
     calm (<[FAVORITES := SText (stringify (toggled channelId l))]> m)).
Proof.
  intros Hl. unfold toggleFavorite, mbind, M_bind, bind at 1.
  rewrite (getFavorites_calm l) by done. by run.
Qed.

Lemma toggleFavoriteCategory_calm (category : string) (l : list string)
      (m : gmap string Stored) :
  HoldsList FAVORITE_CATEGORIES l m →
  toggleFavoriteCategory category (calm m)
  = (Ok (toggled category l),
     calm (<[FAVORITE_CATEGORIES := SText (stringify (toggled category l))]> m)).
Proof.
  intros Hl. unfold toggleFavoriteCategory, mbind, M_bind, bind at 1.
  rewrite (getFavoriteCategories_calm l) by done. by run.
Qed.

(** Property X27.  Toggling a channel makes it a favourite if it was none and
    removes it if it was one, leaves every other favourite as it is, and
    stores the list it returns: [getFavorites] returns it afterwards.  No
    other key of the store changes. *)
Theorem toggleFavorite_flips (channelId : string) (favorites : list string)
        (m : gmap string Stored) :
  HoldsList FAVORITES favorites m →
  NoDup favorites →
  ∃ result m',
    toggleFavorite channelId (calm m) = (Ok result, calm m')
    ∧ getFavorites (calm m') = (Ok result, calm m')
    ∧ NoDup result
    ∧ (channelId ∈ result ↔ channelId ∉ favorites)
    ∧ (∀ id, id ≠ channelId → id ∈ result ↔ id ∈ favorites)
    ∧ (∀ key, key ≠ FAVORITES → m' !! key = m !! key).
Proof.
  intros Hl Hnd. destruct (toggled_flips channelId favorites Hnd) as (? & ? & ?).
  eexists. eexists. split; [by apply toggleFavorite_calm|].
  split_and!; try done.
  - apply getFavorites_calm, holdsList_insert.
  - intros key Hkey. by rewrite lookup_insert_ne.
Qed.

(** Property X28.  Toggling a category twice gives the favourite categories
    there were: the same ones, and the very same list when the category was
    not among them. *)
Theorem toggleFavoriteCategory_twice (category : string)
        (categories : list string) (m : gmap string Stored) :
  HoldsList FAVORITE_CATEGORIES categories m →
  NoDup categories →
  ∃ once twice m1 m2,
    toggleFavoriteCategory category (calm m) = (Ok once, calm m1)
    ∧ toggleFavoriteCategory category (calm m1) = (Ok twice, calm m2)
    ∧ twice ≡ₚ categories
    ∧ (category ∉ categories → twice = categories)
    ∧ getFavoriteCategories (calm m2) = (Ok twice, calm m2).
Proof.
  intros Hl Hnd. destruct (toggled_twice category categories Hnd) as [? ?].
  eexists. eexists. eexists. eexists.
  split; [by apply toggleFavoriteCategory_calm|].
  split; [apply toggleFavoriteCategory_calm, holdsList_insert|].
  split_and!; try done.
  apply getFavoriteCategories_calm, holdsList_insert.
Qed.

(** *** Toggling while the store fails *)

(** Property X29.  [toggleFavorite] returns normally whatever fails.  When the
    write fails, it returns the toggled list although the store still holds
    the old one.  When the read fails, it takes the favourites for none: it
    returns and stores the list of the one channel, whatever favourites the
    store held. *)
Theorem toggleFavorite_unsaved (channelId : string) (favorites : list string)
        (m : gmap string Stored) (e : Error) :
  HoldsList FAVORITES favorites m →
  (toggleFavorite channelId {| kv := m; faults := [None; Some e] |}
   = (Ok (toggled channelId favorites), calm m))
  ∧ (toggleFavorite channelId {| kv := m; faults := [Some e] |}
     = (Ok [channelId], calm (<[FAVORITES := SText (stringify [channelId])]> m))).
Proof.
  intros Hl. split.
  - unfold toggleFavorite, mbind, M_bind, bind at 1.
    unfold getFavorites. run. by rewrite (parseList_holds _ favorites).
  - by run.
Qed.

(** *** The recent channels *)

(** Property X30.  After [addToRecent], the channel is the first of the recent
    channels and the last played one; the recent channels are at most 20,
    without duplicates, the earlier ones behind the new one in the order they
    had, and none is dropped while there were fewer than 20. *)
Theorem addToRecent_puts_first (channelId : string) (recent : list string)
        (m : gmap string Stored) :
  HoldsList RECENT recent m →
  NoDup recent →
  ∃ result rest m' w,
    addToRecent channelId (calm m) = (Ok result, calm m')
    ∧ result = channelId :: rest
    ∧ length result ≤ 20
    ∧ NoDup result
    ∧ sublist rest recent
    ∧ (length recent < 20 → ∀ id, id ∈ recent → id ∈ result)
    ∧ getLastPlayedChannel (calm m') = (Ok (Some channelId), w).
Proof.
  intros Hl Hnd.
  set (others := filter (λ id, id ≠ channelId) recent).
  set (result := take 20 (channelId :: others)).
  assert (addToRecent channelId (calm m)
          = (Ok result,
             calm (<[LAST_PLAYED := SText channelId]>
                     (<[RECENT := SText (stringify result)]> m)))) as Hrun.
  { unfold addToRecent, addRecentChannel, mbind, M_bind, bind at 1.
    unfold tryCatch at 1. unfold bind at 1.
    rewrite (getRecentChannels_calm recent) by done.
    fold others. fold result. unfold setItem at 1, storageCall, nextFault.
    cbn [faults hd kv fst snd tail]. unfold bind at 1.
    unfold setLastPlayedChannel, tryCatch at 1.
    unfold setItem at 1, storageCall, nextFault.
    cbn [faults hd kv fst snd tail].
    apply getRecentChannels_calm. left.
    rewrite lookup_insert_ne by done. apply lookup_insert_eq. }
  assert (sublist (take 19 others) others) as Hsub by apply sublist_take.
  assert (sublist others recent) as Hsub' by apply sublist_filter.
  exists result, (take 19 others). eexists. eexists.
  split; [exact Hrun|]. split_and!.
  - done.
  - unfold result. rewrite length_take. lia.
  - unfold result. cbn [take]. apply NoDup_cons. split.
    + intros Hin. eapply elem_of_sublist in Hin; [|exact Hsub].
      by apply list_elem_of_filter in Hin as [? _].
    + eapply sublist_NoDup; [|exact Hsub]. by apply NoDup_filter.
  - by etrans.
  - intros Hlen id Hid. unfold result. cbn [take].
    destruct (decide (id = channelId)) as [->|Hne]; [left|right].
    rewrite take_ge.
    + by apply list_elem_of_filter.
    + apply sublist_length in Hsub'. lia.
  - unfold getLastPlayedChannel. run. by rewrite lookup_insert_eq.
Qed.

End PrefsFacts.

Section PrefsExamples.
Import JS Storage JSON Prefs Examples.

Lemma listsStore_favorites : HoldsList FAVORITES ["c1"; "c2"] listsStore.
Proof. left. by vm_compute. Qed.

Lemma listsStore_categories :
  HoldsList FAVORITE_CATEGORIES ["News"; "Sport"] listsStore.
Proof. left. by vm_compute. Qed.

Lemma listsStore_recent : HoldsList RECENT ["c2"; "c1"] listsStore.
Proof. left. by vm_compute. Qed.

Lemma two_distinct (a b : string) : a ≠ b → NoDup [a; b].
Proof.
  intros Hne. apply NoDup_cons. split; [|apply NoDup_singleton].
  by intros ->%list_elem_of_singleton.
Qed.

Lemma toggleFavorite_flips_witness :
  ∃ result m',
    toggleFavorite "c1" (calm listsStore) = (Ok result, calm m')
    ∧ getFavorites (calm m') = (Ok result, calm m')
    ∧ NoDup result
    ∧ ("c1" ∈ result ↔ "c1" ∉ ["c1"; "c2"])
    ∧ (∀ id, id ≠ "c1" → id ∈ result ↔ id ∈ ["c1"; "c2"])
    ∧ (∀ key, key ≠ FAVORITES → m' !! key = listsStore !! key).
Proof.
  apply (toggleFavorite_flips "c1" ["c1"; "c2"] listsStore);
    [exact listsStore_favorites|by apply two_distinct].
Defined.

Lemma toggleFavoriteCategory_twice_witness :
  ∃ once twice m1 m2,
    toggleFavoriteCategory "News" (calm listsStore) = (Ok once, calm m1)
    ∧ toggleFavoriteCategory "News" (calm m1) = (Ok twice, calm m2)
    ∧ twice ≡ₚ ["News"; "Sport"]
    ∧ ("News" ∉ ["News"; "Sport"] → twice = ["News"; "Sport"])
    ∧ getFavoriteCategories (calm m2) = (Ok twice, calm m2).
Proof.
  apply (toggleFavoriteCategory_twice "News" ["News"; "Sport"] listsStore);
    [exact listsStore_categories|by apply two_distinct].
Defined.

Lemma toggleFavorite_unsaved_witness :
  toggleFavorite "c1" {| kv := listsStore; faults := [None; Some ioError] |}
  = (Ok ["c2"], calm listsStore).
Proof.
  apply (proj1 (toggleFavorite_unsaved "c1" ["c1"; "c2"] listsStore ioError
                  listsStore_favorites)).
Defined.

Lemma addToRecent_puts_first_witness :
  ∃ result rest m' w,
    addToRecent "c1" (calm listsStore) = (Ok result, calm m')
    ∧ result = "c1" :: rest
    ∧ length result ≤ 20
    ∧ NoDup result
    ∧ sublist rest ["c2"; "c1"]
    ∧ (length ["c2"; "c1"] < 20 → ∀ id, id ∈ ["c2"; "c1"] → id ∈ result)
    ∧ getLastPlayedChannel (calm m') = (Ok (Some "c1"), w).
Proof.
  apply (addToRecent_puts_first "c1" ["c2"; "c1"] listsStore);
    [exact listsStore_recent|by apply two_distinct].
Defined.
End PrefsExamples.
